(** * Multi-commodity-flow solver of the link graph (src/linkgraph/mcf.cpp)

    A shallow embedding of the solver and the properties its specification
    states about it.  The functions of mcf.cpp are translated one by one;
    the [Path] and [Edge] classes, which mcf.cpp only uses, are modelled
    from the specification and marked as such.

    Conventions:
    - [uint] values are integers in [0, 2^32), [int] values integers in
      [-2^31, 2^31); every C++ operation that can leave the range is
      followed by [u32] or [s32];
    - a [Path *] is a [PathPtr]: [NULL], the static [invalid_path] object of
      [EliminateCycles], or the address of a heap object held in a
      [gmap positive Path];
    - loops whose trip count is not structural take a fuel argument; an
      inner loop returns [None] when it runs out, a driver loop
      [OutOfFuel];
    - the loops over the nodes, which count with a [NodeID], are folds over
      the node IDs below [Size]: they are the loops of a job of at most
      65535 nodes, for which the counter reaches the size. *)

From Stdlib Require Import ZArith Lia Bool.
From stdpp Require Import base option gmap fin_maps numbers list.

Local Open Scope Z_scope.

(** ** Machine integers *)

Definition UINT_MAX : Z := 4294967295.
Definition INT_MAX : Z := 2147483647.
Definition INT_MIN : Z := -2147483648.

(** [NodeID] is a 16 bit unsigned integer and [INVALID_NODE] its largest
    value (both are declared with the link graph, outside mcf.cpp). *)
Definition NodeID := Z.
Definition INVALID_NODE : NodeID := 65535.

(** Result of an [unsigned int] operation. *)
Definition u32 (z : Z) : Z := z mod 4294967296.

(** Conversion of an [unsigned int] to [int] (two's complement). *)
Definition s32 (z : Z) : Z := (z + 2147483648) mod 4294967296 - 2147483648.

Definition is_uint (z : Z) : Prop := 0 <= z <= UINT_MAX.
Definition is_int (z : Z) : Prop := INT_MIN <= z <= INT_MAX.

(** ** Pointers to paths *)

Inductive PathPtr : Type :=
  | NULL : PathPtr
  | invalid_path : PathPtr
  | Ptr (a : positive) : PathPtr.

Global Instance PathPtr_eq_dec : EqDecision PathPtr.
Proof. solve_decision. Defined.

Definition ptr_eqb (p q : PathPtr) : bool := bool_decide (p = q).

(** ** The [Path] class *)

(** Modelled from the spec: the class [Path], declared outside mcf.cpp.
    Its attributes are those of the data model: the node the path ends at,
    the origin (the node of the root it was forked under), the parent, the
    number of children, and the accumulated distance, capacity, free
    capacity and flow. *)
Record Path : Type := mkPath {
  node : NodeID;
  origin : NodeID;
  parent : PathPtr;
  num_children : Z;
  distance : Z;
  capacity : Z;
  free_capacity : Z;
  flow : Z
}.

Global Instance Path_eq_dec : EqDecision Path.
Proof. solve_decision. Defined.

(** Modelled from the spec: the constructor [Path(n, source)].  A root starts
    with distance 0 and infinite capacity and free capacity, every other
    path with infinite distance, capacity 0, and the free capacity
    sentinel [INT_MIN]; no parent, no children, no flow. *)
Definition Path_new (n : NodeID) (source : bool) : Path :=
  {| node := n;
     origin := if source then n else INVALID_NODE;
     parent := NULL;
     num_children := 0;
     distance := if source then 0 else UINT_MAX;
     capacity := if source then UINT_MAX else 0;
     free_capacity := if source then INT_MAX else INT_MIN;
     flow := 0 |}.

Definition set_flow (f : Z) (p : Path) : Path :=
  {| node := node p; origin := origin p; parent := parent p;
     num_children := num_children p; distance := distance p;
     capacity := capacity p; free_capacity := free_capacity p; flow := f |}.

Definition set_parent (q : PathPtr) (p : Path) : Path :=
  {| node := node p; origin := origin p; parent := q;
     num_children := num_children p; distance := distance p;
     capacity := capacity p; free_capacity := free_capacity p; flow := flow p |}.

Definition set_num_children (c : Z) (p : Path) : Path :=
  {| node := node p; origin := origin p; parent := parent p;
     num_children := c; distance := distance p;
     capacity := capacity p; free_capacity := free_capacity p; flow := flow p |}.

(** Modelled from the spec: [Path::GetCapacityRatio(free, total)], the ratio
    of free to total capacity in a fixed-point scale of 16, infinite with
    the sign of [free] when [total] is 0. *)
Definition GetCapacityRatio_spec (free total : Z) : Z :=
  if total =? 0 then (if 0 <? free then INT_MAX else INT_MIN)
  else Z.quot (free * 16) total.

(** ** Annotations *)

(** [Greater<T>]: a relation that creates a weak order without duplicates. *)
Definition Greater (x_anno y_anno : Z) (x y : NodeID) : bool :=
  if y_anno <? x_anno then true
  else if x_anno <? y_anno then false
  else y <? x.

Module DistanceAnnotation.

Definition GetAnnotation (p : Path) : Z := distance p.

(** [DistanceAnnotation::IsBetter]; [this] is the annotation asked. *)
Definition IsBetter (this base : Path) (cap free_cap dist : Z) : bool :=
  if distance base =? UINT_MAX then false
  else if distance this =? UINT_MAX then true
  else if (0 <? free_cap) && (0 <? free_capacity base) then
    (if 0 <? free_capacity this
     then u32 (distance base + dist) <? distance this
     else true)
  else
    (if 0 <? free_capacity this
     then false
     else u32 (distance base + dist) <? distance this).

(** [DistanceAnnotation::Comparator::operator()]; [x] and [y] are the
    addresses compared, [px] and [py] the objects behind them. *)
Definition Comparator (x y : PathPtr) (px py : Path) : bool :=
  negb (ptr_eqb x y) &&
  negb (Greater (GetAnnotation px) (GetAnnotation py) (node px) (node py)).

(** The rule of the specification, case by case, for a current path [P]
    and a candidate that extends [base] by an edge; [base.distance + dist]
    is the sum of the two numbers, as the specification writes it. *)
Definition better_spec (P base : Path) (free_cap dist : Z) : Prop :=
  if decide (distance base = UINT_MAX) then False
  else if decide (distance P = UINT_MAX) then True
  else if decide (0 < free_cap /\ 0 < free_capacity base) then
    (if decide (0 < free_capacity P)
     then distance base + dist < distance P
     else True)
  else
    (if decide (0 < free_capacity P)
     then False
     else distance base + dist < distance P).

(** The same rule with the sum taken as the code takes it, in [uint]
    arithmetic. *)
Definition better_wrapped (P base : Path) (free_cap dist : Z) : Prop :=
  if decide (distance base = UINT_MAX) then False
  else if decide (distance P = UINT_MAX) then True
  else if decide (0 < free_cap /\ 0 < free_capacity base) then
    (if decide (0 < free_capacity P)
     then u32 (distance base + dist) < distance P
     else True)
  else
    (if decide (0 < free_capacity P)
     then False
     else u32 (distance base + dist) < distance P).

End DistanceAnnotation.

Module CapacityAnnotation.
Section WithRatio.

(** [Path::GetCapacityRatio(int free, uint total)] is declared with the
    [Path] class; the annotation is stated for any such function. *)
Variable GetCapacityRatio : Z -> Z -> Z.

Definition Path_GetCapacityRatio (p : Path) : Z :=
  GetCapacityRatio (free_capacity p) (capacity p).

Definition GetAnnotation (p : Path) : Z := Path_GetCapacityRatio p.

(** [CapacityAnnotation::IsBetter]. *)
Definition IsBetter (this base : Path) (cap free_cap dist : Z) : bool :=
  let min_cap :=
    GetCapacityRatio (Z.min (free_capacity base) free_cap)
                     (Z.min (capacity base) cap) in
  let this_cap := Path_GetCapacityRatio this in
  if min_cap =? this_cap then
    (if distance base =? UINT_MAX then false
     else u32 (distance base + dist) <? distance this)
  else this_cap <? min_cap.

(** [CapacityAnnotation::Comparator::operator()]. *)
Definition Comparator (x y : PathPtr) (px py : Path) : bool :=
  negb (ptr_eqb x y) &&
  Greater (GetAnnotation px) (GetAnnotation py) (node px) (node py).

End WithRatio.
End CapacityAnnotation.

(** ** Edges and the link graph job *)

(** Modelled from the spec: the [Edge] view of the job, declared outside
    mcf.cpp: an immutable distance ([UINT_MAX] for an absent edge) and the
    mutable capacity, flow, demand and unsatisfied demand. *)
Record Edge : Type := mkEdge {
  Distance : Z;
  Capacity : Z;
  Flow : Z;
  Demand : Z;
  UnsatisfiedDemand : Z
}.

Global Instance Edge_eq_dec : EqDecision Edge.
Proof. solve_decision. Defined.

Definition absent_edge : Edge :=
  {| Distance := UINT_MAX; Capacity := 0; Flow := 0; Demand := 0;
     UnsatisfiedDemand := 0 |}.

(** Modelled from the spec: [Edge::SatisfyDemand(f)],
    [unsatisfied_demand -= f]. *)
Definition SatisfyDemand (f : Z) (e : Edge) : Edge :=
  {| Distance := Distance e; Capacity := Capacity e; Flow := Flow e;
     Demand := Demand e;
     UnsatisfiedDemand := u32 (UnsatisfiedDemand e - f) |}.

(** Modelled from the spec: [Edge::RemoveFlow(f)], [flow -= f]. *)
Definition RemoveFlow (f : Z) (e : Edge) : Edge :=
  {| Distance := Distance e; Capacity := Capacity e;
     Flow := u32 (Flow e - f);
     Demand := Demand e; UnsatisfiedDemand := UnsatisfiedDemand e |}.

(** Modelled from the spec: the flow increment [Path::AddFlow] performs on
    an edge, [flow += f]. *)
Definition Edge_AddFlow (f : Z) (e : Edge) : Edge :=
  {| Distance := Distance e; Capacity := Capacity e;
     Flow := u32 (Flow e + f);
     Demand := Demand e; UnsatisfiedDemand := UnsatisfiedDemand e |}.

Definition StationID := Z.

(** Modelled from the spec: the [LinkGraphJob] interface mcf.cpp consumes.
    [out_edges n] is the sequence of targets [job[n].Begin() .. End()]
    walks, [Flows n] the flow-share table of node [n] (per source station,
    the shares in iteration order), [Paths n] the list of path fragments
    attached at [n], [edges] the matrix [job[from][to]]. *)
Record LinkGraphJob : Type := mkJob {
  Size : Z;
  accuracy : Z;
  Station : gmap NodeID StationID;
  out_edges : gmap NodeID (list NodeID);
  Flows : gmap NodeID (gmap StationID (list (Z * StationID)));
  Paths : gmap NodeID (list PathPtr);
  edges : gmap (NodeID * NodeID) Edge
}.

Definition set_edges (es : gmap (NodeID * NodeID) Edge) (j : LinkGraphJob)
  : LinkGraphJob :=
  {| Size := Size j; accuracy := accuracy j; Station := Station j;
     out_edges := out_edges j; Flows := Flows j; Paths := Paths j;
     edges := es |}.

(** [job[from][to]]. *)
Definition get_edge (j : LinkGraphJob) (from to : NodeID) : Edge :=
  default absent_edge (edges j !! (from, to)).

Definition update_edge (f : Edge -> Edge) (from to : NodeID)
    (j : LinkGraphJob) : LinkGraphJob :=
  set_edges (<[(from, to) := f (get_edge j from to)]> (edges j)) j.

(** The state a solver run works on: the job, the heap of [Path] objects
    and the next address [new] hands out. *)
Record State : Type := mkState {
  job : LinkGraphJob;
  heap : gmap positive Path;
  next_free : positive
}.

Definition set_job (j : LinkGraphJob) (st : State) : State :=
  {| job := j; heap := heap st; next_free := next_free st |}.

Definition set_heap (h : gmap positive Path) (st : State) : State :=
  {| job := job st; heap := h; next_free := next_free st |}.

(** Dereferencing: [NULL] cannot be dereferenced, [invalid_path] is the
    static object [Path(INVALID_NODE, true)]. *)
Definition deref (h : gmap positive Path) (p : PathPtr) : option Path :=
  match p with
  | NULL => None
  | invalid_path => Some (Path_new INVALID_NODE true)
  | Ptr a => h !! a
  end.

(** [new Tannotation(n, source)]. *)
Definition alloc (n : NodeID) (source : bool) (st : State) : PathPtr * State :=
  (Ptr (next_free st),
   {| job := job st;
      heap := <[next_free st := Path_new n source]> (heap st);
      next_free := Pos.succ (next_free st) |}).

(** Sequencing of fallible steps over a list. *)
Fixpoint fold_opt {A S : Type} (f : S -> A -> option S) (l : list A) (s : S)
  : option S :=
  match l with
  | [] => Some s
  | x :: l' => match f s x with
               | Some s' => fold_opt f l' s'
               | None => None
               end
  end.

(** ** Operations of [Path] *)

(** Modelled from the spec: [Path::Detach()] decrements the parent's child
    count and sets the parent to none. *)
Definition Detach (h : gmap positive Path) (this : positive)
  : option (gmap positive Path) :=
  p ← h !! this;
  match parent p with
  | NULL => Some h
  | invalid_path => None
  | Ptr q =>
      pq ← h !! q;
      Some (<[this := set_parent NULL p]>
              (<[q := set_num_children (u32 (num_children pq - 1)) pq]> h))
  end.

(** Modelled from the spec: [Path::Fork(base, cap, free_cap, dist)].  The
    path leaves its current parent, whose child count drops and which is
    freed if it is then a childless zero-flow non-root, and attaches to
    [base] with the distance, capacity and free capacity of [base]
    extended by the edge; the child count of [base] grows.  Forking a path
    under itself does nothing, and re-forking under the same parent keeps
    the parent's child count. *)
Definition Fork (h : gmap positive Path) (this base : positive)
    (cap free_cap dist : Z) : option (gmap positive Path) :=
  if decide (this = base) then Some h else
  p ← h !! this;
  h1 ← (if decide (parent p = Ptr base) then Some h else
        match parent p with
        | NULL => Some h
        | invalid_path => None
        | Ptr q =>
            pq ← h !! q;
            let pq' := set_num_children (u32 (num_children pq - 1)) pq in
            if (num_children pq' =? 0) && (flow pq' =? 0)
               && negb (ptr_eqb (parent pq') NULL)
            then Some (delete q h)
            else Some (<[q := pq']> h)
        end);
  pb ← h1 !! base;
  let p' :=
    {| node := node p; origin := origin pb; parent := Ptr base;
       num_children := num_children p;
       distance := u32 (distance pb + dist);
       capacity := Z.min (capacity pb) cap;
       free_capacity := Z.min (free_capacity pb) free_cap;
       flow := flow p |} in
  let pb' := if decide (parent p = Ptr base) then pb
             else set_num_children (u32 (num_children pb + 1)) pb in
  Some (<[this := p']> (<[base := pb']> h1)).

(** Modelled from the spec: [Path::ReduceFlow(f)] subtracts [f] from this
    path's own flow only. *)
Definition ReduceFlow (f : Z) (p : Path) : Path := set_flow (u32 (flow p - f)) p.

(** Modelled from the spec: the single-argument [Path::AddFlow(f)] adds
    [f] to this path's own flow. *)
Definition Path_AddFlow (f : Z) (p : Path) : Path := set_flow (u32 (flow p + f)) p.

(** Modelled from the spec: the walk of [Path::AddFlow] from a path up to
    its root; the chain of paths met, the path itself first. *)
Fixpoint walk_to_root (fuel : nat) (h : gmap positive Path) (p : PathPtr)
  : option (list positive) :=
  match p with
  | NULL => Some []
  | invalid_path => None
  | Ptr a =>
      match fuel with
      | O => None
      | S n =>
          pa ← h !! a;
          rest ← walk_to_root n h (parent pa);
          Some (a :: rest)
      end
  end.

(** Modelled from the spec: the edges [(parent.node, child.node)] the
    walk of [Path::AddFlow] records flow on. *)
Definition path_edges (h : gmap positive Path) (chain : list positive)
  : list (NodeID * NodeID) :=
  omap (fun a =>
          pa ← h !! a;
          match parent pa with
          | Ptr q => pq ← h !! q; Some (node pq, node pa)
          | _ => None
          end) chain.

(** Modelled from the spec: [saturation_cap(e)] of [Path::AddFlow] for a
    finite [max_saturation]. *)
Definition saturation_cap (e : Edge) (max_saturation : Z) : Z :=
  Z.max 1 (Capacity e * max_saturation / 100).

(** Modelled from the spec: [residual(e)] of [Path::AddFlow] for a finite
    [max_saturation]. *)
Definition residual (e : Edge) (max_saturation : Z) : Z :=
  saturation_cap e max_saturation - Flow e.

(** Modelled from the spec: [Path::AddFlow(want, job, max_saturation)]
    walks from the path up to the root, returns
    [f = min(want, min over the path's edges of max(0, residual(e)))], the
    residual being unbounded when [max_saturation] is infinite, and adds
    [f] to the flow of each edge and of each path on the walk. *)
Definition AddFlow (st : State) (this : PathPtr) (want max_saturation : Z)
  : option (Z * State) :=
  match this with
  | Ptr _ =>
      chain ← walk_to_root (S (size (heap st))) (heap st) this;
      let es := path_edges (heap st) chain in
      let f :=
        if max_saturation =? UINT_MAX then want
        else foldr Z.min want
               (map (fun e => Z.max 0 (residual (get_edge (job st) e.1 e.2)
                                                max_saturation)) es) in
      let j' := foldr (fun e j => update_edge (Edge_AddFlow f) e.1 e.2 j)
                      (job st) es in
      let h' := foldr (fun a h => alter (Path_AddFlow f) a h) (heap st) chain in
      Some (f, {| job := j'; heap := h'; next_free := next_free st |})
  | _ => None
  end.

(** Modelled from the spec: [Clamp(a, min, max)] of core/math_func.hpp. *)
Definition Clamp (a lo hi : Z) : Z :=
  if a <=? lo then lo else if hi <=? a then hi else a.

(** ** Flow assignment *)

(** [MultiCommodityFlow::PushFlow].  The [Edge &] argument is the view of
    [job[from][to]]; a failed assertion and a division by zero give
    [None]. *)
Definition PushFlow (st : State) (from to : NodeID) (path : PathPtr)
    (accuracy max_saturation : Z) : option (Z * State) :=
  let edge := get_edge (job st) from to in
  if negb (0 <? UnsatisfiedDemand edge) then None
  else if accuracy =? 0 then None
  else
    let flow := Clamp (Demand edge / accuracy) 1 (UnsatisfiedDemand edge) in
    '(flow', st') ← AddFlow st path flow max_saturation;
    Some (flow',
          set_job (update_edge (SatisfyDemand flow') from to (job st')) st').

(** ** The Dijkstra core *)

(** The template parameter [Tannotation]: how a path is rated. *)
Class Annotation : Type := {
  anno_IsBetter : Path -> Path -> Z -> Z -> Z -> bool;
  anno_Comparator : PathPtr -> PathPtr -> Path -> Path -> bool
}.

(** The template parameter [Tedge_iterator]: [iter_Next j source n] is the
    sequence of values [Next()] returns after [SetNode(source, n)], up to
    the exhaustion of the underlying iterator. *)
Class EdgeIterator : Type := {
  iter_Next : LinkGraphJob -> NodeID -> NodeID -> list NodeID
}.

Definition DistanceAnno : Annotation :=
  {| anno_IsBetter := DistanceAnnotation.IsBetter;
     anno_Comparator := DistanceAnnotation.Comparator |}.

Definition CapacityAnno : Annotation :=
  {| anno_IsBetter := CapacityAnnotation.IsBetter GetCapacityRatio_spec;
     anno_Comparator := CapacityAnnotation.Comparator GetCapacityRatio_spec |}.

(** [GraphEdgeIterator]: the targets of the node's edges, [source] unused. *)
Definition GraphEdgeIterator : EdgeIterator :=
  {| iter_Next := fun j _ n => default [] (out_edges j !! n) |}.

(** The table [station_to_node] the constructor of [FlowEdgeIterator]
    fills: a later node overwrites an earlier one with the same station.
    The loop counts the nodes with a [NodeID]; this is its table for a job
    of at most 65535 nodes, where that counter reaches the size. *)
Definition station_to_node (j : LinkGraphJob) : gmap StationID NodeID :=
  foldl (fun m i => <[default 0 (Station j !! i) := i]> m) ∅ (seqZ 0 (Size j)).

(** [FlowEdgeIterator]: the next hops of the shares the node holds for the
    station of [source]; [operator[]] yields 0 for an unknown station. *)
Definition FlowEdgeIterator : EdgeIterator :=
  {| iter_Next := fun j source n =>
       match default ∅ (Flows j !! n) !! default 0 (Station j !! source) with
       | Some shares =>
           map (fun s => default 0 (station_to_node j !! s.2)) shares
       | None => []
       end |}.

(** The loop [for (to = iter.Next(); to != INVALID_NODE; to = iter.Next())]
    sees the values before the first [INVALID_NODE]. *)
Fixpoint until_invalid (l : list NodeID) : list NodeID :=
  match l with
  | [] => []
  | x :: l' => if decide (x = INVALID_NODE) then [] else x :: until_invalid l'
  end.

(** The capacity Dijkstra works with: the raw capacity scaled by
    [max_saturation] percent in [uint] arithmetic, at least 1. *)
Definition effective_capacity (raw max_saturation : Z) : Z :=
  if max_saturation =? UINT_MAX then raw
  else
    let c := u32 (raw * max_saturation) / 100 in
    if c =? 0 then 1 else c.

(** [paths[n]]; an index outside the vector gives [None]. *)
Definition at_node {A : Type} (l : list A) (n : NodeID) : option A :=
  if n <? 0 then None else l !! Z.to_nat n.

Section Dijkstra.

Context {A : Annotation} {I : EdgeIterator}.

Definition compare_in (h : gmap positive Path) (x y : PathPtr) : option bool :=
  px ← deref h x; py ← deref h y; Some (anno_Comparator x y px py).

(** [std::set::insert]: the set is the list of its elements in comparator
    order; an element equivalent to one already there is not inserted. *)
Fixpoint set_insert (h : gmap positive Path) (x : PathPtr) (l : list PathPtr)
  : option (list PathPtr) :=
  match l with
  | [] => Some [x]
  | y :: l' =>
      lt ← compare_in h x y;
      if lt : bool then Some (x :: y :: l') else
      gt ← compare_in h y x;
      if gt : bool then l'' ← set_insert h x l'; Some (y :: l'')
      else Some (y :: l')
  end.

(** [std::set::erase(key)]: removes the element equivalent to the key. *)
Fixpoint set_erase (h : gmap positive Path) (x : PathPtr) (l : list PathPtr)
  : option (list PathPtr) :=
  match l with
  | [] => Some []
  | y :: l' =>
      lt ← compare_in h x y;
      if lt : bool then Some (y :: l') else
      gt ← compare_in h y x;
      if gt : bool then l'' ← set_erase h x l'; Some (y :: l'')
      else Some l'
  end.

Definition Fork_ptr (h : gmap positive Path) (this base : PathPtr)
    (cap free_cap dist : Z) : option (gmap positive Path) :=
  match this, base with
  | Ptr a, Ptr b => Fork h a b cap free_cap dist
  | _, _ => None
  end.

(** The body of the [for] loop of [Dijkstra] for one value [to] of the
    iterator: [source] is the annotation taken from the set, [from] its
    node, [annos] the set. *)
Definition Dijkstra_relax (max_saturation : Z) (paths : list PathPtr)
    (source : PathPtr) (from : NodeID)
    (acc : State * list PathPtr) (to : NodeID)
  : option (State * list PathPtr) :=
  let '(st, annos) := acc in
  if decide (to = from) then Some (st, annos) else
  let edge := get_edge (job st) from to in
  if negb (Distance edge <? UINT_MAX) then None else
  let capacity := effective_capacity (Capacity edge) max_saturation in
  let distance := u32 (Distance edge + 1) in
  let free := s32 (u32 (capacity - Flow edge)) in
  dest ← at_node paths to;
  pd ← deref (heap st) dest;
  ps ← deref (heap st) source;
  if anno_IsBetter pd ps capacity free distance then
    annos1 ← set_erase (heap st) dest annos;
    h' ← Fork_ptr (heap st) dest source capacity free distance;
    annos2 ← set_insert h' dest annos1;
    Some (set_heap h' st, annos2)
  else Some (st, annos).

(** The [while (!annos.empty())] loop. *)
Fixpoint Dijkstra_loop (fuel : nat) (max_saturation : Z) (source_node : NodeID)
    (paths : list PathPtr) (st : State) (annos : list PathPtr)
  : option State :=
  match annos with
  | [] => Some st
  | source :: annos' =>
      match fuel with
      | O => None
      | S fuel' =>
          ps ← deref (heap st) source;
          let from := node ps in
          '(st', annos'') ←
            fold_opt (Dijkstra_relax max_saturation paths source from)
                     (until_invalid (iter_Next (job st) source_node from))
                     (st, annos');
          Dijkstra_loop fuel' max_saturation source_node paths st' annos''
      end
  end.

(** [paths.resize(size, NULL)]. *)
Definition resize (paths : list PathPtr) (size : Z) : list PathPtr :=
  take (Z.to_nat size) (paths ++ replicate (Z.to_nat size - length paths) NULL).

(** The loop that creates one annotation per node. *)
Definition Dijkstra_init (source_node : NodeID)
    (acc : State * list PathPtr * list PathPtr) (n : NodeID)
  : option (State * list PathPtr * list PathPtr) :=
  let '(st, paths, annos) := acc in
  let '(anno, st1) := alloc n (bool_decide (n = source_node)) st in
  annos' ← set_insert (heap st1) anno annos;
  Some (st1, <[Z.to_nat n := anno]> paths, annos').

(** [MultiCommodityFlow::Dijkstra<Tannotation, Tedge_iterator>]. *)
Definition Dijkstra (fuel : nat) (max_saturation : Z) (source_node : NodeID)
    (st : State) (paths : list PathPtr) : option (State * list PathPtr) :=
  let size := Size (job st) in
  '(st1, paths1, annos) ←
    fold_opt (Dijkstra_init source_node) (seqZ 0 size)
             (st, resize paths size, []);
  st2 ← Dijkstra_loop fuel max_saturation source_node paths1 st1 annos;
  Some (st2, paths1).

End Dijkstra.

(** ** Cleaning up after a search *)

Definition Detach_ptr (h : gmap positive Path) (p : PathPtr)
  : option (gmap positive Path) :=
  match p with
  | Ptr a => Detach h a
  | _ => None
  end.

(** The inner [while] loop of [CleanupPaths]: walks parentwards from [path]
    as long as the paths carry no flow, detaching each and deleting those
    without children. *)
Fixpoint CleanupPaths_walk (fuel : nat) (source : PathPtr)
    (h : gmap positive Path) (paths : list PathPtr) (path : PathPtr)
  : option (gmap positive Path * list PathPtr) :=
  if decide (path = source) then Some (h, paths) else
  match path with
  | NULL => Some (h, paths)
  | invalid_path => None
  | Ptr a =>
      pa ← h !! a;
      if negb (flow pa =? 0) then Some (h, paths) else
      match fuel with
      | O => None
      | S n =>
          h1 ← Detach h a;
          pa1 ← h1 !! a;
          if num_children pa1 =? 0 then
            _ ← at_node paths (node pa1);
            CleanupPaths_walk n source (delete a h1)
                              (<[Z.to_nat (node pa1) := NULL]> paths) (parent pa)
          else CleanupPaths_walk n source h1 paths (parent pa)
      end
  end.

(** The body of the [for] loop of [CleanupPaths] for the element at
    index [i]. *)
Definition CleanupPaths_step (source : PathPtr)
    (acc : gmap positive Path * list PathPtr) (i : nat)
  : option (gmap positive Path * list PathPtr) :=
  let '(h, paths) := acc in
  path ← paths !! i;
  match path with
  | NULL => Some (h, paths)
  | _ =>
      pp ← deref h path;
      h1 ← (if decide (parent pp = source) then Detach_ptr h path else Some h);
      CleanupPaths_walk (S (size h1)) source h1 paths path
  end.

(** [MultiCommodityFlow::CleanupPaths]. *)
Definition CleanupPaths (source_id : NodeID) (st : State) (paths : list PathPtr)
  : option (State * list PathPtr) :=
  source ← at_node paths source_id;
  let paths0 := <[Z.to_nat source_id := NULL]> paths in
  '(h, _) ← fold_opt (CleanupPaths_step source) (seq 0 (length paths0))
                     (heap st, paths0);
  match source with
  | NULL => Some (set_heap h st, [])
  | invalid_path => None
  | Ptr a => Some (set_heap (delete a h) st, [])
  end.

(** ** Cycle elimination (first pass) *)

(** [MCF1stPass::FindCycleFlow]: the [do ... while] loop, [fl] being the
    local [flow]. *)
Fixpoint FindCycleFlow_loop (fuel : nat) (h : gmap positive Path)
    (path : list PathPtr) (cycle_end : PathPtr) (fl : Z) (cycle_begin : PathPtr)
  : option Z :=
  match fuel with
  | O => None
  | S n =>
      pc ← deref h cycle_begin;
      let fl' := Z.min fl (flow pc) in
      next ← at_node path (node pc);
      if decide (next = cycle_end) then Some fl'
      else FindCycleFlow_loop n h path cycle_end fl' next
  end.

Definition FindCycleFlow (fuel : nat) (h : gmap positive Path)
    (path : list PathPtr) (cycle_begin : PathPtr) : option Z :=
  FindCycleFlow_loop fuel h path cycle_begin UINT_MAX cycle_begin.

(** [MCF1stPass::EliminateCycle]: the [do ... while] loop. *)
Fixpoint EliminateCycle_loop (fuel : nat) (path : list PathPtr)
    (cycle_end : PathPtr) (fl : Z) (st : State) (cycle_begin : PathPtr)
  : option State :=
  match fuel with
  | O => None
  | S n =>
      match cycle_begin with
      | Ptr a =>
          pc ← heap st !! a;
          let prev := node pc in
          let h1 := <[a := ReduceFlow fl pc]> (heap st) in
          next ← at_node path (node pc);
          pn ← deref h1 next;
          let st1 :=
            {| job := update_edge (RemoveFlow fl) prev (node pn) (job st);
               heap := h1; next_free := next_free st |} in
          if decide (next = cycle_end) then Some st1
          else EliminateCycle_loop n path cycle_end fl st1 next
      | _ => None
      end
  end.

Definition EliminateCycle (fuel : nat) (path : list PathPtr)
    (cycle_begin : PathPtr) (fl : Z) (st : State) : option State :=
  EliminateCycle_loop fuel path cycle_begin fl st cycle_begin.

(** [PathViaMap], a [std::map<NodeID, Path *>]: the association list of its
    entries in ascending key order. *)
Fixpoint via_find (k : NodeID) (m : list (NodeID * PathPtr)) : option PathPtr :=
  match m with
  | [] => None
  | (k', v) :: m' => if decide (k = k') then Some v else via_find k m'
  end.

Fixpoint via_insert (k : NodeID) (v : PathPtr) (m : list (NodeID * PathPtr))
  : list (NodeID * PathPtr) :=
  match m with
  | [] => [(k, v)]
  | (k', v') :: m' =>
      if k <? k' then (k, v) :: (k', v') :: m'
      else if k =? k' then (k, v) :: m'
      else (k', v') :: via_insert k v m'
  end.

(** The body of the loop of [EliminateCycles] that summarizes the paths of
    one node: the first path of [origin_id] per next hop stays in
    [next_hops], a later one hands its flow over to it. *)
Definition summarize_step (origin_id : NodeID)
    (acc : gmap positive Path * list (NodeID * PathPtr)) (new_child : PathPtr)
  : option (gmap positive Path * list (NodeID * PathPtr)) :=
  let '(h, next_hops) := acc in
  pn ← deref h new_child;
  if decide (origin pn = origin_id) then
    match via_find (node pn) next_hops with
    | None => Some (h, via_insert (node pn) new_child next_hops)
    | Some child =>
        match child, new_child with
        | Ptr c, Ptr n =>
            let new_flow := flow pn in
            pc ← h !! c;
            let h1 := <[c := Path_AddFlow new_flow pc]> h in
            pn1 ← h1 !! n;
            Some (<[n := ReduceFlow new_flow pn1]> h1, next_hops)
        | _, _ => None
        end
    end
  else Some (h, next_hops).

Definition summarize (origin_id : NodeID) (h : gmap positive Path)
    (paths : list PathPtr)
  : option (gmap positive Path * list (NodeID * PathPtr)) :=
  fold_opt (summarize_step origin_id) paths (h, []).

(** The body of the loop of [EliminateCycles] over the next hops of node
    [next_id]: a child that still carries flow is put into the path vector
    at [next_id] and searched by [rec], the recursive call. *)
Definition EliminateCycles_child
    (rec : State -> list PathPtr -> NodeID -> option (bool * State * list PathPtr))
    (next_id : NodeID) (acc : bool * State * list PathPtr)
    (via : NodeID * PathPtr) : option (bool * State * list PathPtr) :=
  let '(found, st, path) := acc in
  child ← deref (heap st) via.2;
  if 0 <? flow child then
    '(r, st', path') ← rec st (<[Z.to_nat next_id := via.2]> path) (node child);
    Some (r || found, st', path')
  else Some (found, st, path).

(** The recursive [MCF1stPass::EliminateCycles(path, origin_id, next_id)].
    [fuel] bounds the depth of the recursion. *)
Fixpoint EliminateCycles_rec (fuel : nat) (origin_id : NodeID)
    (st : State) (path : list PathPtr) (next_id : NodeID)
  : option (bool * State * list PathPtr) :=
  match fuel with
  | O => None
  | S n =>
      at_next_pos ← at_node path next_id;
      match at_next_pos with
      | invalid_path => Some (false, st, path)
      | NULL =>
          '(h1, next_hops) ←
            summarize origin_id (heap st) (default [] (Paths (job st) !! next_id));
          '(found, st2, path2) ←
            fold_opt (EliminateCycles_child (EliminateCycles_rec n origin_id) next_id)
                     next_hops (false, set_heap h1 st, path);
          Some (found, st2,
                <[Z.to_nat next_id := if found : bool then NULL else invalid_path]> path2)
      | Ptr _ =>
          fl ← FindCycleFlow (S (length path)) (heap st) path at_next_pos;
          if 0 <? fl then
            st' ← EliminateCycle (S (length path)) path at_next_pos fl st;
            Some (true, st', path)
          else Some (false, st, path)
      end
  end.

(** [MCF1stPass::EliminateCycles()]. *)
Definition EliminateCycles (fuel : nat) (st : State) : option (bool * State) :=
  let size := Size (job st) in
  fold_opt
    (fun (a : bool * State) (n : NodeID) =>
       let '(cycles_found, st') := a in
       '(r, st'', _) ←
         EliminateCycles_rec fuel n st' (replicate (Z.to_nat size) NULL) n;
       Some (cycles_found || r, st''))
    (seqZ 0 size) (false, st).

(** ** The two passes *)

(** Result of a driver loop: finished, failed in an inner step (a failed
    assertion, an invalid pointer, an inner search out of fuel), or out of
    the fuel of the driver loop itself. *)
Inductive Outcome (A : Type) : Type :=
  | Finished (a : A)
  | Failed
  | OutOfFuel.
Arguments Finished {A} a.
Arguments Failed {A}.
Arguments OutOfFuel {A}.

(** The two calls of [PushFlow] in the first pass. *)
Inductive PushKind : Type :=
  | SaturatingPush   (* with [this->max_saturation] *)
  | OverloadingPush. (* with [UINT_MAX] *)

(** A record of one call of [PushFlow]: what the path and the edge looked
    like when the call was made, and what it returned. *)
Record PushCall : Type := mkPushCall {
  call_kind : PushKind;
  call_source : NodeID;
  call_dest : NodeID;
  call_free_capacity : Z;
  call_unsatisfied : Z;
  call_demand : Z;
  call_pushed : Z
}.

Definition record_call (k : PushKind) (st : State) (source dest : NodeID)
    (pp : Path) (pushed : Z) : PushCall :=
  let edge := get_edge (job st) source dest in
  {| call_kind := k; call_source := source; call_dest := dest;
     call_free_capacity := free_capacity pp;
     call_unsatisfied := UnsatisfiedDemand edge;
     call_demand := Demand edge;
     call_pushed := pushed |}.

(** The [else if] branch of the first pass: the push that may overload. *)
Definition MCF1stPass_overload (accuracy : Z) (source dest : NodeID)
    (path : PathPtr) (st : State) (more_loops : bool) (log : list PushCall)
  : option (State * bool * list PushCall) :=
  let edge := get_edge (job st) source dest in
  pp ← deref (heap st) path;
  if (UnsatisfiedDemand edge =? Demand edge) && (INT_MIN <? free_capacity pp)
  then
    '(pushed, st') ← PushFlow st source dest path accuracy UINT_MAX;
    Some (st', more_loops,
          log ++ [record_call OverloadingPush st source dest pp pushed])
  else Some (st, more_loops, log).

(** The body of the loop over destinations of the first pass.  [log]
    collects the calls of [PushFlow], in order. *)
Definition MCF1stPass_dest (max_saturation accuracy : Z) (source : NodeID)
    (paths : list PathPtr) (acc : State * bool * list PushCall) (dest : NodeID)
  : option (State * bool * list PushCall) :=
  let '(st, more_loops, log) := acc in
  let edge := get_edge (job st) source dest in
  if 0 <? UnsatisfiedDemand edge then
    path ← at_node paths dest;
    if decide (path = NULL) then None else
    pp ← deref (heap st) path;
    if 0 <? free_capacity pp then
      '(pushed, st1) ← PushFlow st source dest path accuracy max_saturation;
      let log1 := log ++ [record_call SaturatingPush st source dest pp pushed] in
      if 0 <? pushed then
        Some (st1,
              more_loops || (0 <? UnsatisfiedDemand (get_edge (job st1) source dest)),
              log1)
      else MCF1stPass_overload accuracy source dest path st1 more_loops log1
    else MCF1stPass_overload accuracy source dest path st more_loops log
  else Some acc.

(** The body of the loop over sources of the first pass. *)
Definition MCF1stPass_source (dfuel : nat) (max_saturation : Z)
    (acc : State * bool * list PushCall) (source : NodeID)
  : option (State * bool * list PushCall) :=
  let '(st, more_loops, log) := acc in
  let size := Size (job st) in
  let accuracy := accuracy (job st) in
  '(st1, paths) ←
    Dijkstra (A := DistanceAnno) (I := GraphEdgeIterator)
             dfuel max_saturation source st [];
  '(st2, more_loops', log') ←
    fold_opt (MCF1stPass_dest max_saturation accuracy source paths)
             (seqZ 0 size) (st1, more_loops, log);
  '(st3, _) ← CleanupPaths source st2 paths;
  Some (st3, more_loops', log').

(** [MCF1stPass::MCF1stPass]: the [do ... while] loop. *)
Fixpoint MCF1stPass (fuel dfuel : nat) (max_saturation : Z)
    (st : State) (log : list PushCall) : Outcome (State * list PushCall) :=
  match fuel with
  | O => OutOfFuel
  | S n =>
      match fold_opt (MCF1stPass_source dfuel max_saturation)
                     (seqZ 0 (Size (job st))) (st, false, log) with
      | None => Failed
      | Some (st', more_loops, log') =>
          if more_loops : bool then MCF1stPass n dfuel max_saturation st' log'
          else
            match EliminateCycles (S (Z.to_nat (Size (job st')))) st' with
            | None => Failed
            | Some (cycles, st'') =>
                if cycles : bool then MCF1stPass n dfuel max_saturation st'' log'
                else Finished (st'', log')
            end
      end
  end.

(** The body of the loop over destinations of the second pass. *)
Definition MCF2ndPass_dest (accuracy : Z) (source : NodeID)
    (paths : list PathPtr) (acc : State * bool) (dest : NodeID)
  : option (State * bool) :=
  let '(st, demand_left) := acc in
  let edge := get_edge (job st) source dest in
  path ← at_node paths dest;
  if 0 <? UnsatisfiedDemand edge then
    pp ← deref (heap st) path;
    if INT_MIN <? free_capacity pp then
      '(_, st') ← PushFlow st source dest path accuracy UINT_MAX;
      Some (st',
            if 0 <? UnsatisfiedDemand (get_edge (job st') source dest)
            then true else demand_left)
    else Some (st, demand_left)
  else Some (st, demand_left).

(** The body of the loop over sources of the second pass. *)
Definition MCF2ndPass_source (dfuel : nat) (acc : State * bool)
    (source : NodeID) : option (State * bool) :=
  let '(st, demand_left) := acc in
  let size := Size (job st) in
  let accuracy := accuracy (job st) in
  '(st1, paths) ←
    Dijkstra (A := CapacityAnno) (I := FlowEdgeIterator)
             dfuel UINT_MAX source st [];
  '(st2, demand_left') ←
    fold_opt (MCF2ndPass_dest accuracy source paths) (seqZ 0 size)
             (st1, demand_left);
  '(st3, _) ← CleanupPaths source st2 paths;
  Some (st3, demand_left').

(** One iteration of the [while (demand_left)] loop: a sweep over all
    sources, starting with [demand_left = false]. *)
Definition MCF2ndPass_sweep (dfuel : nat) (st : State) : option (State * bool) :=
  fold_opt (MCF2ndPass_source dfuel) (seqZ 0 (Size (job st))) (st, false).

(** [MCF2ndPass::MCF2ndPass]: the [while (demand_left)] loop. *)
Fixpoint MCF2ndPass (fuel dfuel : nat) (st : State) : Outcome State :=
  match fuel with
  | O => OutOfFuel
  | S n =>
      match MCF2ndPass_sweep dfuel st with
      | None => Failed
      | Some (st', demand_left) =>
          if demand_left : bool then MCF2ndPass n dfuel st' else Finished st'
      end
  end.

(** The unsatisfied demand of all edges of the job together. *)
Definition sum_unsatisfied (m : gmap (NodeID * NodeID) Edge) : Z :=
  map_fold (fun _ e acc => UnsatisfiedDemand e + acc) 0 m.

Definition total_unsatisfied (j : LinkGraphJob) : Z := sum_unsatisfied (edges j).

(** ** Notions the properties are stated with *)

(** What adding flow leaves alone on every edge. *)
Definition same_demand (j j' : LinkGraphJob) : Prop :=
  forall a b,
    Demand (get_edge j' a b) = Demand (get_edge j a b) /\
    UnsatisfiedDemand (get_edge j' a b) = UnsatisfiedDemand (get_edge j a b) /\
    Distance (get_edge j' a b) = Distance (get_edge j a b) /\
    Capacity (get_edge j' a b) = Capacity (get_edge j a b).


(** The node a heap object ends at. *)
Definition node_at (h : gmap positive Path) (a : positive) : option NodeID :=
  node <$> h !! a.

(** The paths [c] are linked through the path vector: at the node each of
    them ends at the vector holds the next one, and [first] after the last
    one.  With [first] the head of [c] they form a cycle. *)
Fixpoint cycle_links (h : gmap positive Path) (path : list PathPtr)
    (first : positive) (c : list positive) : Prop :=
  match c with
  | [] => True
  | a :: c' =>
      (exists n, node_at h a = Some n /\
                 at_node path n = Some (Ptr (hd first c'))) /\
      cycle_links h path first c'
  end.

(** The edges a walk over the linked paths [c] traverses. *)
Fixpoint cycle_edges (h : gmap positive Path) (first : positive)
    (c : list positive) : list (NodeID * NodeID) :=
  match c with
  | [] => []
  | a :: c' =>
      match node_at h a, node_at h (hd first c') with
      | Some n, Some n' => (n, n') :: cycle_edges h first c'
      | _, _ => cycle_edges h first c'
      end
  end.

(** [ReduceFlow(f)] on each of the paths [c], and [RemoveFlow(f)] on each
    of the edges [es], in order. *)
Definition reduce_paths (f : Z) (c : list positive) (h : gmap positive Path)
  : gmap positive Path :=
  foldl (fun h a => alter (ReduceFlow f) a h) h c.

Definition remove_flows (f : Z) (es : list (NodeID * NodeID)) (j : LinkGraphJob)
  : LinkGraphJob :=
  foldl (fun j e => update_edge (RemoveFlow f) e.1 e.2 j) j es.

(** The conditions the specification states for the pushes of the first
    pass: an overloading push only on a path without free capacity, on an
    edge that has all its demand left, and not on the sentinel; and only
    the saturating push on a path with free capacity. *)
Definition one_shot_as_specified (c : PushCall) : Prop :=
  call_kind c = OverloadingPush ->
  call_free_capacity c <= 0 /\ call_unsatisfied c = call_demand c /\
  INT_MIN < call_free_capacity c.

Definition capped_when_free (c : PushCall) : Prop :=
  0 < call_free_capacity c -> call_kind c = SaturatingPush.

(** Every unsatisfied demand of the job is an [unsigned int]. *)
Definition wf_demand (j : LinkGraphJob) : Prop :=
  forall k e, edges j !! k = Some e -> is_uint (UnsatisfiedDemand e).

(** ** Example jobs *)

Definition new_edge (dist cap dem : Z) : Edge :=
  {| Distance := dist; Capacity := cap; Flow := 0; Demand := dem;
     UnsatisfiedDemand := dem |}.

(** Three nodes in a row, [0 -> 1 -> 2], each link of capacity 10; node 0
    has a demand of 10 to node 1 and of 5 to node 2. *)
Definition chain_job : LinkGraphJob :=
  {| Size := 3; accuracy := 1; Station := ∅;
     out_edges := {[ 0 := [1]; 1 := [2] ]};
     Flows := ∅; Paths := ∅;
     edges := {[ (0, 1) := new_edge 10 10 10;
                 (1, 2) := new_edge 10 10 0;
                 (0, 2) := new_edge UINT_MAX 0 5 ]} |}.

Definition chain_start : State :=
  {| job := chain_job; heap := ∅; next_free := 1%positive |}.

(** A fragment the cycle search can follow: a heap object that ends at a
    node of the path vector (of length [len]). *)
Definition valid_fragment (h : gmap positive Path) (len : nat) (p : PathPtr)
  : Prop :=
  exists a n, p = Ptr a /\ node_at h a = Some n /\ 0 <= n < Z.of_nat len.

(** All path fragments attached to the nodes of the job are valid. *)
Definition fragments_valid (st : State) (len : nat) : Prop :=
  forall k l p,
    Paths (job st) !! k = Some l -> p ∈ l -> valid_fragment (heap st) len p.

(** The nodes in progress together with the paths followed from them,
    outermost first: the path vector holds each path at its node, each
    path ends at the next node in progress, and the last one at
    [next_id], the node to be searched. *)
Fixpoint on_stack (h : gmap positive Path) (path : list PathPtr)
    (stack : list (NodeID * positive)) (next_id : NodeID) : Prop :=
  match stack with
  | [] => True
  | (n, c) :: stack' =>
      at_node path n = Some (Ptr c) /\
      node_at h c = Some (hd next_id (stack'.*1)) /\
      on_stack h path stack' next_id
  end.

(** The path vector during a search: the nodes in progress are exactly
    those of the stack. *)
Definition search_stack (h : gmap positive Path) (path : list PathPtr)
    (stack : list (NodeID * positive)) (next_id : NodeID) : Prop :=
  on_stack h path stack next_id /\ NoDup (stack.*1) /\
  (forall k c, at_node path k = Some (Ptr c) -> (k, c) ∈ stack).

(** What a call may do to a slot of the path vector: a slot that is not
    unvisited stays, an unvisited one stays or becomes resolved. *)
Definition slot_evolves (p q : PathPtr) : Prop :=
  (p <> NULL -> q = p) /\ (p = NULL -> q = NULL \/ q = invalid_path).

Definition path_evolves (path path' : list PathPtr) : Prop :=
  Forall2 slot_evolves path path'.

(** What cycle elimination leaves alone: which heap objects there are and
    where they end, and the fragments attached to the nodes. *)
Definition same_shape (st st' : State) : Prop :=
  (forall a, node_at (heap st') a = node_at (heap st) a) /\
  Paths (job st') = Paths (job st).

(** The next hops hold fragments of the list, each under the node it ends
    at. *)
Definition next_hops_ok (h : gmap positive Path) (l : list PathPtr)
    (nh : list (NodeID * PathPtr)) : Prop :=
  forall k p, (k, p) ∈ nh ->
    p ∈ l /\ exists a, p = Ptr a /\ node_at h a = Some k.

(** What a call [rec] of the cycle search with [bound] levels of recursion
    left promises: on a valid state whose stack leaves fewer than [bound]
    nodes unvisited it returns, and changes neither the shape of the state
    nor the slots in progress. *)
Definition call_returns
    (rec : State -> list PathPtr -> NodeID -> option (bool * State * list PathPtr))
    (bound : nat) : Prop :=
  forall st V stk nx,
    fragments_valid st (length V) ->
    search_stack (heap st) V stk nx ->
    0 <= nx < Z.of_nat (length V) ->
    (length V - length stk < bound)%nat ->
    exists found st' V',
      rec st V nx = Some (found, st', V') /\
      same_shape st st' /\ path_evolves V V'.

(** The flow a fragment contributes to the next hop [k] of origin
    [origin_id], and the flow of all fragments of a list for that hop. *)
Definition fragment_flow (origin_id k : NodeID) (h : gmap positive Path)
    (p : PathPtr) : Z :=
  match deref h p with
  | Some pp =>
      if decide (origin pp = origin_id /\ node pp = k) then flow pp else 0
  | None => 0
  end.

Definition merged_flow (origin_id k : NodeID) (h : gmap positive Path)
    (l : list PathPtr) : Z :=
  foldr (fun p acc => fragment_flow origin_id k h p + acc) 0 l.

(** The chain after the search from node 0, and after the push for
    node 1 that follows it. *)
Definition chain_paths : list PathPtr := [Ptr 1; Ptr 2; Ptr 3].

Definition chain_searched : State :=
  default chain_start
    (fst <$> Dijkstra (A := DistanceAnno) (I := GraphEdgeIterator)
                      10 100 0 chain_start []).

Definition chain_pushed : State :=
  default chain_searched
    ((fun r : State * bool * list PushCall => r.1.1) <$>
     MCF1stPass_dest 100 1 0 chain_paths (chain_searched, false, []) 1).

(** The chain with its three fresh annotations, before the first
    relaxation of the search from node 0. *)
Definition chain_annotated : State :=
  default chain_start
    ((fun r : State * list PathPtr * list PathPtr => r.1.1) <$>
     fold_opt (Dijkstra_init (A := DistanceAnno) 0) (seqZ 0 3)
              (chain_start, resize [] 3, [])).

(** A triangle with a detour that is shorter than the direct link
    (scenario S2 of the specification). *)
Definition triangle_job : LinkGraphJob :=
  {| Size := 3; accuracy := 1; Station := ∅;
     out_edges := {[ 0 := [1; 2]; 1 := [2] ]};
     Flows := ∅; Paths := ∅;
     edges := {[ (0, 1) := new_edge 1 10 0;
                 (1, 2) := new_edge 1 10 0;
                 (0, 2) := new_edge 5 10 8 ]} |}.

Definition triangle_start : State :=
  {| job := triangle_job; heap := ∅; next_free := 1%positive |}.

(** Two routes of equal cost from node 0 to node 3, over node 1 and over
    node 2 (scenario S6); the iterator of node 0 yields node 2 first. *)
Definition diamond_job : LinkGraphJob :=
  {| Size := 4; accuracy := 1; Station := ∅;
     out_edges := {[ 0 := [2; 1]; 1 := [3]; 2 := [3] ]};
     Flows := ∅; Paths := ∅;
     edges := {[ (0, 1) := new_edge 1 10 0; (0, 2) := new_edge 1 10 0;
                 (1, 3) := new_edge 1 10 0; (2, 3) := new_edge 1 10 0;
                 (0, 3) := new_edge UINT_MAX 0 5 ]} |}.

Definition diamond_start : State :=
  {| job := diamond_job; heap := ∅; next_free := 1%positive |}.

(** Two nodes after a first pass that left 42 of a demand of 50
    unsatisfied (scenario S3), with the flow share the second pass
    follows. *)
Definition residual_job : LinkGraphJob :=
  {| Size := 2; accuracy := 4; Station := {[ 0 := 100; 1 := 101 ]};
     out_edges := {[ 0 := [1] ]};
     Flows := {[ 0 := {[ 100 := [(8, 101)] ]} ]}; Paths := ∅;
     edges := {[ (0, 1) := {| Distance := 10; Capacity := 10; Flow := 8;
                              Demand := 50; UnsatisfiedDemand := 42 |} ]} |}.

Definition residual_start : State :=
  {| job := residual_job; heap := ∅; next_free := 1%positive |}.

(** Flow of origin 0 running in a circle [0 -> 1 -> 2 -> 0], with two
    parallel fragments on the first link (scenario S4). *)
Definition fragment (n o f : Z) : Path :=
  {| node := n; origin := o; parent := NULL; num_children := 0;
     distance := 1; capacity := 10; free_capacity := 5; flow := f |}.

Definition used_edge (f : Z) : Edge :=
  {| Distance := 1; Capacity := 10; Flow := f; Demand := 0;
     UnsatisfiedDemand := 0 |}.

Definition loop_job : LinkGraphJob :=
  {| Size := 3; accuracy := 1; Station := ∅;
     out_edges := {[ 0 := [1]; 1 := [2]; 2 := [0] ]};
     Flows := ∅;
     Paths := {[ 0 := [Ptr 1; Ptr 4]; 1 := [Ptr 2]; 2 := [Ptr 3] ]};
     edges := {[ (0, 1) := used_edge 7; (1, 2) := used_edge 3;
                 (2, 0) := used_edge 4 ]} |}.

Definition loop_state : State :=
  {| job := loop_job;
     heap := {[ 1%positive := fragment 1 0 5; 2%positive := fragment 2 0 3;
                3%positive := fragment 0 0 4; 4%positive := fragment 1 0 2 ]};
     next_free := 5%positive |}.

(** The path vector when the search from node 0 has come round to node 0
    again, after the merge at node 0. *)
Definition loop_path : list PathPtr := [Ptr 1; Ptr 2; Ptr 3].

(** [fragments_valid] as a check that can be computed. *)
Definition valid_fragmentb (h : gmap positive Path) (len : nat) (p : PathPtr)
  : bool :=
  match p with
  | Ptr a =>
      match node_at h a with
      | Some n => (0 <=? n) && (n <? Z.of_nat len)
      | None => false
      end
  | _ => false
  end.

Definition fragments_validb (st : State) (len : nat) : bool :=
  bool_decide
    (map_Forall (fun _ l => forallb (valid_fragmentb (heap st) len) l = true)
                (Paths (job st))).

(** A fresh annotation for every address, each for a node of its own. *)
Definition annotation_at (p : PathPtr) : Path :=
  Path_new (match p with
            | Ptr a => Z.pos a
            | NULL => -1
            | invalid_path => -2
            end) false.

(** An annotation of node [n] that has taken over a path from a root at
    node 0 over an edge of capacity [cap], free capacity [free_cap] and
    distance [dist]. *)
Definition forked_annotation (n : NodeID) (cap free_cap dist : Z) : Path :=
  {| node := n; origin := 0; parent := Ptr 1; num_children := 0;
     distance := dist; capacity := cap; free_capacity := free_cap;
     flow := 0 |}.

(** ** Notions for the further properties *)

(** The jobs differ at most in the flows of their edges. *)
Definition flows_only (j j' : LinkGraphJob) : Prop :=
  Size j' = Size j /\ accuracy j' = accuracy j /\ Station j' = Station j /\
  out_edges j' = out_edges j /\ Flows j' = Flows j /\ Paths j' = Paths j /\
  same_demand j j'.

(** The amount the recorded calls of [PushFlow] moved for the edge from
    [source] to [dest]. *)
Definition pushed_for (source dest : NodeID) (log : list PushCall) : Z :=
  foldr (fun c acc =>
           if decide (call_source c = source /\ call_dest c = dest)
           then call_pushed c + acc else acc) 0 log.

(** The address of the annotation a search creates for node [n] when
    [first] is the first free address. *)
Definition anno_addr (first : positive) (n : NodeID) : positive :=
  Z.to_pos (Z.pos first + n).

(** The paths agree in everything but their links to parent and
    children. *)
Definition same_but_links (p p' : Path) : Prop :=
  node p' = node p /\ origin p' = origin p /\ distance p' = distance p /\
  capacity p' = capacity p /\ free_capacity p' = free_capacity p /\
  flow p' = flow p.

(** The demands of [j'] are those of [j] less what the recorded calls
    moved, none of which moved a negative amount. *)
Definition demand_accounted (j j' : LinkGraphJob) (new : list PushCall) : Prop :=
  Forall (fun c => 0 <= call_pushed c) new /\
  forall a b,
    Demand (get_edge j' a b) = Demand (get_edge j a b) /\
    UnsatisfiedDemand (get_edge j' a b)
      = UnsatisfiedDemand (get_edge j a b) - pushed_for a b new.

(** Where a sweep of the second pass that started on [j0] stands: no
    demand has changed, no unsatisfied demand has grown, and as long as
    [demand_left] is false every edge is either satisfied or as it was. *)
Definition sweep_progress (j0 : LinkGraphJob) (st : State) (demand_left : bool)
  : Prop :=
  wf_demand (job st) /\
  forall a b,
    Demand (get_edge (job st) a b) = Demand (get_edge j0 a b) /\
    UnsatisfiedDemand (get_edge (job st) a b)
      <= UnsatisfiedDemand (get_edge j0 a b) /\
    (demand_left = false ->
     UnsatisfiedDemand (get_edge (job st) a b) = 0 \/
     UnsatisfiedDemand (get_edge (job st) a b)
       = UnsatisfiedDemand (get_edge j0 a b)).

(** The heap during a search that started on the heap [h0] with [first]
    the first free address, in a job of [size] nodes: the objects below
    [first] are those of [h0], and the annotation of node [n], while it
    exists, ends at [n] and either has no parent and is as the constructor
    made it, or has the annotation of a node as parent. *)
Definition search_heap (first : positive) (size : Z) (source_node : NodeID)
    (h0 h : gmap positive Path) : Prop :=
  (forall a, (a < first)%positive -> h !! a = h0 !! a) /\
  forall n p, 0 <= n < size -> h !! anno_addr first n = Some p ->
    node p = n /\
    (parent p = NULL /\
     same_but_links (Path_new n (bool_decide (n = source_node))) p \/
     exists m, 0 <= m < size /\ parent p = Ptr (anno_addr first m)).

(** The path vector of a search: the annotation of each node at its
    index. *)
Definition search_paths (first : positive) (size : Z) (paths : list PathPtr)
  : Prop :=
  length paths = Z.to_nat size /\
  forall n, 0 <= n < size -> paths !! Z.to_nat n = Some (Ptr (anno_addr first n)).

(** The annotations waiting in the set are annotations of nodes. *)
Definition search_annos (first : positive) (size : Z) (annos : list PathPtr)
  : Prop :=
  Forall (fun x => exists n, 0 <= n < size /\ x = Ptr (anno_addr first n)) annos.

(** An annotation that never replaces a path of distance 0 that has free
    capacity, which is what the root of a search is. *)
Definition keeps_root (A : Annotation) : Prop :=
  forall pd ps cap free_cap dist,
    distance pd = 0 -> 0 < free_capacity pd ->
    anno_IsBetter pd ps cap free_cap dist = false.

(** The annotation of the node the search started at exists and has no
    parent. *)
Definition root_kept (first : positive) (source_node : NodeID)
    (h : gmap positive Path) : Prop :=
  exists p, h !! anno_addr first source_node = Some p /\ parent p = NULL.

(** The state of a search while it creates its annotations, those of the
    nodes below [k] being made: each is at its index in the path vector
    and as the constructor made it. *)
Definition search_begun (first : positive) (size : Z) (source_node : NodeID)
    (h0 : gmap positive Path) (k : Z) (st : State) (paths annos : list PathPtr)
  : Prop :=
  next_free st = anno_addr first k /\
  length paths = Z.to_nat size /\
  (forall n, 0 <= n < k ->
     paths !! Z.to_nat n = Some (Ptr (anno_addr first n)) /\
     heap st !! anno_addr first n
       = Some (Path_new n (bool_decide (n = source_node)))) /\
  (forall a, (a < first)%positive -> heap st !! a = h0 !! a) /\
  search_annos first k annos.

(** The heap [h] has come from [h0] by detaching and freeing paths: what
    is left agrees with [h0] in all but the links, and what has gone
    carried no flow. *)
Definition pruned (h0 h : gmap positive Path) : Prop :=
  (forall a p', h !! a = Some p' ->
     exists p, h0 !! a = Some p /\ same_but_links p p') /\
  (forall a p, h0 !! a = Some p -> h !! a = None -> flow p = 0).

(** Two nodes with a demand of 8 from node 0 to node 1 that an accuracy
    of 2 splits into pushes of 4. *)
Definition split_job : LinkGraphJob :=
  {| Size := 2; accuracy := 2; Station := ∅;
     out_edges := {[ 0 := [1] ]};
     Flows := ∅; Paths := ∅;
     edges := {[ (0, 1) := new_edge 10 10 8 ]} |}.

Definition split_start : State :=
  {| job := split_job; heap := ∅; next_free := 1%positive |}.

(** ** Notions for the cycle search as a whole *)

(** The path fragments attached to node [n]. *)
Definition fragments_at (st : State) (n : NodeID) : list PathPtr :=
  default [] (Paths (job st) !! n).

(** Flow of origin [origin_id] runs from node [n] to node [m]: a fragment
    attached to [n] belongs to the origin, ends at [m] and carries flow. *)
Definition flow_edge (origin_id : NodeID) (st : State) (n m : NodeID) : Prop :=
  exists a p, Ptr a ∈ fragments_at st n /\ heap st !! a = Some p /\
              origin p = origin_id /\ node p = m /\ 0 < flow p.

(** The node is marked as resolved in the path vector. *)
Definition resolved (path : list PathPtr) (n : NodeID) : Prop :=
  at_node path n = Some invalid_path.

(** The resolved nodes are closed under the flow of the origin, and
    [rank] falls along it. *)
Definition ranked (origin_id : NodeID) (st : State) (path : list PathPtr)
    (rank : NodeID -> nat) : Prop :=
  forall n m, resolved path n -> flow_edge origin_id st n m ->
    resolved path m /\ (rank m < rank n)%nat.

(** Every fragment is attached to one node, once, and its flow is an
    [unsigned int]. *)
Definition fragments_owned (st : State) : Prop :=
  (forall k, NoDup (fragments_at st k)) /\
  (forall k1 k2 p, p ∈ fragments_at st k1 -> p ∈ fragments_at st k2 -> k1 = k2) /\
  (forall k a pa, Ptr a ∈ fragments_at st k -> heap st !! a = Some pa ->
     is_uint (flow pa)).

(** The paths followed from the nodes in progress are fragments of these
    nodes and carry flow. *)
Definition stack_flows (st : State) (stack : list (NodeID * positive)) : Prop :=
  forall k c, (k, c) ∈ stack ->
    Ptr c ∈ fragments_at st k /\
    exists pc, heap st !! c = Some pc /\ 0 < flow pc.

(** The heap [h'] agrees with that of [st] on every object that is not a
    fragment of a node unvisited in [path]. *)
Definition unvisited_only (st : State) (path : list PathPtr)
    (h' : gmap positive Path) : Prop :=
  forall a, (forall k, Ptr a ∈ fragments_at st k -> at_node path k <> Some NULL) ->
    h' !! a = heap st !! a.

(** Every object of [h] is still there in [h'], with its origin, and
    unchanged if that is not [origin_id]. *)
Definition origins_kept (origin_id : NodeID) (h h' : gmap positive Path) : Prop :=
  forall a pa, h !! a = Some pa ->
    exists p', h' !! a = Some p' /\ origin p' = origin pa /\
               (origin pa <> origin_id -> p' = pa).

(** What a call [rec] of the cycle search with [bound] levels of recursion
    left does when it reports no cycle: the node searched is resolved, only
    fragments of the origin at nodes that were unvisited have changed, and
    the resolved nodes are ranked again. *)
Definition call_orders (origin_id : NodeID)
    (rec : State -> list PathPtr -> NodeID -> option (bool * State * list PathPtr))
    (bound : nat) : Prop :=
  forall st V stk nx rank st' V',
    fragments_valid st (length V) -> fragments_owned st ->
    search_stack (heap st) V stk nx -> stack_flows st stk ->
    0 <= nx < Z.of_nat (length V) ->
    (length V - length stk < bound)%nat ->
    ranked origin_id st V rank ->
    rec st V nx = Some (false, st', V') ->
    same_shape st st' /\ path_evolves V V' /\ fragments_owned st' /\
    resolved V' nx /\ unvisited_only st V (heap st') /\
    origins_kept origin_id (heap st) (heap st') /\
    exists rank', ranked origin_id st' V' rank'.

(** Flow of origin 0 along a line [0 -> 1 -> 2], with two parallel
    fragments on the first link. *)
Definition line_job : LinkGraphJob :=
  {| Size := 3; accuracy := 1; Station := ∅;
     out_edges := {[ 0 := [1]; 1 := [2] ]};
     Flows := ∅;
     Paths := {[ 0 := [Ptr 1; Ptr 4]; 1 := [Ptr 2] ]};
     edges := {[ (0, 1) := used_edge 7; (1, 2) := used_edge 3 ]} |}.

Definition line_state : State :=
  {| job := line_job;
     heap := {[ 1%positive := fragment 1 0 5; 2%positive := fragment 2 0 3;
                4%positive := fragment 1 0 2 ]};
     next_free := 5%positive |}.

(** ** Notions for the relaxation step and the driver loop *)

(** A comparator is strict: no object sorts before itself, and of two
    objects that end at different nodes exactly one sorts before the
    other. *)
Definition strict_comparator (A : Annotation) : Prop :=
  (forall x px, anno_Comparator x x px px = false) /\
  (forall x y px py, x <> y -> node px <> node py ->
     anno_Comparator x y px py = negb (anno_Comparator y x py px)).

(** The set of annotations as [std::set] keeps it: every element sorts
    before the ones behind it. *)
Fixpoint frontier_sorted {A : Annotation} (h : gmap positive Path)
    (annos : list PathPtr) : Prop :=
  match annos with
  | [] => True
  | x :: l =>
      Forall (fun y => compare_in h x y = Some true) l /\ frontier_sorted h l
  end.

(** The elements of the set are live annotations, and none but [dest]
    ends at the node of [dest], whose object is [pd]. *)
Definition frontier_live (h : gmap positive Path) (annos : list PathPtr)
    (dest : PathPtr) (pd : Path) : Prop :=
  forall y, y ∈ annos ->
    exists a py, y = Ptr a /\ h !! a = Some py /\
                 (y <> dest -> node py <> node pd).

(** The parent [pd] has before it is forked from [source], if it has one,
    is a live object, and it is [source] or outside the set: [Fork] may
    free it. *)
Definition old_parent_apart (h : gmap positive Path) (annos : list PathPtr)
    (pd : Path) (source : PathPtr) : Prop :=
  match parent pd with
  | NULL => True
  | invalid_path => False
  | Ptr q => is_Some (h !! q) /\ (Ptr q = source \/ Ptr q ∉ annos)
  end.

(** The triangle with its three fresh annotations, before the first
    relaxation of the search from node 0. *)
Definition triangle_annotated : State :=
  default triangle_start
    ((fun r : State * list PathPtr * list PathPtr => r.1.1) <$>
     fold_opt (Dijkstra_init (A := DistanceAnno) 0) (seqZ 0 3)
              (triangle_start, resize [] 3, [])).


(** No object lives at an address [new] has yet to hand out. *)
Definition heap_fresh (st : State) : Prop :=
  forall a, (next_free st <= a)%positive -> heap st !! a = None.

(** * Properties *)

(** ** Machine arithmetic *)

Lemma u32_exact (z : Z) : is_uint z -> u32 z = z.
Proof. unfold is_uint, u32, UINT_MAX. intros H. apply Z.mod_small. lia. Qed.

Lemma u32_range (z : Z) : is_uint (u32 z).
Proof.
  unfold is_uint, u32, UINT_MAX.
  pose proof (Z.mod_pos_bound z 4294967296 ltac:(lia)). lia.
Qed.

Lemma s32_exact (z : Z) : is_int z -> s32 z = z.
Proof.
  unfold is_int, s32, INT_MIN, INT_MAX. intros H.
  rewrite Z.mod_small by lia. lia.
Qed.

Lemma s32_u32 (z : Z) : s32 (u32 z) = s32 z.
Proof.
  unfold s32, u32.
  rewrite Zplus_mod_idemp_l. reflexivity.
Qed.

(** ** Ranking of paths *)

(** The sum in the rule of the specification is the sum the code computes
    as long as it fits an unsigned integer. *)
Lemma distance_sum_exact (this base : Path) (free_cap dist : Z) :
  is_uint (distance base + dist) ->
  (DistanceAnnotation.better_wrapped this base free_cap dist <->
   DistanceAnnotation.better_spec this base free_cap dist).
Proof.
  intros H.
  unfold DistanceAnnotation.better_wrapped, DistanceAnnotation.better_spec.
  rewrite (u32_exact _ H). reflexivity.
Qed.

(** C2: [DistanceAnnotation::IsBetter] accepts a candidate exactly in the
    cases of the four-case rule: never when the base is disconnected;
    otherwise always when this path is disconnected; otherwise, if both the
    new edge and the base have free capacity, on a shorter distance when
    this path has free capacity and always when it has none; and in the
    remaining case never when this path has free capacity and on a shorter
    distance when it has none.  The distance of the candidate is the sum
    [base.distance + dist] of two [uint]s, taken modulo [2^32]; as long as
    the sum of the two numbers fits a [uint], the rule is that of the
    specification. *)
Theorem C2_distance_IsBetter_rule (this base : Path) (cap free_cap dist : Z) :
  (DistanceAnnotation.IsBetter this base cap free_cap dist = true <->
   DistanceAnnotation.better_wrapped this base free_cap dist) /\
  (is_uint (distance base + dist) ->
   (DistanceAnnotation.IsBetter this base cap free_cap dist = true <->
    DistanceAnnotation.better_spec this base free_cap dist)).
Proof.
  assert (Hcode : DistanceAnnotation.IsBetter this base cap free_cap dist = true
                  <-> DistanceAnnotation.better_wrapped this base free_cap dist).
  { unfold DistanceAnnotation.IsBetter, DistanceAnnotation.better_wrapped.
    destruct (Z.eqb_spec (distance base) UINT_MAX) as [Hb|Hb];
      destruct (decide (distance base = UINT_MAX)); try contradiction;
      [split; [discriminate | tauto] |].
    destruct (Z.eqb_spec (distance this) UINT_MAX) as [Ht|Ht];
      destruct (decide (distance this = UINT_MAX)); try contradiction;
      [tauto |].
    destruct (Z.ltb_spec 0 free_cap), (Z.ltb_spec 0 (free_capacity base));
      destruct (decide (0 < free_cap /\ 0 < free_capacity base)) as [Hd|Hd];
      simpl; try (exfalso; lia);
      destruct (Z.ltb_spec 0 (free_capacity this));
      destruct (decide (0 < free_capacity this)); try (exfalso; lia);
      rewrite ?Z.ltb_lt; try tauto; split; (discriminate || tauto). }
  split; [exact Hcode |].
  intros Hfit. rewrite Hcode. apply distance_sum_exact. assumption.
Qed.

Section CapacityRanking.

Variable ratio : Z -> Z -> Z.

(** C3: [CapacityAnnotation::IsBetter] accepts a candidate exactly when the
    capacity ratio of the extended base, taken over the minima of the free
    capacities and of the capacities, is greater than the ratio of this
    path, or equal to it with a connected base and a shorter distance.
    The distance of the candidate is the sum [base.distance + dist] of two
    [uint]s, taken modulo [2^32]; as long as the sum of the two numbers
    fits a [uint], the rule is that of the specification. *)
Theorem C3_capacity_IsBetter_rule (this base : Path) (cap free_cap dist : Z) :
  distance base <= UINT_MAX ->
  let min_cap_ratio :=
    ratio (Z.min (free_capacity base) free_cap) (Z.min (capacity base) cap) in
  let this_ratio := CapacityAnnotation.Path_GetCapacityRatio ratio this in
  (CapacityAnnotation.IsBetter ratio this base cap free_cap dist = true <->
   (min_cap_ratio > this_ratio \/
    (min_cap_ratio = this_ratio /\ distance base < UINT_MAX /\
     u32 (distance base + dist) < distance this))) /\
  (is_uint (distance base + dist) ->
   (CapacityAnnotation.IsBetter ratio this base cap free_cap dist = true <->
    (min_cap_ratio > this_ratio \/
     (min_cap_ratio = this_ratio /\ distance base < UINT_MAX /\
      distance base + dist < distance this)))).
Proof.
  intros Hb min_cap_ratio this_ratio.
  assert (Hcode :
    CapacityAnnotation.IsBetter ratio this base cap free_cap dist = true <->
    (min_cap_ratio > this_ratio \/
     (min_cap_ratio = this_ratio /\ distance base < UINT_MAX /\
      u32 (distance base + dist) < distance this))).
  { unfold CapacityAnnotation.IsBetter.
    fold min_cap_ratio. fold this_ratio.
    destruct (Z.eqb_spec min_cap_ratio this_ratio) as [He|He].
    - destruct (Z.eqb_spec (distance base) UINT_MAX) as [Hd|Hd].
      + split; [discriminate | lia].
      + rewrite Z.ltb_lt. split; [intros; right; lia | lia].
    - rewrite Z.ltb_lt. lia. }
  split; [exact Hcode |].
  intros Hfit. rewrite Hcode. rewrite (u32_exact _ Hfit). reflexivity.
Qed.

(** C5: both comparators of the frontier are strict.  For two distinct
    annotation objects with different node IDs exactly one of [comp x y]
    and [comp y x] holds, and [comp x x] never holds; on equal annotation
    values the distance comparator puts the smaller node ID first and the
    capacity comparator the larger one, so that the two objects are never
    equivalent (neither before the other). *)
Theorem C5_comparators_strict (x y : PathPtr) (px py : Path) :
  x <> y -> node px <> node py ->
  xorb (DistanceAnnotation.Comparator x y px py)
       (DistanceAnnotation.Comparator y x py px) = true /\
  xorb (CapacityAnnotation.Comparator ratio x y px py)
       (CapacityAnnotation.Comparator ratio y x py px) = true /\
  DistanceAnnotation.Comparator x x px px = false /\
  CapacityAnnotation.Comparator ratio x x px px = false /\
  (DistanceAnnotation.GetAnnotation px = DistanceAnnotation.GetAnnotation py ->
   DistanceAnnotation.Comparator x y px py = bool_decide (node px < node py)) /\
  (CapacityAnnotation.GetAnnotation ratio px =
   CapacityAnnotation.GetAnnotation ratio py ->
   CapacityAnnotation.Comparator ratio x y px py = bool_decide (node py < node px)) /\
  ~ (DistanceAnnotation.Comparator x y px py = false /\
     DistanceAnnotation.Comparator y x py px = false) /\
  ~ (CapacityAnnotation.Comparator ratio x y px py = false /\
     CapacityAnnotation.Comparator ratio y x py px = false).
Proof.
  intros Hxy Hn.
  unfold DistanceAnnotation.Comparator, CapacityAnnotation.Comparator,
    Greater, ptr_eqb.
  rewrite !(bool_decide_eq_false_2 (x = y)) by assumption.
  rewrite !(bool_decide_eq_false_2 (y = x)) by congruence.
  rewrite !(bool_decide_eq_true_2 (x = x)) by reflexivity.
  set (dx := DistanceAnnotation.GetAnnotation px).
  set (dy := DistanceAnnotation.GetAnnotation py).
  set (cx := CapacityAnnotation.GetAnnotation ratio px).
  set (cy := CapacityAnnotation.GetAnnotation ratio py).
  simpl.
  repeat split.
  - destruct (Z.ltb_spec dy dx), (Z.ltb_spec dx dy),
      (Z.ltb_spec (node py) (node px)), (Z.ltb_spec (node px) (node py));
      simpl; try reflexivity; lia.
  - destruct (Z.ltb_spec cy cx), (Z.ltb_spec cx cy),
      (Z.ltb_spec (node py) (node px)), (Z.ltb_spec (node px) (node py));
      simpl; try reflexivity; lia.
  - intros ->. rewrite Z.ltb_irrefl.
    destruct (Z.ltb_spec (node py) (node px)); simpl; symmetry;
      [apply bool_decide_eq_false_2 | apply bool_decide_eq_true_2]; lia.
  - intros ->. rewrite Z.ltb_irrefl.
    destruct (Z.ltb_spec (node py) (node px)); symmetry;
      [apply bool_decide_eq_true_2 | apply bool_decide_eq_false_2]; lia.
  - intros [H1 H2]. revert H1 H2.
    destruct (Z.ltb_spec dy dx), (Z.ltb_spec dx dy),
      (Z.ltb_spec (node py) (node px)), (Z.ltb_spec (node px) (node py));
      simpl; try discriminate; lia.
  - intros [H1 H2]. revert H1 H2.
    destruct (Z.ltb_spec cy cx), (Z.ltb_spec cx cy),
      (Z.ltb_spec (node py) (node px)), (Z.ltb_spec (node px) (node py));
      simpl; try discriminate; lia.
Qed.

(** Off the scope of the strictness: two distinct objects for the same
    node with equal annotation values are equivalent for the capacity
    comparator, and each before the other for the distance comparator.
    The search never has two annotations for one node. *)
Remark comparators_same_node (x y : PathPtr) (px py : Path) :
  x <> y -> node px = node py ->
  DistanceAnnotation.GetAnnotation px = DistanceAnnotation.GetAnnotation py ->
  CapacityAnnotation.GetAnnotation ratio px =
    CapacityAnnotation.GetAnnotation ratio py ->
  CapacityAnnotation.Comparator ratio x y px py = false /\
  CapacityAnnotation.Comparator ratio y x py px = false /\
  DistanceAnnotation.Comparator x y px py = true /\
  DistanceAnnotation.Comparator y x py px = true.
Proof.
  intros Hxy Hn Hd Hc.
  unfold DistanceAnnotation.Comparator, CapacityAnnotation.Comparator,
    Greater, ptr_eqb.
  rewrite !(bool_decide_eq_false_2 (x = y)) by assumption.
  rewrite !(bool_decide_eq_false_2 (y = x)) by congruence.
  rewrite Hd, Hc, Hn, !Z.ltb_irrefl. auto.
Qed.

End CapacityRanking.

(** Two fresh annotations for the nodes 0 and 1. *)
Lemma C5_comparators_strict_witness :
  Ptr 1 <> Ptr 2 /\ node (Path_new 0 false) <> node (Path_new 1 false) /\
  xorb (DistanceAnnotation.Comparator (Ptr 1) (Ptr 2)
          (Path_new 0 false) (Path_new 1 false))
       (DistanceAnnotation.Comparator (Ptr 2) (Ptr 1)
          (Path_new 1 false) (Path_new 0 false)) = true.
Proof.
  assert (H1 : Ptr 1 <> Ptr 2) by discriminate.
  assert (H2 : node (Path_new 0 false) <> node (Path_new 1 false))
    by (simpl; discriminate).
  split; [exact H1 | split; [exact H2 |]].
  exact (proj1 (C5_comparators_strict GetCapacityRatio_spec (Ptr 1) (Ptr 2)
                  (Path_new 0 false) (Path_new 1 false) H1 H2)).
Defined.

(** A path of distance 20 with a capacity ratio of 8 gives way to one of
    the same ratio from the root over an edge of distance 11. *)
Lemma C3_capacity_IsBetter_rule_witness :
  distance (Path_new 0 true) <= UINT_MAX /\
  is_uint (distance (Path_new 0 true) + 11) /\
  CapacityAnnotation.IsBetter GetCapacityRatio_spec
    (forked_annotation 2 10 5 20) (Path_new 0 true) 10 5 11 = true.
Proof.
  assert (H : distance (Path_new 0 true) <= UINT_MAX) by (vm_compute; discriminate).
  assert (Hfit : is_uint (distance (Path_new 0 true) + 11))
    by (vm_compute; split; discriminate).
  split; [exact H |]. split; [exact Hfit |].
  apply (proj2 (C3_capacity_IsBetter_rule GetCapacityRatio_spec
                  (forked_annotation 2 10 5 20) (Path_new 0 true) 10 5 11 H)
           Hfit).
  right. vm_compute. repeat split.
Defined.

(** C3, with the sum of the numbers, fails where the sum of the [uint]s
    wraps: a base at distance 4294967290 extended by an edge of distance
    10 has the distance 4 for the code and is taken over a path of distance
    100 with the same capacity ratio, while 4294967300 is no less than
    100. *)
Lemma C3_capacity_sum_wraps :
  CapacityAnnotation.IsBetter GetCapacityRatio_spec
    (forked_annotation 2 10 5 100) (forked_annotation 1 10 5 4294967290)
    10 5 10 = true /\
  ~ (GetCapacityRatio_spec
       (Z.min (free_capacity (forked_annotation 1 10 5 4294967290)) 5)
       (Z.min (capacity (forked_annotation 1 10 5 4294967290)) 10)
     > CapacityAnnotation.Path_GetCapacityRatio GetCapacityRatio_spec
         (forked_annotation 2 10 5 100) \/
     (GetCapacityRatio_spec
        (Z.min (free_capacity (forked_annotation 1 10 5 4294967290)) 5)
        (Z.min (capacity (forked_annotation 1 10 5 4294967290)) 10)
      = CapacityAnnotation.Path_GetCapacityRatio GetCapacityRatio_spec
          (forked_annotation 2 10 5 100) /\
      distance (forked_annotation 1 10 5 4294967290) < UINT_MAX /\
      distance (forked_annotation 1 10 5 4294967290) + 10
        < distance (forked_annotation 2 10 5 100))).
Proof.
  split; [vm_compute; reflexivity |].
  vm_compute. intros [H|(_ & _ & H)]; discriminate.
Qed.

(** ** Scaling of capacities *)

Lemma effective_capacity_unfold (raw sat : Z) :
  sat <> UINT_MAX ->
  effective_capacity raw sat = Z.max 1 (u32 (raw * sat) / 100).
Proof.
  intros Hs. unfold effective_capacity.
  destruct (Z.eqb_spec sat UINT_MAX); [contradiction |].
  pose proof (u32_range (raw * sat)) as [Hlo _].
  pose proof (Z.div_pos (u32 (raw * sat)) 100 Hlo ltac:(lia)).
  destruct (Z.eqb_spec (u32 (raw * sat) / 100) 0); lia.
Qed.

(** C10: the capacity scaling of Dijkstra is done in 32 bit unsigned
    arithmetic.  As long as [raw_capacity * max_saturation] stays below
    2^32 the result is [max(1, floor(raw_capacity * max_saturation / 100))];
    from 2^32 on the product wraps and the result falls short of that value,
    by more than 42949670, as for the capacity 42949673 at saturation 100,
    which is scaled to 1. *)
Theorem C10_effective_capacity_wraps :
  (forall raw sat : Z,
     0 <= raw -> 0 <= sat -> sat <> UINT_MAX -> raw * sat < 2 ^ 32 ->
     effective_capacity raw sat = Z.max 1 (raw * sat / 100)) /\
  (forall raw sat : Z,
     is_uint raw -> is_uint sat -> sat <> UINT_MAX -> 2 ^ 32 <= raw * sat ->
     effective_capacity raw sat + 42949670 < Z.max 1 (raw * sat / 100)) /\
  effective_capacity 42949673 100 = 1 /\
  Z.max 1 (42949673 * 100 / 100) = 42949673.
Proof.
  split; [| split; [| split; reflexivity]].
  - intros raw sat Hr Hs Hne Hlt.
    rewrite effective_capacity_unfold by assumption.
    rewrite u32_exact; [reflexivity |].
    unfold is_uint, UINT_MAX. change (2 ^ 32) with 4294967296 in Hlt. nia.
  - intros raw sat [Hr0 Hr1] [Hs0 Hs1] Hne Hge.
    rewrite effective_capacity_unfold by assumption.
    change (2 ^ 32) with 4294967296 in Hge.
    unfold UINT_MAX in *.
    assert (Hq : 1 <= raw * sat / 4294967296).
    { apply Z.div_le_lower_bound; lia. }
    assert (Hu : u32 (raw * sat) <= raw * sat - 4294967296).
    { unfold u32.
      pose proof (Z.div_mod (raw * sat) 4294967296 ltac:(lia)). nia. }
    pose proof (u32_range (raw * sat)) as [Hlo _].
    assert (Hd : u32 (raw * sat) / 100 <= (raw * sat - 4294967296) / 100).
    { apply Z.div_le_mono; lia. }
    assert (Hm : (raw * sat - 4294967296) / 100 + 42949672 <= raw * sat / 100).
    { replace (raw * sat) with ((raw * sat - 4294967296) + 42949672 * 100 + 96)
        at 2 by lia.
      pose proof (Z.div_mod (raw * sat - 4294967296) 100 ltac:(lia)).
      pose proof (Z.mod_pos_bound (raw * sat - 4294967296) 100 ltac:(lia)).
      apply Z.div_le_lower_bound; [lia |]. nia. }
    pose proof (Z.div_pos (u32 (raw * sat)) 100 Hlo ltac:(lia)).
    lia.
Qed.

(** A capacity of 10 at a saturation of 80 percent is scaled to 8. *)
Lemma C10_effective_capacity_wraps_witness :
  0 <= 10 /\ 0 <= 80 /\ 80 <> UINT_MAX /\ 10 * 80 < 2 ^ 32 /\
  effective_capacity 10 80 = Z.max 1 (10 * 80 / 100).
Proof.
  assert (H1 : 0 <= 10) by lia.
  assert (H2 : 0 <= 80) by lia.
  assert (H3 : 80 <> UINT_MAX) by discriminate.
  assert (H4 : 10 * 80 < 2 ^ 32) by reflexivity.
  repeat (split; [assumption |]).
  exact (proj1 C10_effective_capacity_wraps 10 80 H1 H2 H3 H4).
Defined.

(** ** Flow assignment *)

Lemma get_edge_update (f : Edge -> Edge) (a b a' b' : NodeID) (j : LinkGraphJob) :
  get_edge (update_edge f a b j) a' b' =
  if decide ((a, b) = (a', b')) then f (get_edge j a b) else get_edge j a' b'.
Proof.
  unfold get_edge at 1. unfold update_edge, set_edges. simpl.
  rewrite lookup_insert. destruct (decide ((a, b) = (a', b'))); reflexivity.
Qed.

Lemma add_flows_same_demand (f : Z) (es : list (NodeID * NodeID)) (j : LinkGraphJob) :
  same_demand j (foldr (fun e j => update_edge (Edge_AddFlow f) e.1 e.2 j) j es).
Proof.
  induction es as [|[a b] es IH]; intros a' b'; simpl.
  - repeat split.
  - rewrite get_edge_update.
    destruct (decide ((a, b) = (a', b'))) as [[= <- <-]|]; [| apply IH].
    simpl. apply IH.
Qed.

Lemma foldr_min_le (w : Z) (l : list Z) : foldr Z.min w l <= w.
Proof. induction l; simpl; lia. Qed.

Lemma foldr_min_nonneg (w : Z) (l : list Z) :
  0 <= w -> Forall (fun x => 0 <= x) l -> 0 <= foldr Z.min w l.
Proof. intros Hw H. induction H; simpl; lia. Qed.

Lemma AddFlow_spec (st : State) (this : PathPtr) (want ms f : Z) (st' : State) :
  AddFlow st this want ms = Some (f, st') ->
  same_demand (job st) (job st') /\ f <= want /\ (0 <= want -> 0 <= f) /\
  (ms = UINT_MAX -> f = want) /\ next_free st' = next_free st.
Proof.
  unfold AddFlow. destruct this as [| |a]; try discriminate.
  destruct (walk_to_root _ _ _) as [chain|]; [| discriminate].
  simpl. intros [= <- <-]. simpl.
  split; [apply add_flows_same_demand |].
  destruct (Z.eqb_spec ms UINT_MAX) as [->|Hne].
  - repeat split; intros; lia.
  - split; [apply foldr_min_le |].
    split; [| split; [contradiction | reflexivity]].
    intros Hw. apply foldr_min_nonneg; [assumption |].
    apply Forall_forall. intros x Hx.
    apply list_elem_of_fmap in Hx as (e & -> & _). lia.
Qed.

Lemma Clamp_range (a hi : Z) : 1 <= hi -> 1 <= Clamp a 1 hi <= hi.
Proof.
  intros H. unfold Clamp.
  destruct (Z.leb_spec a 1); [lia |].
  destruct (Z.leb_spec hi a); lia.
Qed.

Lemma Clamp_max_min (a lo hi : Z) : lo <= hi -> Clamp a lo hi = Z.max lo (Z.min a hi).
Proof.
  intros H. unfold Clamp.
  destruct (Z.leb_spec a lo); [lia |].
  destruct (Z.leb_spec hi a); lia.
Qed.

(** C6: [PushFlow] on an edge with unsatisfied demand asks the path for
    [want = clamp(demand / accuracy, 1, unsatisfied_demand)], pushes what
    [Path::AddFlow] returns for it, which is at most [want], takes exactly
    that amount off the unsatisfied demand of the edge, and returns it. *)
Theorem C6_PushFlow_amount (st : State) (from to : NodeID) (path : PathPtr)
    (accuracy max_saturation pushed : Z) (st1 : State) :
  let edge := get_edge (job st) from to in
  let want := Clamp (Demand edge / accuracy) 1 (UnsatisfiedDemand edge) in
  0 < UnsatisfiedDemand edge -> UnsatisfiedDemand edge <= UINT_MAX ->
  0 < accuracy ->
  AddFlow st path want max_saturation = Some (pushed, st1) ->
  exists st',
    PushFlow st from to path accuracy max_saturation = Some (pushed, st') /\
    want = Z.max 1 (Z.min (Demand edge / accuracy) (UnsatisfiedDemand edge)) /\
    0 <= pushed <= want /\
    UnsatisfiedDemand (get_edge (job st') from to) =
      UnsatisfiedDemand edge - pushed /\
    Demand (get_edge (job st') from to) = Demand edge /\
    (forall a b, (a, b) <> (from, to) ->
       get_edge (job st') a b = get_edge (job st1) a b) /\
    heap st' = heap st1.
Proof.
  intros edge want Hpos Hmax Hacc Hadd.
  pose proof (Clamp_range (Demand edge / accuracy) (UnsatisfiedDemand edge)
                ltac:(lia)) as Hw.
  fold want in Hw.
  destruct (AddFlow_spec _ _ _ _ _ _ Hadd) as (Hsame & Hle & Hnn & _ & _).
  specialize (Hnn ltac:(lia)).
  destruct (Hsame from to) as (Hd & Hu & _ & _).
  eexists. split.
  - unfold PushFlow. fold edge.
    destruct (Z.ltb_spec 0 (UnsatisfiedDemand edge)); [| lia]. simpl.
    destruct (Z.eqb_spec accuracy 0); [lia |].
    fold want. rewrite Hadd. simpl. reflexivity.
  - split; [apply Clamp_max_min; lia |].
    split; [lia |].
    simpl. rewrite get_edge_update.
    destruct (decide ((from, to) = (from, to))); [| congruence]. simpl.
    rewrite Hu, Hd. fold edge.
    split; [apply u32_exact; unfold is_uint; lia |].
    split; [reflexivity |].
    split; [| reflexivity].
    intros a b Hne. rewrite get_edge_update.
    destruct (decide ((from, to) = (a, b))); congruence.
Qed.

(** ** Re-parenting *)

Lemma same_but_links_refl (p : Path) : same_but_links p p.
Proof. repeat split. Qed.

Lemma same_but_links_trans (p q r : Path) :
  same_but_links p q -> same_but_links q r -> same_but_links p r.
Proof. unfold same_but_links. intuition congruence. Qed.

Lemma same_but_links_children (c : Z) (p : Path) :
  same_but_links p (set_num_children c p).
Proof. repeat split. Qed.

(** What [Fork] does to the heap: the forked path keeps its node and gets
    [base] as parent, every other object keeps all but its count of
    children, and only an object that has a parent can be freed. *)
Lemma Fork_frame (h : gmap positive Path) (this base : positive)
    (cap free_cap dist : Z) (h' : gmap positive Path) :
  Fork h this base cap free_cap dist = Some h' ->
  (forall b p', h' !! b = Some p' ->
     exists p, h !! b = Some p /\ node p' = node p /\
       (b = this /\ this <> base /\ parent p' = Ptr base \/
        same_but_links p p' /\ parent p' = parent p)) /\
  (forall b p, h !! b = Some p -> h' !! b = None ->
     b <> this /\ b <> base /\ parent p <> NULL) /\
  (forall b p, h !! this = Some p -> b <> this -> b <> base ->
     parent p <> Ptr b -> h' !! b = h !! b).
Proof.
  unfold Fork. destruct (decide (this = base)) as [->|Hne].
  { intros [= <-]. split; [| split].
    - intros b p' Hb. exists p'. split; [assumption |]. split; [reflexivity |].
      right. split; [apply same_but_links_refl | reflexivity].
    - intros b p Hb Hn. rewrite Hb in Hn. discriminate.
    - reflexivity. }
  destruct (h !! this) as [p|] eqn:Hp; [| discriminate]. simpl.
  set (h1o := if decide (parent p = Ptr base) then Some h else _).
  intros Hrun.
  assert (exists h1, h1o = Some h1 /\
            (forall b p1, h1 !! b = Some p1 ->
               exists p0, h !! b = Some p0 /\ same_but_links p0 p1 /\
                          parent p1 = parent p0) /\
            (forall b p0, h !! b = Some p0 -> h1 !! b = None ->
               parent p0 <> NULL /\ parent p = Ptr b /\ parent p <> Ptr base) /\
            (forall b, parent p <> Ptr b -> h1 !! b = h !! b))
    as (h1 & Hh1 & H1a & H1b & H1c).
  { unfold h1o in *. clear h1o.
    destruct (decide (parent p = Ptr base)) as [Hpar|Hpar].
    { exists h. split; [reflexivity |]. split; [| split].
      - intros b p1 Hb. exists p1. split; [assumption |].
        split; [apply same_but_links_refl | reflexivity].
      - intros b p0 Hb Hn. rewrite Hb in Hn. discriminate.
      - reflexivity. }
    destruct (parent p) as [| |q] eqn:Hq; [| discriminate |].
    { exists h. split; [reflexivity |]. split; [| split].
      - intros b p1 Hb. exists p1. split; [assumption |].
        split; [apply same_but_links_refl | reflexivity].
      - intros b p0 Hb Hn. rewrite Hb in Hn. discriminate.
      - reflexivity. }
    destruct (h !! q) as [pq|] eqn:Hpq; [| discriminate]. simpl.
    match goal with
    | |- context [if ?c then Some (delete q h) else _] => destruct c eqn:Hcond
    end.
    - exists (delete q h). split; [reflexivity |]. split; [| split].
      + intros b p1. rewrite lookup_delete.
        destruct (decide (q = b)); [discriminate |].
        intros Hb. exists p1. split; [assumption |].
        split; [apply same_but_links_refl | reflexivity].
      + intros b p0 Hb. rewrite lookup_delete.
        destruct (decide (q = b)) as [<-|]; [| rewrite Hb; discriminate].
        intros _. rewrite Hpq in Hb. injection Hb as <-.
        apply andb_true_iff in Hcond as [_ Hnn].
        apply negb_true_iff in Hnn. unfold ptr_eqb in Hnn.
        apply bool_decide_eq_false in Hnn.
        split; [exact Hnn |]. split; [reflexivity | assumption].
      + intros b Hb. apply lookup_delete_ne. congruence.
    - eexists. split; [reflexivity |]. split; [| split].
      + intros b p1. rewrite lookup_insert.
        destruct (decide (q = b)) as [<-|].
        * intros [= <-]. exists pq. split; [assumption |].
          split; [apply same_but_links_children | reflexivity].
        * intros Hb. exists p1. split; [assumption |].
          split; [apply same_but_links_refl | reflexivity].
      + intros b p0 Hb. rewrite lookup_insert.
        destruct (decide (q = b)); [discriminate |].
        rewrite Hb. discriminate.
      + intros b Hb. apply lookup_insert_ne. congruence. }
  rewrite Hh1 in Hrun. simpl in Hrun.
  destruct (h1 !! base) as [pb|] eqn:Hpb; [| discriminate]. simpl in Hrun.
  injection Hrun as <-. split; [| split].
  - intros b p'. rewrite lookup_insert.
    destruct (decide (this = b)) as [<-|Hb1].
    { intros [= <-]. exists p. split; [assumption |]. split; [reflexivity |].
      left. auto. }
    rewrite lookup_insert.
    destruct (decide (base = b)) as [<-|Hb2].
    { intros [= <-].
      destruct (H1a base pb Hpb) as (p0 & Hp0 & Hs & Hpar).
      exists p0. split; [assumption |].
      destruct (decide (parent p = Ptr base)).
      - split; [apply Hs |]. right. split; assumption.
      - split; [apply Hs |]. right. split; [| assumption].
        eapply same_but_links_trans; [exact Hs | apply same_but_links_children]. }
    intros Hb. destruct (H1a b p' Hb) as (p0 & Hp0 & Hs & Hpar).
    exists p0. split; [assumption |]. split; [apply Hs |]. right. auto.
  - intros b p0 Hb. rewrite lookup_insert.
    destruct (decide (this = b)); [discriminate |].
    rewrite lookup_insert.
    destruct (decide (base = b)); [discriminate |].
    intros Hn. destruct (H1b b p0 Hb Hn) as (Hnn & _).
    split; [congruence |]. split; [congruence | assumption].
  - intros b p0 [= <-] Hb1 Hb2 Hb3.
    rewrite lookup_insert_ne by congruence.
    rewrite lookup_insert_ne by congruence. apply H1c. assumption.
Qed.

(** [Fork] goes through when the path, its new parent and its old one are
    live objects, and gives the path the values of the parent extended by
    the edge. *)
Lemma Fork_succeeds (h : gmap positive Path) (this base : positive)
    (cap free_cap dist : Z) (p pb : Path) :
  this <> base -> h !! this = Some p -> h !! base = Some pb ->
  match parent p with
  | NULL => True
  | invalid_path => False
  | Ptr q => is_Some (h !! q)
  end ->
  exists h' p',
    Fork h this base cap free_cap dist = Some h' /\
    h' !! this = Some p' /\
    node p' = node p /\ origin p' = origin pb /\ parent p' = Ptr base /\
    num_children p' = num_children p /\ flow p' = flow p /\
    distance p' = u32 (distance pb + dist) /\
    capacity p' = Z.min (capacity pb) cap /\
    free_capacity p' = Z.min (free_capacity pb) free_cap.
Proof.
  intros Hne Hp Hb Hpar. unfold Fork.
  destruct (decide (this = base)); [contradiction |].
  rewrite Hp. simpl.
  destruct (decide (parent p = Ptr base)) as [Hsame|Hother].
  - simpl. rewrite Hb. simpl. eexists _, _. split; [reflexivity |].
    rewrite lookup_insert. rewrite decide_True by reflexivity.
    repeat split.
  - destruct (parent p) as [| |q] eqn:Hq; [| contradiction |].
    + simpl. rewrite Hb. simpl. eexists _, _. split; [reflexivity |].
      rewrite lookup_insert. rewrite decide_True by reflexivity.
      repeat split.
    + destruct Hpar as [pq Hpq]. rewrite Hpq. simpl.
      assert (Hqb : q <> base) by congruence.
      match goal with
      | |- context [if ?c then Some (delete q h) else _] => destruct c
      end; simpl.
      * rewrite lookup_delete. rewrite decide_False by assumption.
        rewrite Hb. simpl. eexists _, _. split; [reflexivity |].
        rewrite lookup_insert. rewrite decide_True by reflexivity.
        repeat split.
      * rewrite lookup_insert. rewrite decide_False by assumption.
        rewrite Hb. simpl. eexists _, _. split; [reflexivity |].
        rewrite lookup_insert. rewrite decide_True by reflexivity.
        repeat split.
Qed.

(** An object other than the forked path stays, with its node and its
    values, unless it is the old parent of the path. *)
Lemma Fork_keeps (h : gmap positive Path) (this base : positive)
    (cap free_cap dist : Z) (h' : gmap positive Path) (p pb0 : Path)
    (b : positive) :
  Fork h this base cap free_cap dist = Some h' ->
  h !! this = Some p -> h !! b = Some pb0 -> b <> this ->
  (parent p = Ptr b -> b = base) ->
  exists p', h' !! b = Some p' /\ same_but_links pb0 p'.
Proof.
  intros Hfork Hp Hb Hne Hpar.
  destruct (Fork_frame _ _ _ _ _ _ _ Hfork) as (F1 & F2 & F3).
  destruct (decide (b = base)) as [->|Hbase].
  - destruct (h' !! base) as [p'|] eqn:Hb'.
    + exists p'. split; [reflexivity |].
      destruct (F1 _ _ Hb') as (p0 & Hp0 & _ & [(? & _)|(Hs & _)]);
        [congruence |].
      rewrite Hb in Hp0. injection Hp0 as <-. assumption.
    + destruct (F2 _ _ Hb Hb') as (_ & Hcontra & _). congruence.
  - exists pb0. split; [| apply same_but_links_refl].
    rewrite (F3 b p Hp Hne Hbase); [assumption |].
    intros Hq. apply Hbase. apply Hpar. assumption.
Qed.

(** ** The relaxation step of Dijkstra *)

Section Relaxation.

Context {A : Annotation}.

(** Two annotations are equivalent for the set when neither sorts before
    the other. *)
Lemma set_erase_spec (h : gmap positive Path) (x : PathPtr) (l l' : list PathPtr) :
  set_erase h x l = Some l' ->
  l' = l \/
  exists l1 y l2, l = l1 ++ y :: l2 /\ l' = l1 ++ l2 /\
    compare_in h x y = Some false /\ compare_in h y x = Some false.
Proof.
  revert l'. induction l as [|y l IH]; intros l'; simpl.
  - intros [= <-]. left. reflexivity.
  - destruct (compare_in h x y) as [[|]|] eqn:Hxy; simpl; try discriminate.
    + intros [= <-]. left. reflexivity.
    + destruct (compare_in h y x) as [[|]|] eqn:Hyx; simpl; try discriminate.
      * destruct (set_erase h x l) as [l''|]; simpl; [| discriminate].
        intros [= <-].
        destruct (IH l'' eq_refl) as [->|(l1 & z & l2 & -> & -> & Hz)].
        -- left. reflexivity.
        -- right. exists (y :: l1), z, l2. repeat split; apply Hz.
      * intros [= <-]. right. exists [], y, l. repeat split; assumption.
Qed.

Lemma set_insert_spec (h : gmap positive Path) (x : PathPtr) (l l' : list PathPtr) :
  set_insert h x l = Some l' ->
  (exists l1 l2, l = l1 ++ l2 /\ l' = l1 ++ x :: l2) \/
  (l' = l /\ exists y, y ∈ l /\
     compare_in h x y = Some false /\ compare_in h y x = Some false).
Proof.
  revert l'. induction l as [|y l IH]; intros l'; simpl.
  - intros [= <-]. left. exists [], []. split; reflexivity.
  - destruct (compare_in h x y) as [[|]|] eqn:Hxy; simpl; try discriminate.
    + intros [= <-]. left. exists [], (y :: l). split; reflexivity.
    + destruct (compare_in h y x) as [[|]|] eqn:Hyx; simpl; try discriminate.
      * destruct (set_insert h x l) as [l''|]; simpl; [| discriminate].
        intros [= <-].
        destruct (IH l'' eq_refl) as [(l1 & l2 & -> & ->)|(-> & z & Hz & Hc)].
        -- left. exists (y :: l1), l2. split; reflexivity.
        -- right. split; [reflexivity |]. exists z.
           split; [apply elem_of_cons; right; assumption | assumption].
      * intros [= <-]. right. split; [reflexivity |]. exists y.
        split; [apply elem_of_cons; left; reflexivity | split; assumption].
Qed.

Lemma compare_in_live (h : gmap positive Path) (a b : positive) (pa pb : Path) :
  h !! a = Some pa -> h !! b = Some pb ->
  compare_in h (Ptr a) (Ptr b)
    = Some (anno_Comparator (Ptr a) (Ptr b) pa pb).
Proof.
  intros Ha Hb. unfold compare_in. simpl. rewrite Ha. simpl. rewrite Hb.
  reflexivity.
Qed.

Lemma filter_keeps_all (x : PathPtr) (l : list PathPtr) :
  x ∉ l -> filter (fun y => y <> x) l = l.
Proof.
  induction l as [|y l IH]; intros Hx; [reflexivity |].
  apply not_elem_of_cons in Hx as [Hne Hx].
  rewrite filter_cons_True by congruence. rewrite IH by assumption.
  reflexivity.
Qed.

(** Erasing an annotation from the sorted set removes it and nothing
    else. *)
Lemma set_erase_removes (h : gmap positive Path) (d : positive) (pd : Path)
    (l : list PathPtr) :
  strict_comparator A -> h !! d = Some pd ->
  frontier_live h l (Ptr d) pd -> frontier_sorted h l ->
  set_erase h (Ptr d) l = Some (filter (fun y => y <> Ptr d) l).
Proof.
  intros [Hirr Hstrict] Hd. induction l as [|y l IH]; intros Hlive Hsort.
  - reflexivity.
  - destruct Hsort as [Hy Hsort].
    destruct (Hlive y) as (a & py & -> & Ha & Hnode);
      [apply elem_of_cons; left; reflexivity |].
    assert (Hlive' : frontier_live h l (Ptr d) pd).
    { intros z Hz. apply Hlive. apply elem_of_cons. right. assumption. }
    cbn [set_erase].
    destruct (decide (a = d)) as [->|Hne].
    + assert (py = pd) as -> by congruence.
      rewrite (compare_in_live h d d pd pd Hd Hd), Hirr. simpl.
      rewrite filter_cons_False by (intros H; apply H; reflexivity).
      rewrite filter_keeps_all; [reflexivity |].
      intros Hin. rewrite Forall_forall in Hy. specialize (Hy _ Hin).
      rewrite (compare_in_live h d d pd pd Hd Hd), Hirr in Hy. discriminate.
    + assert (Hpne : Ptr a <> Ptr d) by congruence.
      specialize (Hnode Hpne).
      rewrite (compare_in_live h d a pd py Hd Ha).
      rewrite (Hstrict (Ptr d) (Ptr a) pd py) by congruence.
      destruct (anno_Comparator (Ptr a) (Ptr d) py pd) eqn:Hc; simpl.
      * rewrite (compare_in_live h a d py pd Ha Hd), Hc. simpl.
        rewrite (IH Hlive' Hsort). simpl.
        rewrite filter_cons_True by assumption. reflexivity.
      * rewrite filter_cons_True by assumption.
        rewrite filter_keeps_all; [reflexivity |].
        intros Hin. rewrite Forall_forall in Hy. specialize (Hy _ Hin).
        rewrite (compare_in_live h a d py pd Ha Hd), Hc in Hy. discriminate.
Qed.

(** Inserting an annotation that none of the set is equivalent to puts it
    behind the elements that sort before it. *)
Lemma set_insert_places (h : gmap positive Path) (d : positive) (pd : Path)
    (l : list PathPtr) :
  strict_comparator A -> h !! d = Some pd ->
  (forall y, y ∈ l ->
     exists a py, y = Ptr a /\ h !! a = Some py /\ a <> d /\
                  node py <> node pd) ->
  exists l1 l2,
    l = l1 ++ l2 /\ set_insert h (Ptr d) l = Some (l1 ++ Ptr d :: l2) /\
    Forall (fun y => compare_in h y (Ptr d) = Some true) l1 /\
    (forall y, head l2 = Some y -> compare_in h (Ptr d) y = Some true).
Proof.
  intros [Hirr Hstrict] Hd. induction l as [|y l IH]; intros Hlive.
  - exists [], []. repeat split; [constructor | discriminate].
  - destruct (Hlive y) as (a & py & -> & Ha & Hne & Hnode);
      [apply elem_of_cons; left; reflexivity |].
    cbn [set_insert].
    rewrite (compare_in_live h d a pd py Hd Ha).
    rewrite (Hstrict (Ptr d) (Ptr a) pd py) by congruence.
    destruct (anno_Comparator (Ptr a) (Ptr d) py pd) eqn:Hc; simpl.
    + rewrite (compare_in_live h a d py pd Ha Hd), Hc. simpl.
      destruct IH as (l1 & l2 & -> & Hins & Hl1 & Hl2).
      { intros z Hz. apply Hlive. apply elem_of_cons. right. assumption. }
      exists (Ptr a :: l1), l2. rewrite Hins. simpl.
      split; [reflexivity |]. split; [reflexivity |].
      split; [| assumption].
      constructor; [| assumption].
      rewrite (compare_in_live h a d py pd Ha Hd), Hc. reflexivity.
    + exists [], (Ptr a :: l). simpl.
      split; [reflexivity |]. split; [reflexivity |].
      split; [constructor |].
      intros y [= <-].
      rewrite (compare_in_live h d a pd py Hd Ha).
      rewrite (Hstrict (Ptr d) (Ptr a) pd py) by congruence.
      rewrite Hc. reflexivity.
Qed.

(** C4: the relaxation step of Dijkstra for a node ID [to] the iterator
    yields.  A target equal to the current node is skipped.  Otherwise the
    capacity of the edge [(from, to)] is taken as it is for an infinite
    [max_saturation] and scaled to [max(1, capacity * max_saturation / 100)]
    (in unsigned arithmetic) for a finite one; the free capacity passed on
    is that capacity minus the flow of the edge (as an [int]) and the
    distance is [edge.distance + 1].  When [IsBetter] rejects these values
    the state and the set stay as they are.  When it accepts them, on a
    set of live annotations in comparator order, one per node, and with
    the old parent of [paths[to]], which [Fork] may free, a live object
    outside the set, the step goes through: the annotation [paths[to]] is
    erased from the set, which keeps all its other elements; it is forked
    from [source], so that it has [source] as parent and the values of
    [source] extended by the edge; and it is inserted again, behind the
    elements that sort before it in the new heap. *)
Theorem C4_Dijkstra_relax_step (max_saturation : Z) (paths : list PathPtr)
    (source : PathPtr) (from to : NodeID) (st : State) (annos : list PathPtr) :
  let edge := get_edge (job st) from to in
  let cap := if decide (max_saturation = UINT_MAX) then Capacity edge
             else Z.max 1 (u32 (Capacity edge * max_saturation) / 100) in
  let free := s32 (u32 (cap - Flow edge)) in
  let dist := Distance edge + 1 in
  (to = from ->
   Dijkstra_relax max_saturation paths source from (st, annos) to
     = Some (st, annos)) /\
  (max_saturation <> UINT_MAX -> is_uint (Capacity edge * max_saturation) ->
   cap = Z.max 1 (Capacity edge * max_saturation / 100)) /\
  (is_int (cap - Flow edge) -> free = cap - Flow edge) /\
  (to <> from -> 0 <= Distance edge < UINT_MAX ->
   forall dest pd ps,
     at_node paths to = Some dest ->
     deref (heap st) dest = Some pd ->
     deref (heap st) source = Some ps ->
     (anno_IsBetter pd ps cap free dist = false ->
      Dijkstra_relax max_saturation paths source from (st, annos) to
        = Some (st, annos)) /\
     (anno_IsBetter pd ps cap free dist = true ->
      forall d s, dest = Ptr d -> source = Ptr s -> d <> s ->
      strict_comparator A ->
      frontier_live (heap st) annos dest pd ->
      frontier_sorted (heap st) annos ->
      old_parent_apart (heap st) annos pd source ->
      exists h' annos2 pd',
        Dijkstra_relax max_saturation paths source from (st, annos) to
          = Some (set_heap h' st, annos2) /\
        set_erase (heap st) dest annos
          = Some (filter (fun y => y <> dest) annos) /\
        Fork_ptr (heap st) dest source cap free dist = Some h' /\
        h' !! d = Some pd' /\
        node pd' = node pd /\ parent pd' = source /\
        origin pd' = origin ps /\
        distance pd' = u32 (distance ps + dist) /\
        capacity pd' = Z.min (capacity ps) cap /\
        free_capacity pd' = Z.min (free_capacity ps) free /\
        flow pd' = flow pd /\ num_children pd' = num_children pd /\
        exists l1 l2,
          filter (fun y => y <> dest) annos = l1 ++ l2 /\
          annos2 = l1 ++ dest :: l2 /\
          Forall (fun y => compare_in h' y dest = Some true) l1 /\
          (forall y, head l2 = Some y ->
                     compare_in h' dest y = Some true))).
Proof.
  intros edge cap free dist.
  split; [| split; [| split]].
  - intros ->. unfold Dijkstra_relax.
    destruct (decide (from = from)); [reflexivity | congruence].
  - intros Hms Hu. unfold cap.
    destruct (decide (max_saturation = UINT_MAX)); [contradiction |].
    rewrite u32_exact by assumption. reflexivity.
  - intros Hi. unfold free. rewrite s32_u32. apply s32_exact. assumption.
  - intros Hne [Hd0 Hd] dest pd ps Hdest Hpd Hps.
    assert (Hcap : effective_capacity (Capacity edge) max_saturation = cap).
    { unfold cap. destruct (decide (max_saturation = UINT_MAX)) as [->|Hms].
      - reflexivity.
      - apply effective_capacity_unfold. assumption. }
    assert (Hdist : u32 (Distance edge + 1) = dist).
    { apply u32_exact. unfold is_uint. unfold dist. lia. }
    assert (Hstep :
      Dijkstra_relax max_saturation paths source from (st, annos) to =
      if anno_IsBetter pd ps cap free dist then
        annos1 ← set_erase (heap st) dest annos;
        h' ← Fork_ptr (heap st) dest source cap free dist;
        annos2 ← set_insert h' dest annos1;
        Some (set_heap h' st, annos2)
      else Some (st, annos)).
    { unfold Dijkstra_relax.
      destruct (decide (to = from)); [contradiction |].
      fold edge.
      destruct (Z.ltb_spec (Distance edge) UINT_MAX); [| lia]. simpl.
      rewrite Hcap, Hdist. fold free.
      rewrite Hdest. simpl. rewrite Hpd. simpl. rewrite Hps. simpl.
      reflexivity. }
    split.
    + intros Hb. rewrite Hstep, Hb. reflexivity.
    + intros Hb d s -> -> Hds Hstrict Hlive Hsort Hold.
      simpl in Hpd, Hps.
      pose proof (set_erase_removes _ _ _ _ Hstrict Hpd Hlive Hsort) as Herase.
      destruct (Fork_succeeds (heap st) d s cap free dist pd ps Hds Hpd Hps)
        as (h' & pd' & Hfork & Hpd' & Hn & Ho & Hp & Hc & Hf & Hdi & Hca & Hfr).
      { unfold old_parent_apart in Hold.
        destruct (parent pd); [exact I | contradiction | apply Hold]. }
      destruct (set_insert_places h' d pd'
                  (filter (fun y => y <> Ptr d) annos) Hstrict Hpd')
        as (l1 & l2 & Hsplit & Hins & Hl1 & Hl2).
      { intros y Hy. apply list_elem_of_filter in Hy as [Hyd Hy].
        destruct (Hlive y Hy) as (a & py & -> & Ha & Hnode).
        assert (Had : a <> d) by congruence.
        destruct (Fork_keeps _ _ _ _ _ _ _ pd py a Hfork Hpd Ha Had)
          as (py' & Hpy' & Hsame).
        { intros Hq. unfold old_parent_apart in Hold. rewrite Hq in Hold.
          destruct Hold as [_ [[= ->]|Hout]]; [reflexivity | contradiction]. }
        exists a, py'. split; [reflexivity |]. split; [assumption |].
        split; [assumption |].
        destruct Hsame as (Hnn & _). rewrite Hnn, Hn. apply Hnode. assumption. }
      exists h', (l1 ++ Ptr d :: l2), pd'.
      split.
      { rewrite Hstep, Hb, Herase. simpl. rewrite Hfork. simpl.
        rewrite Hins. reflexivity. }
      split; [exact Herase |]. split; [exact Hfork |].
      split; [exact Hpd' |].
      repeat (split; [assumption |]).
      exists l1, l2. repeat split; assumption.
Qed.

End Relaxation.

(** ** Cycles *)

Lemma node_at_insert_same (h : gmap positive Path) (a : positive) (p p' : Path) :
  h !! a = Some p -> node p' = node p ->
  forall x, node_at (<[a := p']> h) x = node_at h x.
Proof.
  intros Ha Hn x. unfold node_at. rewrite lookup_insert.
  destruct (decide (a = x)) as [<-|]; [| reflexivity].
  rewrite Ha. simpl. congruence.
Qed.

Lemma cycle_links_same_nodes (h h' : gmap positive Path) (path : list PathPtr)
    (first : positive) (c : list positive) :
  (forall x, node_at h' x = node_at h x) ->
  cycle_links h path first c -> cycle_links h' path first c.
Proof.
  intros Hn. induction c as [|a c IH]; simpl; [trivial |].
  intros [(n & Ha & Hp) Hc]. split; [| apply IH; assumption].
  exists n. rewrite Hn. split; assumption.
Qed.

Lemma cycle_edges_same_nodes (h h' : gmap positive Path) (first : positive)
    (c : list positive) :
  (forall x, node_at h' x = node_at h x) ->
  cycle_edges h' first c = cycle_edges h first c.
Proof.
  intros Hn. induction c as [|a c IH]; simpl; [reflexivity |].
  rewrite !Hn, IH. reflexivity.
Qed.

(** The flows of the paths [c], in order. *)
Lemma FindCycleFlow_loop_spec (h : gmap positive Path) (path : list PathPtr)
    (first : positive) (rest : list positive) :
  forall (a : positive) (fl : Z) (fuel : nat),
    cycle_links h path first (a :: rest) -> first ∉ rest ->
    (length (a :: rest) <= fuel)%nat ->
    exists f,
      FindCycleFlow_loop fuel h path (Ptr first) fl (Ptr a) = Some f /\
      f <= fl /\
      (forall x px, x ∈ a :: rest -> h !! x = Some px -> f <= flow px) /\
      (f = fl \/ exists x px, x ∈ a :: rest /\ h !! x = Some px /\ flow px = f).
Proof.
  induction rest as [|b rest IH]; intros a fl fuel Hl Hf Hlen.
  - destruct fuel as [|fuel]; [simpl in Hlen; lia |].
    destruct Hl as [(n & Hn & Hp) _]. simpl in Hp.
    unfold node_at in Hn. destruct (h !! a) as [pa|] eqn:Ha; [| discriminate].
    injection Hn as <-.
    exists (Z.min fl (flow pa)). simpl. rewrite Ha. simpl. rewrite Hp. simpl.
    destruct (decide (Ptr first = Ptr first)); [| congruence].
    split; [reflexivity |]. split; [lia |]. split.
    + intros x px Hx Hpx. apply list_elem_of_singleton in Hx as ->.
      rewrite Ha in Hpx. injection Hpx as <-. lia.
    + destruct (Z.min_spec fl (flow pa)) as [[_ ->]|[_ ->]];
        [left; reflexivity |].
      right. exists a, pa. split; [apply elem_of_cons; left; reflexivity |].
      split; [assumption | reflexivity].
  - destruct fuel as [|fuel]; [simpl in Hlen; lia |].
    destruct Hl as [(n & Hn & Hp) Hl']. simpl in Hp.
    unfold node_at in Hn. destruct (h !! a) as [pa|] eqn:Ha; [| discriminate].
    injection Hn as <-.
    assert (Hfb : first <> b).
    { intros ->. apply Hf. apply elem_of_cons. left. reflexivity. }
    assert (Hfr : first ∉ rest).
    { intros Hin. apply Hf. apply elem_of_cons. right. assumption. }
    destruct (IH b (Z.min fl (flow pa)) fuel Hl' Hfr ltac:(simpl in *; lia))
      as (f & Hrun & Hle & Hall & Hex).
    exists f. simpl. rewrite Ha. simpl. rewrite Hp. simpl.
    destruct (decide (Ptr b = Ptr first)) as [[= ->]|_]; [congruence |].
    split; [exact Hrun |]. split; [lia |]. split.
    + intros x px Hx Hpx. apply elem_of_cons in Hx as [->|Hx].
      * rewrite Ha in Hpx. injection Hpx as <-. lia.
      * eapply Hall; eassumption.
    + destruct Hex as [->|(x & px & Hx & Hpx & Hfl)].
      * destruct (Z.min_spec fl (flow pa)) as [[_ ->]|[_ ->]];
          [left; reflexivity |].
        right. exists a, pa. split; [apply elem_of_cons; left; reflexivity |].
        split; [assumption | reflexivity].
      * right. exists x, px. split; [apply elem_of_cons; right; assumption |].
        split; assumption.
Qed.

Lemma node_at_alter_ReduceFlow (f : Z) (a : positive) (h : gmap positive Path) :
  forall x, node_at (alter (ReduceFlow f) a h) x = node_at h x.
Proof.
  intros x. unfold node_at. rewrite lookup_alter.
  destruct (decide (a = x)) as [<-|]; [| reflexivity].
  destruct (h !! a); reflexivity.
Qed.

Lemma cycle_edges_cons (h : gmap positive Path) (first a : positive)
    (c : list positive) (n n' : NodeID) :
  node_at h a = Some n -> node_at h (hd first c) = Some n' ->
  cycle_edges h first (a :: c) = (n, n') :: cycle_edges h first c.
Proof. intros Ha Hc. simpl. rewrite Ha, Hc. reflexivity. Qed.

Lemma EliminateCycle_loop_spec (path : list PathPtr) (first : positive) (fl : Z)
    (rest : list positive) :
  forall (a : positive) (st : State) (fuel : nat),
    cycle_links (heap st) path first (a :: rest) -> first ∉ rest ->
    is_Some (node_at (heap st) first) ->
    (length (a :: rest) <= fuel)%nat ->
    EliminateCycle_loop fuel path (Ptr first) fl st (Ptr a) =
    Some {| job := remove_flows fl (cycle_edges (heap st) first (a :: rest)) (job st);
            heap := reduce_paths fl (a :: rest) (heap st);
            next_free := next_free st |}.
Proof.
  induction rest as [|b rest IH]; intros a st fuel Hl Hf Hfirst Hlen.
  - destruct fuel as [|fuel]; [simpl in Hlen; lia |].
    destruct Hl as [(n & Hn & Hp) _]. simpl in Hp.
    pose proof Hn as Hn'.
    unfold node_at in Hn. destruct (heap st !! a) as [pa|] eqn:Ha; [| discriminate].
    injection Hn as <-.
    destruct Hfirst as [nf Hnf].
    assert (Hnf1 : node_at (<[a := ReduceFlow fl pa]> (heap st)) first = Some nf).
    { rewrite (node_at_insert_same _ _ pa); [assumption | assumption | reflexivity]. }
    unfold node_at in Hnf1.
    destruct (<[a := ReduceFlow fl pa]> (heap st) !! first) as [pn|] eqn:Hpn;
      [| discriminate].
    injection Hnf1 as Hnf1.
    simpl. rewrite Ha. simpl. rewrite Hp. simpl. rewrite Hpn. simpl.
    destruct (decide (Ptr first = Ptr first)); [| congruence].
    rewrite Hn', Hnf. simpl. rewrite Hnf1.
    unfold reduce_paths. simpl.
    f_equal. f_equal.
    apply map_eq. intros x. rewrite lookup_alter, lookup_insert.
    destruct (decide (a = x)) as [<-|]; [rewrite Ha |]; reflexivity.
  - destruct fuel as [|fuel]; [simpl in Hlen; lia |].
    destruct Hl as [(n & Hn & Hp) Hl']. simpl in Hp.
    pose proof Hn as Hn'.
    unfold node_at in Hn. destruct (heap st !! a) as [pa|] eqn:Ha; [| discriminate].
    injection Hn as <-.
    assert (Hfb : first <> b).
    { intros ->. apply Hf. apply elem_of_cons. left. reflexivity. }
    assert (Hfr : first ∉ rest).
    { intros Hin. apply Hf. apply elem_of_cons. right. assumption. }
    set (h1 := <[a := ReduceFlow fl pa]> (heap st)).
    assert (Hsame : forall x, node_at h1 x = node_at (heap st) x).
    { apply (node_at_insert_same _ _ pa); [assumption | reflexivity]. }
    destruct Hl' as [(nb & Hnb & Hpb) Hl''].
    assert (Hnb1 : node_at h1 b = Some nb) by (rewrite Hsame; assumption).
    unfold node_at in Hnb1.
    destruct (h1 !! b) as [pb|] eqn:Hpb1; [| discriminate].
    injection Hnb1 as Hnb1.
    match goal with |- _ = ?R => set (rhs := R) end.
    cbn [EliminateCycle_loop]. rewrite Ha. simpl. rewrite Hp. simpl.
    fold h1. rewrite Hpb1. simpl.
    destruct (decide (Ptr b = Ptr first)) as [[= ->]|_]; [congruence |].
    subst rhs.
    rewrite IH; cbn [job heap next_free].
    + rewrite (cycle_edges_same_nodes (heap st) h1) by exact Hsame.
      rewrite (cycle_edges_cons (heap st) first a (b :: rest) (node pa) nb)
        by assumption.
      rewrite Hnb1.
      unfold reduce_paths, remove_flows. cbn [foldl fst snd].
      f_equal. f_equal. f_equal. f_equal.
      apply map_eq. intros x. unfold h1. rewrite lookup_alter, lookup_insert.
      destruct (decide (a = x)) as [<-|]; [rewrite Ha |]; reflexivity.
    + split.
      * exists nb. rewrite Hsame. split; assumption.
      * apply (cycle_links_same_nodes (heap st)); assumption.
    + assumption.
    + rewrite Hsame. assumption.
    + simpl in *. lia.
Qed.

(** Closes a goal by the membership facts about a list with a known head. *)
Ltac elem_cases :=
  repeat match goal with
         | H : _ ∈ _ :: _ |- _ => apply elem_of_cons in H
         | H : _ ∉ _ :: _ |- _ => apply not_elem_of_cons in H
         end;
  intuition congruence.

Lemma reduce_paths_lookup (f : Z) (c : list positive) :
  forall h x, NoDup c ->
    reduce_paths f c h !! x =
    if decide (x ∈ c) then ReduceFlow f <$> h !! x else h !! x.
Proof.
  unfold reduce_paths.
  induction c as [|a c IH]; intros h x Hnd; simpl.
  - destruct (decide (x ∈ [])) as [Hin|]; [| reflexivity].
    apply elem_of_nil in Hin. contradiction.
  - apply NoDup_cons in Hnd as [Ha Hnd].
    rewrite IH by assumption. rewrite lookup_alter.
    destruct (decide (a = x)) as [->|];
      destruct (decide (x ∈ c)); destruct (decide (x ∈ _ :: c));
      try reflexivity; exfalso; elem_cases.
Qed.

Lemma remove_flows_get_edge (f : Z) (es : list (NodeID * NodeID)) :
  forall j x y, NoDup es ->
    get_edge (remove_flows f es j) x y =
    if decide ((x, y) ∈ es) then RemoveFlow f (get_edge j x y)
    else get_edge j x y.
Proof.
  unfold remove_flows.
  induction es as [|[a b] es IH]; intros j x y Hnd; simpl.
  - destruct (decide ((x, y) ∈ [])) as [Hin|]; [| reflexivity].
    apply elem_of_nil in Hin. contradiction.
  - apply NoDup_cons in Hnd as [Ha Hnd].
    rewrite IH by assumption. rewrite !get_edge_update.
    destruct (decide ((a, b) = (x, y))) as [[= -> ->]|];
      destruct (decide ((x, y) ∈ es)); destruct (decide ((x, y) ∈ _ :: es));
      try reflexivity; exfalso; elem_cases.
Qed.

(** Every traversed edge starts at a node whose slot of the path vector
    holds one of the later paths, or the first one. *)
Lemma cycle_edges_sources (h : gmap positive Path) (path : list PathPtr)
    (first : positive) (c : list positive) :
  cycle_links h path first c ->
  forall n n', (n, n') ∈ cycle_edges h first c ->
    exists y, y ∈ tail c ++ [first] /\ at_node path n = Some (Ptr y).
Proof.
  induction c as [|a c IH]; simpl; intros Hl n n' Hin.
  - apply elem_of_nil in Hin. contradiction.
  - destruct Hl as [(m & Hm & Hp) Hl].
    rewrite Hm in Hin.
    assert (Hlater : (n, n') ∈ cycle_edges h first c ->
                     exists y, y ∈ c ++ [first] /\ at_node path n = Some (Ptr y)).
    { intros Hc. destruct (IH Hl n n' Hc) as (y & Hy & Hpy).
      exists y. split; [| assumption].
      apply elem_of_app in Hy as [Hy|Hy]; apply elem_of_app;
        [left | right; assumption].
      destruct c; [apply elem_of_nil in Hy; contradiction |].
      apply elem_of_cons. right. assumption. }
    destruct (node_at h (hd first c)) as [m'|]; [| auto].
    apply elem_of_cons in Hin as [[= -> ->]|Hin]; [| auto].
    exists (hd first c). split; [| assumption].
    apply elem_of_app. destruct c as [|b c]; simpl.
    + right. apply elem_of_cons. left. reflexivity.
    + left. apply elem_of_cons. left. reflexivity.
Qed.

Lemma cycle_sources_NoDup (h : gmap positive Path) (path : list PathPtr)
    (first : positive) (rest : list positive) :
  forall a, NoDup rest -> first ∉ rest ->
    cycle_links h path first (a :: rest) ->
    NoDup ((cycle_edges h first (a :: rest)).*1).
Proof.
  induction rest as [|b rest IH]; intros a Hnd Hf Hl.
  - simpl. destruct (node_at h a); [| constructor].
    destruct (node_at h first); constructor; [| constructor].
    intros Hin. apply elem_of_nil in Hin. contradiction.
  - apply NoDup_cons in Hnd as [Hb Hnd].
    assert (Hfb : first <> b).
    { intros ->. apply Hf. apply elem_of_cons. left. reflexivity. }
    assert (Hfr : first ∉ rest).
    { intros Hin. apply Hf. apply elem_of_cons. right. assumption. }
    destruct Hl as [(n & Hn & Hp) Hl].
    specialize (IH b Hnd Hfr Hl).
    change (cycle_edges h first (a :: b :: rest)) with
      (match node_at h a, node_at h b with
       | Some n, Some n' => (n, n') :: cycle_edges h first (b :: rest)
       | _, _ => cycle_edges h first (b :: rest)
       end).
    rewrite Hn. destruct (node_at h b) as [nb|]; [| assumption].
    rewrite fmap_cons. apply NoDup_cons. split; [| assumption].
    intros Hin. apply list_elem_of_fmap in Hin as ([m m'] & Hm & Hin).
    simpl in Hm. subst m.
    destruct (cycle_edges_sources h path first (b :: rest) Hl n m' Hin)
      as (y & Hy & Hpy).
    simpl in Hp. rewrite Hp in Hpy. injection Hpy as <-.
    simpl in Hy. apply elem_of_app in Hy as [Hy|Hy]; [contradiction |].
    apply list_elem_of_singleton in Hy. congruence.
Qed.

Lemma cycle_edges_length (h : gmap positive Path) (path : list PathPtr)
    (first : positive) (c : list positive) :
  cycle_links h path first c -> is_Some (node_at h first) ->
  length (cycle_edges h first c) = length c.
Proof.
  intros Hl [nf Hf]. induction c as [|a c IH]; [reflexivity |].
  destruct Hl as [(n & Hn & Hp) Hl]. simpl. rewrite Hn.
  assert (Hhd : is_Some (node_at h (hd first c))).
  { destruct c as [|b c]; simpl; [eauto |].
    destruct Hl as [(m & Hm & _) _]. eauto. }
  destruct Hhd as [m ->]. simpl. rewrite IH by assumption. reflexivity.
Qed.

(** A cycle is no longer than the path vector. *)
Lemma cycle_edges_bound (h : gmap positive Path) (path : list PathPtr)
    (first : positive) (c : list positive) :
  cycle_links h path first c -> NoDup ((cycle_edges h first c).*1) ->
  (length (cycle_edges h first c) <= length path)%nat.
Proof.
  intros Hl Hnd.
  assert (Hsrc : NoDup (Z.to_nat <$> (cycle_edges h first c).*1)).
  { apply NoDup_fmap_2_strong; [| assumption].
    intros n m H1 H2 Heq.
    apply list_elem_of_fmap in H1 as ([n0 n1] & -> & H1).
    apply list_elem_of_fmap in H2 as ([m0 m1] & -> & H2).
    simpl in *.
    destruct (cycle_edges_sources h path first c Hl n0 n1 H1) as (y1 & _ & Hy1).
    destruct (cycle_edges_sources h path first c Hl m0 m1 H2) as (y2 & _ & Hy2).
    unfold at_node in Hy1, Hy2.
    destruct (Z.ltb_spec n0 0); [discriminate |].
    destruct (Z.ltb_spec m0 0); [discriminate |].
    lia. }
  rewrite <- (length_fmap fst), <- (length_fmap Z.to_nat).
  replace (length path) with (length (seq 0 (length path)))
    by apply length_seq.
  apply submseteq_length. apply NoDup_submseteq; [assumption |].
  intros i Hi. apply list_elem_of_fmap in Hi as (n & -> & Hin).
  apply list_elem_of_fmap in Hin as ([n0 n1] & -> & Hin).
  destruct (cycle_edges_sources h path first c Hl n0 n1 Hin) as (y & _ & Hy).
  unfold at_node in Hy. destruct (Z.ltb_spec n0 0); [discriminate |].
  apply lookup_lt_Some in Hy. simpl.
  apply elem_of_seq. lia.
Qed.

Lemma RemoveFlow_exact (f : Z) (e : Edge) :
  0 <= f <= Flow e -> Flow e <= UINT_MAX -> Flow (RemoveFlow f e) = Flow e - f.
Proof. intros H1 H2. simpl. apply u32_exact. unfold is_uint. lia. Qed.

(** C7: for paths that form a cycle of the path vector, [FindCycleFlow]
    returns the least flow among them, and [EliminateCycle] with that flow
    [f] takes exactly [f] off the flow of each path of the cycle
    ([ReduceFlow]) and off the flow of each edge walked over ([RemoveFlow],
    [flow -= f]), every path and every edge once and nothing else; in
    [EliminateCycles] this subtraction is made, and a cycle reported, only
    when [f > 0]. *)
Theorem C7_cycle_flow_eliminated (st : State) (path : list PathPtr)
    (a0 : positive) (rest : list positive) (fuel : nat) :
  let c := a0 :: rest in
  let es := cycle_edges (heap st) a0 c in
  NoDup c ->
  cycle_links (heap st) path a0 c ->
  (forall a pa, a ∈ c -> heap st !! a = Some pa -> is_uint (flow pa)) ->
  (length c <= fuel)%nat ->
  exists f st',
    FindCycleFlow fuel (heap st) path (Ptr a0) = Some f /\
    (forall a pa, a ∈ c -> heap st !! a = Some pa -> f <= flow pa) /\
    (exists a pa, a ∈ c /\ heap st !! a = Some pa /\ flow pa = f) /\
    EliminateCycle fuel path (Ptr a0) f st = Some st' /\
    (forall a pa, a ∈ c -> heap st !! a = Some pa ->
       heap st' !! a = Some (set_flow (flow pa - f) pa)) /\
    (forall a, a ∉ c -> heap st' !! a = heap st !! a) /\
    NoDup es /\ length es = length c /\
    (forall x y, (x, y) ∈ es ->
       get_edge (job st') x y = RemoveFlow f (get_edge (job st) x y)) /\
    (forall x y, (x, y) ∉ es -> get_edge (job st') x y = get_edge (job st) x y) /\
    (forall n origin_id next_id,
       at_node path next_id = Some (Ptr a0) ->
       EliminateCycles_rec (S n) origin_id st path next_id =
       Some (if 0 <? f then (true, st', path) else (false, st, path))).
Proof.
  intros c es Hnd Hl Hfl Hlen.
  assert (Hf : a0 ∉ rest) by (apply NoDup_cons in Hnd; tauto).
  assert (Hrest : NoDup rest) by (apply NoDup_cons in Hnd; tauto).
  assert (Hfirst : is_Some (node_at (heap st) a0)).
  { destruct Hl as [(n & Hn & _) _]. eauto. }
  assert (Hsrc : NoDup (es.*1)) by (apply (cycle_sources_NoDup _ path); assumption).
  assert (Hes : NoDup es) by (eapply NoDup_fmap_1; eassumption).
  assert (Hlen_es : length es = length c)
    by (apply (cycle_edges_length _ path); assumption).
  assert (Hbound : (length c <= S (length path))%nat).
  { rewrite <- Hlen_es. etransitivity;
      [apply (cycle_edges_bound _ path); assumption | lia]. }
  (* the flow found does not depend on the fuel *)
  assert (Hfind : exists f,
    (forall k, (length c <= k)%nat ->
       FindCycleFlow k (heap st) path (Ptr a0) = Some f) /\
    0 <= f /\
    (forall a pa, a ∈ c -> heap st !! a = Some pa -> f <= flow pa) /\
    (exists a pa, a ∈ c /\ heap st !! a = Some pa /\ flow pa = f)).
  { destruct (FindCycleFlow_loop_spec (heap st) path a0 rest a0 UINT_MAX
                (length c) Hl Hf (le_n _)) as (f & _ & Hle & Hall & Hex).
    assert (Hatt : exists a pa, a ∈ c /\ heap st !! a = Some pa /\ flow pa = f).
    { destruct Hex as [->|Hex]; [| exact Hex].
      destruct Hfirst as [n Hn]. unfold node_at in Hn.
      destruct (heap st !! a0) as [p0|] eqn:H0; [| discriminate].
      assert (Hin : a0 ∈ c) by (apply elem_of_cons; left; reflexivity).
      exists a0, p0. split; [assumption |]. split; [exact H0 |].
      pose proof (Hall a0 p0 Hin H0). pose proof (Hfl a0 p0 Hin H0) as [_ ?].
      lia. }
    exists f. split; [| split; [| split; assumption]].
    - intros k Hk.
      destruct (FindCycleFlow_loop_spec (heap st) path a0 rest a0 UINT_MAX
                  k Hl Hf Hk) as (f' & Hrun & Hle' & Hall' & Hex').
      unfold FindCycleFlow. rewrite Hrun. f_equal.
      destruct Hatt as (a & pa & Ha & Hpa & Hfa).
      pose proof (Hall' a pa Ha Hpa).
      destruct Hex' as [->|(a' & pa' & Ha' & Hpa' & Hfa')].
      + pose proof (Hfl a pa Ha Hpa) as [_ ?]. lia.
      + pose proof (Hall a' pa' Ha' Hpa'). lia.
    - destruct Hatt as (a & pa & Ha & Hpa & <-).
      apply (Hfl a pa Ha Hpa). }
  destruct Hfind as (f & Hrun & Hf0 & Hall & Hatt).
  set (st' := {| job := remove_flows f es (job st);
                 heap := reduce_paths f c (heap st);
                 next_free := next_free st |}).
  assert (Helim : forall k, (length c <= k)%nat ->
            EliminateCycle k path (Ptr a0) f st = Some st').
  { intros k Hk. unfold EliminateCycle.
    apply EliminateCycle_loop_spec; assumption. }
  exists f, st'.
  split; [apply Hrun; assumption |].
  split; [assumption |]. split; [assumption |].
  split; [apply Helim; assumption |].
  split; [| split; [| split; [assumption | split; [assumption | split; [| split]]]]].
  - intros a pa Ha Hpa. unfold st'. cbn [heap job].
    rewrite reduce_paths_lookup by assumption.
    destruct (decide (a ∈ c)); [| contradiction].
    rewrite Hpa. simpl. unfold ReduceFlow. f_equal. f_equal.
    apply u32_exact. pose proof (Hall a pa Ha Hpa).
    pose proof (Hfl a pa Ha Hpa) as [? ?]. unfold is_uint. lia.
  - intros a Ha. unfold st'. cbn [heap job].
    rewrite reduce_paths_lookup by assumption.
    destruct (decide (a ∈ c)); [contradiction | reflexivity].
  - intros x y Hxy. unfold st'. cbn [heap job].
    rewrite remove_flows_get_edge by assumption.
    destruct (decide ((x, y) ∈ es)); [reflexivity | contradiction].
  - intros x y Hxy. unfold st'. cbn [heap job].
    rewrite remove_flows_get_edge by assumption.
    destruct (decide ((x, y) ∈ es)); [contradiction | reflexivity].
  - intros n origin_id next_id Hnext.
    cbn [EliminateCycles_rec]. rewrite Hnext. simpl.
    rewrite (Hrun (S (length path)) Hbound). simpl.
    destruct (0 <? f); [| reflexivity].
    rewrite (Helim (S (length path)) Hbound). reflexivity.
Qed.

(** ** The first pass *)

Lemma PushFlow_inv (st : State) (from to : NodeID) (path : PathPtr)
    (accuracy ms pushed : Z) (st' : State) :
  PushFlow st from to path accuracy ms = Some (pushed, st') ->
  let edge := get_edge (job st) from to in
  let want := Clamp (Demand edge / accuracy) 1 (UnsatisfiedDemand edge) in
  0 < UnsatisfiedDemand edge /\ accuracy <> 0 /\
  exists st1,
    AddFlow st path want ms = Some (pushed, st1) /\
    st' = set_job (update_edge (SatisfyDemand pushed) from to (job st1)) st1.
Proof.
  intros H edge want. unfold PushFlow in H. fold edge in H.
  destruct (Z.ltb_spec 0 (UnsatisfiedDemand edge)); [| discriminate].
  destruct (Z.eqb_spec accuracy 0); [discriminate |]. simpl in H.
  fold want in H.
  destruct (AddFlow st path want ms) as [[f st1]|]; [| discriminate].
  simpl in H. injection H as <- <-.
  split; [assumption |]. split; [assumption |].
  exists st1. split; reflexivity.
Qed.

Lemma PushFlow_nonneg (st : State) (from to : NodeID) (path : PathPtr)
    (accuracy ms pushed : Z) (st' : State) :
  PushFlow st from to path accuracy ms = Some (pushed, st') ->
  0 <= pushed <= UnsatisfiedDemand (get_edge (job st) from to).
Proof.
  intros H. destruct (PushFlow_inv _ _ _ _ _ _ _ _ H) as (Hu & _ & st1 & Hadd & _).
  destruct (AddFlow_spec _ _ _ _ _ _ Hadd) as (_ & Hle & Hnn & _).
  pose proof (Clamp_range
    (Demand (get_edge (job st) from to) / accuracy)
    (UnsatisfiedDemand (get_edge (job st) from to)) ltac:(lia)).
  lia.
Qed.

Lemma MCF1stPass_overload_inv (accuracy : Z) (source dest : NodeID)
    (path : PathPtr) (st : State) (ml : bool) (log : list PushCall)
    (st' : State) (ml' : bool) (log' : list PushCall) :
  MCF1stPass_overload accuracy source dest path st ml log = Some (st', ml', log') ->
  log' = log \/
  exists c, log' = log ++ [c] /\ call_kind c = OverloadingPush /\
    call_unsatisfied c = call_demand c /\ INT_MIN < call_free_capacity c /\
    0 < call_unsatisfied c.
Proof.
  unfold MCF1stPass_overload.
  destruct (deref (heap st) path) as [pp|]; [| discriminate]. simpl.
  destruct (Z.eqb_spec (UnsatisfiedDemand (get_edge (job st) source dest))
                       (Demand (get_edge (job st) source dest))) as [He|He];
    destruct (Z.ltb_spec INT_MIN (free_capacity pp)); simpl;
    try (intros [= <- <- <-]; left; reflexivity).
  destruct (PushFlow st source dest path accuracy UINT_MAX) as [[pushed st2]|] eqn:Hp;
    [| discriminate].
  simpl. intros [= <- <- <-]. right.
  eexists. split; [reflexivity |]. simpl.
  destruct (PushFlow_inv _ _ _ _ _ _ _ _ Hp) as (Hu & _).
  repeat split; assumption.
Qed.

(** Nothing is to be shown about the calls of an empty log. *)
Ltac no_calls :=
  split; [| split]; intros ? Hc; apply elem_of_nil in Hc; contradiction.

(** C1, as the code has it: in the first pass a push is made only for an
    edge with unsatisfied demand, and the push that may overload the path
    is made only when the unsatisfied demand of the edge still equals its
    demand, the free capacity of the path is above the sentinel [INT_MIN],
    and either that free capacity is not positive or the saturating push
    just made along the path moved nothing.  A path with positive free
    capacity always gets the saturating push first, and the overloading
    one only after a saturating push that returned 0. *)
Theorem C1_overload_after_failed_push (max_saturation accuracy : Z)
    (source dest : NodeID) (paths : list PathPtr) (st : State) (ml : bool)
    (log : list PushCall) (st' : State) (ml' : bool) (log' : list PushCall) :
  MCF1stPass_dest max_saturation accuracy source paths (st, ml, log) dest
    = Some (st', ml', log') ->
  exists new, log' = log ++ new /\
    (forall c, c ∈ new -> 0 < call_unsatisfied c) /\
    (forall c, c ∈ new -> call_kind c = OverloadingPush ->
       call_unsatisfied c = call_demand c /\ INT_MIN < call_free_capacity c /\
       (call_free_capacity c <= 0 \/
        exists c0, new = [c0; c] /\ call_kind c0 = SaturatingPush /\
                   0 < call_free_capacity c0 /\ call_pushed c0 = 0)) /\
    (forall c, c ∈ new -> 0 < call_free_capacity c ->
       exists c0 rest, new = c0 :: rest /\ call_kind c0 = SaturatingPush /\
         (c = c0 \/ (rest = [c] /\ call_pushed c0 = 0))).
Proof.
  unfold MCF1stPass_dest.
  destruct (Z.ltb_spec 0 (UnsatisfiedDemand (get_edge (job st) source dest)))
    as [Hu|Hu].
  2:{ intros [= <- <- <-]. exists []. rewrite app_nil_r.
      split; [reflexivity |].
      no_calls. }
  destruct (at_node paths dest) as [path|]; [| discriminate]. simpl.
  destruct (decide (path = NULL)); [discriminate |].
  destruct (deref (heap st) path) as [pp|] eqn:Hpp; [| discriminate]. simpl.
  destruct (Z.ltb_spec 0 (free_capacity pp)) as [Hfree|Hfree].
  - (* free capacity: the saturating push comes first *)
    destruct (PushFlow st source dest path accuracy max_saturation)
      as [[pushed st1]|] eqn:Hpush; [| discriminate].
    simpl.
    pose proof (PushFlow_nonneg _ _ _ _ _ _ _ _ Hpush) as [Hp0 _].
    set (c0 := record_call SaturatingPush st source dest pp pushed).
    destruct (Z.ltb_spec 0 pushed) as [Hpos|Hzero].
    + intros [= <- <- <-]. exists [c0]. split; [reflexivity |].
      split; [| split].
      * intros c Hc. apply list_elem_of_singleton in Hc as ->. exact Hu.
      * intros c Hc. apply list_elem_of_singleton in Hc as ->. discriminate.
      * intros c Hc _. apply list_elem_of_singleton in Hc as ->.
        exists c0, []. repeat split. left. reflexivity.
    + assert (Hpz : pushed = 0) by lia.
      intros Hov. apply MCF1stPass_overload_inv in Hov
        as [->|(c & -> & Hk & Hd & Hmin & Hcu)].
      * exists [c0]. split; [reflexivity |].
        split; [| split].
        -- intros c' Hc. apply list_elem_of_singleton in Hc as ->. exact Hu.
        -- intros c' Hc. apply list_elem_of_singleton in Hc as ->. discriminate.
        -- intros c' Hc _. apply list_elem_of_singleton in Hc as ->.
           exists c0, []. repeat split. left. reflexivity.
      * exists [c0; c]. split; [rewrite <- app_assoc; reflexivity |].
        split; [| split].
        -- intros c' Hc. apply elem_of_cons in Hc as [->|Hc]; [exact Hu |].
           apply list_elem_of_singleton in Hc as ->. exact Hcu.
        -- intros c' Hc Hk'. apply elem_of_cons in Hc as [->|Hc]; [discriminate |].
           apply list_elem_of_singleton in Hc as ->.
           split; [assumption |]. split; [assumption |].
           right. exists c0. repeat split; assumption.
        -- intros c' Hc _. exists c0, [c]. repeat split.
           apply elem_of_cons in Hc as [->|Hc]; [left; reflexivity |].
           apply list_elem_of_singleton in Hc as ->. right. split; [reflexivity | assumption].
  - (* no free capacity: only the overloading push can be made *)
    intros Hov.
    assert (Hcap : forall c, log' = log ++ [c] -> call_kind c = OverloadingPush ->
                     call_free_capacity c <= 0).
    { intros c Hc Hk. unfold MCF1stPass_overload in Hov. rewrite Hpp in Hov.
      simpl in Hov.
      destruct ((UnsatisfiedDemand (get_edge (job st) source dest) =?
                 Demand (get_edge (job st) source dest)) &&
                (INT_MIN <? free_capacity pp)).
      - destruct (PushFlow st source dest path accuracy UINT_MAX) as [[p s]|];
          [| discriminate].
        simpl in Hov. injection Hov as _ _ Hl. rewrite Hc in Hl.
        apply app_inv_head in Hl. injection Hl as <-. simpl. assumption.
      - injection Hov as _ _ Hl. rewrite Hc in Hl.
        rewrite <- (app_nil_r log) in Hl at 1.
        apply app_inv_head in Hl. discriminate. }
    apply MCF1stPass_overload_inv in Hov
      as [->|(c & -> & Hk & Hd & Hmin & Hcu)].
    + exists []. rewrite app_nil_r. split; [reflexivity |].
      no_calls.
    + specialize (Hcap c eq_refl Hk).
      exists [c]. split; [reflexivity |].
      split; [| split].
      * intros c' Hc. apply list_elem_of_singleton in Hc as ->. exact Hcu.
      * intros c' Hc _. apply list_elem_of_singleton in Hc as ->.
        split; [assumption |]. split; [assumption |]. left. assumption.
      * intros c' Hc Hpos. apply list_elem_of_singleton in Hc as ->. lia.
Qed.

(** C1, as the specification words it, fails: in [chain_job] the search
    from node 0 rates the path to node 2 with a free capacity of 10; the
    push for node 1 then fills the link both paths share, the saturating
    push for node 2 returns 0, and the overloading push is made along a
    path whose free capacity is positive. *)
Lemma C1_overload_despite_free_capacity :
  ~ (forall (dfuel : nat) (max_saturation : Z) (st : State) (source : NodeID)
       (st' : State) (more_loops : bool) (log : list PushCall),
       MCF1stPass_source dfuel max_saturation (st, false, []) source
         = Some (st', more_loops, log) ->
       Forall (fun c => one_shot_as_specified c /\ capped_when_free c) log).
Proof.
  intros H.
  destruct (MCF1stPass_source 10 100 (chain_start, false, []) 0)
    as [[[st' ml] log]|] eqn:E; [| vm_compute in E; discriminate].
  specialize (H _ _ _ _ _ _ _ E).
  vm_compute in E. injection E as _ _ <-.
  apply Forall_cons in H as [_ H].
  apply Forall_cons in H as [_ H].
  apply Forall_cons in H as [[H _] _].
  destruct (H eq_refl) as [Hle _]. simpl in Hle. lia.
Qed.

(** ** The second pass *)

Lemma fold_opt_ind {A S : Type} (P : S -> Prop) (f : S -> A -> option S)
    (l : list A) :
  (forall s x s', P s -> f s x = Some s' -> P s') ->
  forall s s', P s -> fold_opt f l s = Some s' -> P s'.
Proof.
  intros Hstep. induction l as [|x l IH]; simpl; intros s s' Hs.
  - intros [= <-]. assumption.
  - destruct (f s x) as [s1|] eqn:Hf; [| discriminate].
    apply IH. eapply Hstep; eassumption.
Qed.

Lemma sum_unsatisfied_insert (m : gmap (NodeID * NodeID) Edge)
    (k : NodeID * NodeID) (e : Edge) :
  m !! k = None ->
  sum_unsatisfied (<[k := e]> m) = UnsatisfiedDemand e + sum_unsatisfied m.
Proof.
  intros Hk. unfold sum_unsatisfied.
  apply (map_fold_insert_L (fun _ e acc => UnsatisfiedDemand e + acc));
    [intros; lia | assumption].
Qed.

Lemma sum_unsatisfied_delete (m : gmap (NodeID * NodeID) Edge)
    (k : NodeID * NodeID) :
  sum_unsatisfied m =
  UnsatisfiedDemand (default absent_edge (m !! k)) + sum_unsatisfied (delete k m).
Proof.
  destruct (m !! k) as [e|] eqn:Hk; simpl.
  - unfold sum_unsatisfied.
    apply (map_fold_delete_L (fun _ e acc => UnsatisfiedDemand e + acc));
      [intros; lia | assumption].
  - rewrite delete_id by assumption. reflexivity.
Qed.

Lemma total_update_edge (g : Edge -> Edge) (a b : NodeID) (j : LinkGraphJob) :
  total_unsatisfied (update_edge g a b j) =
  total_unsatisfied j - UnsatisfiedDemand (get_edge j a b)
  + UnsatisfiedDemand (g (get_edge j a b)).
Proof.
  unfold total_unsatisfied, update_edge, set_edges. simpl.
  rewrite <- (insert_delete_eq (edges j)).
  rewrite sum_unsatisfied_insert by apply lookup_delete_eq.
  rewrite (sum_unsatisfied_delete (edges j) (a, b)).
  unfold get_edge. lia.
Qed.

Lemma wf_update_edge (g : Edge -> Edge) (a b : NodeID) (j : LinkGraphJob) :
  wf_demand j -> is_uint (UnsatisfiedDemand (g (get_edge j a b))) ->
  wf_demand (update_edge g a b j).
Proof.
  intros Hwf Hg k e. unfold update_edge, set_edges. simpl.
  rewrite lookup_insert. destruct (decide ((a, b) = k)).
  - intros [= <-]. assumption.
  - apply Hwf.
Qed.

Lemma wf_get_edge (j : LinkGraphJob) (a b : NodeID) :
  wf_demand j -> is_uint (UnsatisfiedDemand (get_edge j a b)).
Proof.
  intros Hwf. unfold get_edge.
  destruct (edges j !! (a, b)) as [e|] eqn:He; simpl.
  - eapply Hwf. eassumption.
  - unfold is_uint, UINT_MAX. lia.
Qed.

Lemma total_nonneg (j : LinkGraphJob) : wf_demand j -> 0 <= total_unsatisfied j.
Proof.
  unfold wf_demand, total_unsatisfied, sum_unsatisfied.
  generalize (edges j). intros m.
  apply (map_fold_weak_ind
           (fun r m => (forall k e, m !! k = Some e -> is_uint (UnsatisfiedDemand e))
                       -> 0 <= r)).
  - intros _. lia.
  - intros k e m' r Hk IH Hwf.
    assert (0 <= r).
    { apply IH. intros k' e' Hk'. apply (Hwf k').
      rewrite lookup_insert_ne; [assumption |]. congruence. }
    pose proof (Hwf k e (lookup_insert_eq _ _ _)) as [? _]. lia.
Qed.

Lemma add_flows_total (f : Z) (es : list (NodeID * NodeID)) (j : LinkGraphJob) :
  let j' := foldr (fun e j => update_edge (Edge_AddFlow f) e.1 e.2 j) j es in
  total_unsatisfied j' = total_unsatisfied j /\ (wf_demand j -> wf_demand j').
Proof.
  induction es as [|[a b] es [IHt IHw]]; simpl; [tauto |].
  split.
  - rewrite total_update_edge. simpl. lia.
  - intros Hwf. apply wf_update_edge; [auto |]. simpl.
    apply wf_get_edge. auto.
Qed.

Lemma AddFlow_total (st : State) (this : PathPtr) (want ms f : Z) (st' : State) :
  AddFlow st this want ms = Some (f, st') ->
  total_unsatisfied (job st') = total_unsatisfied (job st) /\
  (wf_demand (job st) -> wf_demand (job st')).
Proof.
  unfold AddFlow. destruct this as [| |a]; try discriminate.
  destruct (walk_to_root _ _ _) as [chain|]; [| discriminate].
  simpl. intros [= <- <-]. simpl. apply add_flows_total.
Qed.


Section SearchKeepsJob.

Context {A : Annotation} {I : EdgeIterator}.

Lemma Dijkstra_relax_job (ms : Z) (paths : list PathPtr) (source : PathPtr)
    (from to : NodeID) (st : State) (annos : list PathPtr) (st' : State)
    (annos' : list PathPtr) :
  Dijkstra_relax ms paths source from (st, annos) to = Some (st', annos') ->
  job st' = job st.
Proof.
  unfold Dijkstra_relax.
  destruct (decide (to = from)); [intros [= <- _]; reflexivity |].
  destruct (negb _); [discriminate |].
  destruct (at_node paths to) as [dest|]; [| discriminate]. simpl.
  destruct (deref (heap st) dest) as [pd|]; [| discriminate]. simpl.
  destruct (deref (heap st) source) as [ps|]; [| discriminate]. simpl.
  destruct (anno_IsBetter _ _ _ _ _); [| intros [= <- _]; reflexivity].
  destruct (set_erase _ _ _); [| discriminate]. simpl.
  destruct (Fork_ptr _ _ _ _ _ _); [| discriminate]. simpl.
  destruct (set_insert _ _ _); [| discriminate]. simpl.
  intros [= <- _]. reflexivity.
Qed.

Lemma Dijkstra_loop_job (ms : Z) (source_node : NodeID) (paths : list PathPtr) :
  forall (fuel : nat) (st : State) (annos : list PathPtr) (st' : State),
    Dijkstra_loop fuel ms source_node paths st annos = Some st' ->
    job st' = job st.
Proof.
  induction fuel as [|fuel IH]; intros st annos st'; simpl.
  - destruct annos; [intros [= <-]; reflexivity | discriminate].
  - destruct annos as [|source annos]; [intros [= <-]; reflexivity |].
    destruct (deref (heap st) source) as [ps|]; [| discriminate]. simpl.
    destruct (fold_opt _ _ _) as [[st1 annos1]|] eqn:Hfold; [| discriminate].
    simpl. intros Hloop. rewrite (IH _ _ _ Hloop).
    apply (fold_opt_ind (fun s : State * list PathPtr => job s.1 = job st)
             _ _) in Hfold; [exact Hfold | | reflexivity].
    intros [s a] x [s' a'] Hs Hr. simpl in *.
    rewrite (Dijkstra_relax_job _ _ _ _ _ _ _ _ _ Hr). assumption.
Qed.

Lemma Dijkstra_job (fuel : nat) (ms : Z) (source_node : NodeID) (st : State)
    (paths : list PathPtr) (st' : State) (paths' : list PathPtr) :
  Dijkstra fuel ms source_node st paths = Some (st', paths') ->
  job st' = job st.
Proof.
  unfold Dijkstra.
  destruct (fold_opt _ _ _) as [[[st1 paths1] annos]|] eqn:Hinit; [| discriminate].
  simpl.
  destruct (Dijkstra_loop _ _ _ _ _ _) as [st2|] eqn:Hloop; [| discriminate].
  simpl. intros [= <- _].
  rewrite (Dijkstra_loop_job _ _ _ _ _ _ _ Hloop).
  apply (fold_opt_ind
           (fun s : State * list PathPtr * list PathPtr => job s.1.1 = job st)
           _ _) in Hinit; [exact Hinit | | reflexivity].
  intros [[s p] a] x [[s' p'] a'] Hs. unfold Dijkstra_init, alloc.
  destruct (set_insert _ _ _); [| discriminate]. simpl.
  intros [= <- _ _]. exact Hs.
Qed.

End SearchKeepsJob.

Lemma CleanupPaths_job (source_id : NodeID) (st : State) (paths : list PathPtr)
    (st' : State) (paths' : list PathPtr) :
  CleanupPaths source_id st paths = Some (st', paths') -> job st' = job st.
Proof.
  unfold CleanupPaths.
  destruct (at_node paths source_id) as [source|]; [| discriminate]. simpl.
  destruct (fold_opt _ _ _) as [[h ps]|]; [| discriminate]. simpl.
  destruct source; try discriminate; intros [= <- _]; reflexivity.
Qed.






(** ** The search for cycles *)

Lemma at_node_lookup {X : Type} (l : list X) (n : NodeID) (x : X) :
  at_node l n = Some x <-> 0 <= n /\ l !! Z.to_nat n = Some x.
Proof.
  unfold at_node. destruct (Z.ltb_spec n 0); split.
  - discriminate.
  - intros [? _]. lia.
  - intros H'. split; [lia | assumption].
  - intros [_ H']. assumption.
Qed.

Lemma at_node_range {X : Type} (l : list X) (n : NodeID) (x : X) :
  at_node l n = Some x -> 0 <= n < Z.of_nat (length l).
Proof.
  intros H. apply at_node_lookup in H as [H0 H]. apply lookup_lt_Some in H. lia.
Qed.

Lemma at_node_is_Some {X : Type} (l : list X) (n : NodeID) :
  0 <= n < Z.of_nat (length l) -> is_Some (at_node l n).
Proof.
  intros H. unfold at_node. destruct (Z.ltb_spec n 0); [lia |].
  apply lookup_lt_is_Some. lia.
Qed.

(** Along linked paths the loops of [FindCycleFlow] and [EliminateCycle]
    come to an end, whether or not the paths are distinct. *)
Lemma FindCycleFlow_loop_returns (h : gmap positive Path) (path : list PathPtr)
    (first : positive) (rest : list positive) :
  forall (a : positive) (fl : Z) (fuel : nat),
    cycle_links h path first (a :: rest) ->
    (length (a :: rest) <= fuel)%nat ->
    is_Some (FindCycleFlow_loop fuel h path (Ptr first) fl (Ptr a)).
Proof.
  induction rest as [|b rest IH]; intros a fl fuel Hl Hlen;
    (destruct fuel as [|fuel]; [simpl in Hlen; lia |]);
    destruct Hl as [(n & Hn & Hp) Hl'];
    unfold node_at in Hn; destruct (h !! a) as [pa|] eqn:Ha; try discriminate;
    injection Hn as <-; simpl; rewrite Ha; simpl; rewrite Hp; simpl.
  - destruct (decide (Ptr first = Ptr first)); [eauto | congruence].
  - destruct (decide (Ptr b = Ptr first)); [eauto |].
    apply IH; [assumption | simpl in *; lia].
Qed.

Lemma EliminateCycle_loop_returns (path : list PathPtr) (first : positive)
    (fl : Z) (rest : list positive) :
  forall (a : positive) (st : State) (fuel : nat),
    cycle_links (heap st) path first (a :: rest) ->
    is_Some (node_at (heap st) first) ->
    (length (a :: rest) <= fuel)%nat ->
    exists st',
      EliminateCycle_loop fuel path (Ptr first) fl st (Ptr a) = Some st' /\
      same_shape st st'.
Proof.
  induction rest as [|b rest IH]; intros a st fuel Hl Hfirst Hlen;
    (destruct fuel as [|fuel]; [simpl in Hlen; lia |]);
    destruct Hl as [(n & Hn & Hp) Hl'];
    unfold node_at in Hn; destruct (heap st !! a) as [pa|] eqn:Ha;
    try discriminate; injection Hn as <-;
    pose proof (node_at_insert_same (heap st) a pa (ReduceFlow fl pa) Ha eq_refl)
      as Hsame;
    cbn [EliminateCycle_loop]; rewrite Ha; simpl; rewrite Hp; simpl.
  - destruct Hfirst as [nf Hnf]. rewrite <- Hsame in Hnf.
    unfold node_at in Hnf.
    destruct (<[a := ReduceFlow fl pa]> (heap st) !! first) as [pn|];
      [| discriminate].
    simpl. destruct (decide (Ptr first = Ptr first)); [| congruence].
    eexists. split; [reflexivity |]. split; [exact Hsame | reflexivity].
  - destruct Hl' as [(nb & Hnb & Hpb) Hl''].
    pose proof Hnb as Hnb1. rewrite <- Hsame in Hnb1. unfold node_at in Hnb1.
    destruct (<[a := ReduceFlow fl pa]> (heap st) !! b) as [pb|] eqn:Hb;
      [| discriminate].
    simpl.
    set (st1 := {| job := _; heap := _; next_free := _ |}).
    assert (Hshape1 : same_shape st st1) by (split; [exact Hsame | reflexivity]).
    destruct (decide (Ptr b = Ptr first)).
    + eexists. split; [reflexivity | assumption].
    + destruct (IH b st1 fuel) as (st' & Hrun & Hs1 & Hs2).
      * split; [exists nb; split; [rewrite Hsame |]; assumption |].
        apply (cycle_links_same_nodes (heap st)); assumption.
      * simpl. rewrite Hsame. assumption.
      * simpl in *. lia.
      * exists st'. split; [exact Hrun |]. split.
        -- intros x. rewrite Hs1. apply Hsame.
        -- rewrite Hs2. reflexivity.
Qed.

Lemma via_find_elem (k : NodeID) (m : list (NodeID * PathPtr)) (v : PathPtr) :
  via_find k m = Some v -> (k, v) ∈ m.
Proof.
  induction m as [|[k' v'] m IH]; simpl; [discriminate |].
  destruct (decide (k = k')) as [->|].
  - intros [= ->]. apply elem_of_cons. left. reflexivity.
  - intros H. apply elem_of_cons. right. auto.
Qed.

Lemma via_insert_elem (k : NodeID) (v : PathPtr) (m : list (NodeID * PathPtr))
    (e : NodeID * PathPtr) :
  e ∈ via_insert k v m -> e = (k, v) \/ e ∈ m.
Proof.
  induction m as [|[k' v'] m IH]; simpl.
  - intros H. apply list_elem_of_singleton in H. auto.
  - destruct (k <? k'); [| destruct (k =? k')]; intros H;
      apply elem_of_cons in H as [H|H]; auto.
    + right. apply elem_of_cons. right. assumption.
    + right. apply elem_of_cons. left. assumption.
    + destruct (IH H); auto. right. apply elem_of_cons. right. assumption.
Qed.

Lemma summarize_step_ok (origin_id : NodeID) (h : gmap positive Path)
    (l : list PathPtr) (nh : list (NodeID * PathPtr)) (new_child : PathPtr) :
  (exists a, new_child = Ptr a /\ is_Some (h !! a)) ->
  new_child ∈ l ->
  next_hops_ok h l nh ->
  exists h' nh',
    summarize_step origin_id (h, nh) new_child = Some (h', nh') /\
    (forall x, node_at h' x = node_at h x) /\
    next_hops_ok h' l nh'.
Proof.
  intros (a & -> & [pa Ha]) Hin Hok. unfold summarize_step. simpl.
  rewrite Ha. simpl.
  destruct (decide (origin pa = origin_id)); [| eauto].
  destruct (via_find (node pa) nh) as [child|] eqn:Hfind.
  - destruct (Hok _ _ (via_find_elem _ _ _ Hfind)) as (_ & c & -> & Hc).
    unfold node_at in Hc. destruct (h !! c) as [pc|] eqn:Hpc; [| discriminate].
    simpl.
    pose proof (node_at_insert_same h c pc (Path_AddFlow (flow pa) pc) Hpc eq_refl)
      as Hs1.
    destruct (<[c := Path_AddFlow (flow pa) pc]> h !! a) as [pa1|] eqn:Ha1.
    2:{ exfalso. rewrite lookup_insert in Ha1.
        destruct (decide (c = a)); [discriminate | congruence]. }
    simpl.
    pose proof (node_at_insert_same _ a pa1 (ReduceFlow (flow pa) pa1) Ha1 eq_refl)
      as Hs2.
    eexists _, _. split; [reflexivity |].
    assert (Hs : forall x,
      node_at (<[a := ReduceFlow (flow pa) pa1]>
                 (<[c := Path_AddFlow (flow pa) pc]> h)) x = node_at h x).
    { intros x. rewrite Hs2. apply Hs1. }
    split; [exact Hs |].
    intros k p Hkp. destruct (Hok k p Hkp) as (Hl & b & -> & Hb).
    split; [assumption |]. exists b. split; [reflexivity |].
    rewrite Hs. assumption.
  - eexists _, _. split; [reflexivity |]. split; [reflexivity |].
    intros k p Hkp. apply via_insert_elem in Hkp as [[= -> ->]|Hkp].
    + split; [assumption |]. exists a. split; [reflexivity |].
      unfold node_at. rewrite Ha. reflexivity.
    + apply Hok. assumption.
Qed.

Lemma summarize_ok (origin_id : NodeID) (l0 : list PathPtr) :
  forall (l : list PathPtr) (h : gmap positive Path) (nh : list (NodeID * PathPtr)),
    (forall p, p ∈ l -> p ∈ l0 /\ exists a, p = Ptr a /\ is_Some (h !! a)) ->
    next_hops_ok h l0 nh ->
    exists h' nh',
      fold_opt (summarize_step origin_id) l (h, nh) = Some (h', nh') /\
      (forall x, node_at h' x = node_at h x) /\
      next_hops_ok h' l0 nh'.
Proof.
  induction l as [|p l IH]; intros h nh Hl Hok; cbn [fold_opt].
  - eexists _, _. split; [reflexivity |]. split; [reflexivity | assumption].
  - destruct (Hl p ltac:(apply elem_of_cons; left; reflexivity)) as (Hp0 & Hp).
    destruct (summarize_step_ok origin_id h l0 nh p Hp Hp0 Hok)
      as (h1 & nh1 & -> & Hs1 & Hok1).
    destruct (IH h1 nh1) as (h' & nh' & Hrun & Hs & Hok').
    + intros q Hq.
      destruct (Hl q ltac:(apply elem_of_cons; right; assumption))
        as (Hq0 & a & -> & Ha).
      split; [assumption |]. exists a. split; [reflexivity |].
      specialize (Hs1 a). unfold node_at in Hs1.
      destruct Ha as [pa Ha]. rewrite Ha in Hs1.
      destruct (h1 !! a); [eauto | discriminate].
    + assumption.
    + exists h', nh'. split; [exact Hrun |]. split; [| assumption].
      intros x. rewrite Hs. apply Hs1.
Qed.

Lemma nodes_bound (l : list NodeID) (len : nat) :
  NoDup l -> (forall n, n ∈ l -> 0 <= n < Z.of_nat len) ->
  (length l <= len)%nat.
Proof.
  intros Hnd Hr.
  assert (Hn : NoDup (Z.to_nat <$> l)).
  { apply NoDup_fmap_2_strong; [| assumption].
    intros n m Hn Hm Heq. pose proof (Hr n Hn). pose proof (Hr m Hm). lia. }
  rewrite <- (length_fmap Z.to_nat).
  transitivity (length (seq 0 len)); [| rewrite length_seq; lia].
  apply submseteq_length. apply NoDup_submseteq; [assumption |].
  intros i Hi. apply list_elem_of_fmap in Hi as (n & -> & Hin).
  pose proof (Hr n Hin). apply elem_of_seq. lia.
Qed.

Lemma on_stack_elem (h : gmap positive Path) (path : list PathPtr)
    (stack : list (NodeID * positive)) (next_id n : NodeID) (c : positive) :
  on_stack h path stack next_id -> (n, c) ∈ stack ->
  at_node path n = Some (Ptr c).
Proof.
  induction stack as [|[n' c'] stack IH]; simpl; intros Hs Hin.
  - apply elem_of_nil in Hin. contradiction.
  - destruct Hs as (Hp & _ & Hs).
    apply elem_of_cons in Hin as [[= -> ->]|Hin]; auto.
Qed.

Lemma on_stack_suffix (h : gmap positive Path) (path : list PathPtr)
    (s1 s2 : list (NodeID * positive)) (next_id : NodeID) :
  on_stack h path (s1 ++ s2) next_id -> on_stack h path s2 next_id.
Proof.
  induction s1 as [|[n c] s1 IH]; simpl; [trivial |].
  intros (_ & _ & Hs). auto.
Qed.

Lemma on_stack_links (h : gmap positive Path) (path : list PathPtr)
    (next_id : NodeID) (e : positive) (s : list (NodeID * positive)) :
  forall n c,
    on_stack h path ((n, c) :: s) next_id ->
    at_node path next_id = Some (Ptr e) ->
    cycle_links h path e (c :: s.*2).
Proof.
  induction s as [|[n' c'] s IH]; intros n c (Hp & Hn & Hs) He.
  - simpl in *. split; [| trivial]. exists next_id. split; assumption.
  - pose proof Hs as (Hp' & _ & _).
    split; [| apply (IH n' c'); assumption].
    exists n'. split; [exact Hn | exact Hp'].
Qed.

Lemma on_stack_push (h h' : gmap positive Path) (path V : list PathPtr)
    (next_id m : NodeID) (c' : positive) (stack : list (NodeID * positive)) :
  on_stack h path stack next_id ->
  (forall n c, (n, c) ∈ stack -> at_node V n = Some (Ptr c)) ->
  (forall a, node_at h' a = node_at h a) ->
  at_node V next_id = Some (Ptr c') ->
  node_at h' c' = Some m ->
  on_stack h' V (stack ++ [(next_id, c')]) m.
Proof.
  intros Hs HV Hsame Hnext Hc'.
  induction stack as [|[n c] stack IH]; simpl.
  - split; [assumption |]. split; [assumption | trivial].
  - destruct Hs as (Hp & Hn & Hs).
    split; [apply HV; apply elem_of_cons; left; reflexivity |].
    split.
    + rewrite Hsame, Hn. f_equal. destruct stack as [|[n2 c2] stack]; reflexivity.
    + apply IH; [assumption |].
      intros n2 c2 Hin. apply HV. apply elem_of_cons. right. assumption.
Qed.

Lemma slot_evolves_refl (p : PathPtr) : slot_evolves p p.
Proof. split; auto. Qed.

Lemma slot_evolves_trans (p q r : PathPtr) :
  slot_evolves p q -> slot_evolves q r -> slot_evolves p r.
Proof.
  intros [H1 H2] [H3 H4]. split.
  - intros Hp. pose proof (H1 Hp) as ->. apply H3. exact Hp.
  - intros Hp. destruct (H2 Hp) as [->| ->]; [auto |].
    right. apply H3. discriminate.
Qed.

Lemma path_evolves_refl (path : list PathPtr) : path_evolves path path.
Proof. apply Forall2_same_length_lookup_2; [reflexivity |].
  intros i x y Hx Hy. rewrite Hx in Hy. injection Hy as <-. apply slot_evolves_refl.
Qed.

(** The path vector [P] of the loop over the children of node [i], which
    was unvisited in [path]: apart from slot [i], [P] is [path] evolved. *)
Lemma evolves_after_child (path P V' : list PathPtr) (i : nat) (c : PathPtr) :
  path !! i = Some NULL ->
  path_evolves path (<[i := NULL]> P) ->
  path_evolves (<[i := c]> P) V' ->
  c <> NULL ->
  path_evolves path (<[i := NULL]> V') /\ V' !! i = Some c.
Proof.
  intros Hi H1 H2 Hc.
  pose proof (Forall2_length _ _ _ H1) as Hl1.
  pose proof (Forall2_length _ _ _ H2) as Hl2.
  rewrite length_insert in Hl1, Hl2.
  assert (HiP : (i < length P)%nat).
  { apply lookup_lt_Some in Hi. lia. }
  split.
  - apply Forall2_same_length_lookup_2; [rewrite length_insert; lia |].
    intros j x y Hx Hy.
    destruct (decide (i = j)) as [<-|Hne].
    + rewrite list_lookup_insert_eq in Hy by lia.
      rewrite Hi in Hx. injection Hx as <-. injection Hy as <-.
      apply slot_evolves_refl.
    + rewrite list_lookup_insert_ne in Hy by assumption.
      destruct (lookup_lt_is_Some_2 P j) as [z Hz].
      { apply lookup_lt_Some in Hy. lia. }
      apply (slot_evolves_trans x z y).
      * eapply (Forall2_lookup_lr _ _ _ j); [exact H1 | exact Hx |].
        rewrite list_lookup_insert_ne by assumption. exact Hz.
      * eapply (Forall2_lookup_lr _ _ _ j); [exact H2 | | exact Hy].
        rewrite list_lookup_insert_ne by assumption. exact Hz.
  - destruct (lookup_lt_is_Some_2 V' i) as [y Hy]; [lia |].
    assert (Hs : slot_evolves c y).
    { eapply (Forall2_lookup_lr _ _ _ i); [exact H2 | | exact Hy].
      apply list_lookup_insert_eq. assumption. }
    destruct Hs as [Hs _]. rewrite Hy, (Hs Hc). reflexivity.
Qed.

Lemma evolves_marked (path P : list PathPtr) (i : nat) (mark : PathPtr) :
  path !! i = Some NULL ->
  path_evolves path (<[i := NULL]> P) ->
  mark = NULL \/ mark = invalid_path ->
  path_evolves path (<[i := mark]> P).
Proof.
  intros Hi H1 Hm.
  pose proof (Forall2_length _ _ _ H1) as Hl1.
  rewrite length_insert in Hl1.
  apply Forall2_same_length_lookup_2; [rewrite length_insert; lia |].
  intros j x y Hx Hy.
  destruct (decide (i = j)) as [<-|Hne].
  - apply lookup_lt_Some in Hi as Hlt.
    rewrite list_lookup_insert_eq in Hy by lia.
    rewrite Hi in Hx. injection Hx as <-. injection Hy as <-.
    split; [congruence | auto].
  - rewrite list_lookup_insert_ne in Hy by assumption.
    eapply (Forall2_lookup_lr _ _ _ j); [exact H1 | exact Hx |].
    rewrite list_lookup_insert_ne by assumption. exact Hy.
Qed.

Lemma at_node_insert_eq {X : Type} (l : list X) (n : NodeID) (x : X) :
  0 <= n < Z.of_nat (length l) ->
  at_node (<[Z.to_nat n := x]> l) n = Some x.
Proof.
  intros H. apply at_node_lookup. split; [lia |].
  apply list_lookup_insert_eq. lia.
Qed.

Lemma at_node_insert_ne {X : Type} (l : list X) (n k : NodeID) (x : X) :
  0 <= n -> n <> k ->
  at_node (<[Z.to_nat n := x]> l) k = at_node l k.
Proof.
  intros Hn Hne. unfold at_node. destruct (Z.ltb_spec k 0); [reflexivity |].
  apply list_lookup_insert_ne. lia.
Qed.

Lemma on_stack_same_nodes (h h' : gmap positive Path) (path : list PathPtr)
    (stack : list (NodeID * positive)) (next_id : NodeID) :
  (forall a, node_at h' a = node_at h a) ->
  on_stack h path stack next_id -> on_stack h' path stack next_id.
Proof.
  intros Hs. induction stack as [|[n c] stack IH]; simpl; [trivial |].
  intros (Hp & Hn & Hst). rewrite Hs. auto.
Qed.

Lemma fragments_valid_shape (st st' : State) (len : nat) :
  same_shape st st' -> fragments_valid st len -> fragments_valid st' len.
Proof.
  intros [Hn Hp] Hv k l p Hl Hin. rewrite Hp in Hl.
  destruct (Hv k l p Hl Hin) as (a & n & -> & Ha & Hr).
  exists a, n. rewrite Hn. auto.
Qed.

Lemma same_shape_trans (st1 st2 st3 : State) :
  same_shape st1 st2 -> same_shape st2 st3 -> same_shape st1 st3.
Proof.
  intros [H1 H2] [H3 H4]. split.
  - intros a. rewrite H3. apply H1.
  - rewrite H4. assumption.
Qed.

Lemma stack_nodes_bound (h : gmap positive Path) (path : list PathPtr)
    (stack : list (NodeID * positive)) (next_id : NodeID) :
  search_stack h path stack next_id -> (length stack <= length path)%nat.
Proof.
  intros (Hs & Hnd & _). rewrite <- (length_fmap fst).
  apply nodes_bound; [assumption |].
  intros n Hn. apply list_elem_of_fmap in Hn as ([n' c] & -> & Hin).
  eapply at_node_range. eapply on_stack_elem; eassumption.
Qed.

(** The loop over the children of an unvisited node returns, provided the
    recursive calls do. *)
Lemma children_loop_returns
    (rec : State -> list PathPtr -> NodeID -> option (bool * State * list PathPtr))
    (bound : nat) (path : list PathPtr) (stack : list (NodeID * positive))
    (next_id : NodeID) (st0 : State) :
  call_returns rec bound ->
  at_node path next_id = Some NULL ->
  search_stack (heap st0) path stack next_id ->
  fragments_valid st0 (length path) ->
  (length path - length stack < S bound)%nat ->
  forall (nh : list (NodeID * PathPtr)) (found : bool) (st : State)
         (P : list PathPtr),
    (forall k p, (k, p) ∈ nh -> valid_fragment (heap st0) (length path) p) ->
    same_shape st0 st ->
    path_evolves path (<[Z.to_nat next_id := NULL]> P) ->
    exists found' st' P',
      fold_opt (EliminateCycles_child rec next_id) nh (found, st, P)
        = Some (found', st', P') /\
      same_shape st0 st' /\
      path_evolves path (<[Z.to_nat next_id := NULL]> P').
Proof.
  intros Hrec Hnull (Hstack & Hnd & Hall) Hfrag Hfuel.
  pose proof (at_node_range _ _ _ Hnull) as Hrange.
  apply at_node_lookup in Hnull as Hnull'. destruct Hnull' as [_ Hi].
  assert (Hfresh : next_id ∉ stack.*1).
  { intros Hin. apply list_elem_of_fmap in Hin as ([n c] & Hn & Hin).
    simpl in Hn. subst n.
    pose proof (on_stack_elem _ _ _ _ _ _ Hstack Hin) as Hp.
    rewrite Hnull in Hp. discriminate. }
  assert (Hroom : (length stack + 1 <= length path)%nat).
  { pose proof (nodes_bound (next_id :: stack.*1) (length path)) as Hb.
    simpl in Hb. rewrite length_fmap in Hb.
    assert (NoDup (next_id :: stack.*1)) as Hnd' by (apply NoDup_cons; auto).
    specialize (Hb Hnd'). 
    assert (Hin : forall n, n ∈ next_id :: stack.*1 ->
                    0 <= n < Z.of_nat (length path)).
    { intros n Hn. apply elem_of_cons in Hn as [->|Hn]; [assumption |].
      apply list_elem_of_fmap in Hn as ([n' c] & -> & Hin).
      eapply at_node_range. eapply on_stack_elem; eassumption. }
    specialize (Hb Hin). lia. }
  induction nh as [|[k p] nh IH]; intros found st P Hval Hshape Hev;
    cbn [fold_opt].
  { exists found, st, P. auto. }
  pose proof (Forall2_length _ _ _ Hev) as HlenP. rewrite length_insert in HlenP.
  destruct (Hval k p ltac:(apply elem_of_cons; left; reflexivity))
    as (c' & m & -> & Hm0 & Hmr).
  assert (Hm : node_at (heap st) c' = Some m) by (rewrite (proj1 Hshape); exact Hm0).
  pose proof Hm as Hm'. unfold node_at in Hm'.
  destruct (heap st !! c') as [child|] eqn:Hchild; [| discriminate].
  injection Hm' as Hm'.
  assert (Hrest : forall k p, (k, p) ∈ nh ->
                    valid_fragment (heap st0) (length path) p).
  { intros k' p' Hin. apply (Hval k'). apply elem_of_cons. right. assumption. }
  unfold EliminateCycles_child at 1. simpl. rewrite Hchild. simpl.
  destruct (0 <? flow child); [| apply IH; assumption].
  set (V := <[Z.to_nat next_id := Ptr c']> P).
  assert (HlenV : length V = length path) by (unfold V; rewrite length_insert; lia).
  assert (HP : forall j x, j <> Z.to_nat next_id -> path !! j = Some x ->
                 exists y, P !! j = Some y /\ slot_evolves x y).
  { intros j x Hj Hx.
    destruct (lookup_lt_is_Some_2 P j) as [y Hy].
    { apply lookup_lt_Some in Hx. lia. }
    exists y. split; [assumption |].
    eapply (Forall2_lookup_lr _ _ _ j); [exact Hev | exact Hx |].
    rewrite list_lookup_insert_ne by congruence. exact Hy. }
  destruct (Hrec st V (stack ++ [(next_id, c')]) (node child))
    as (r & st2 & V2 & Hcall & Hshape2 & Hev2).
  - rewrite HlenV. eapply fragments_valid_shape; eassumption.
  - split; [| split].
    + apply (on_stack_push (heap st0) (heap st) path V next_id).
      * assumption.
      * intros n c Hin.
        pose proof (on_stack_elem _ _ _ _ _ _ Hstack Hin) as Hp.
        assert (Hne : next_id <> n).
        { intros ->. rewrite Hnull in Hp. discriminate. }
        unfold V. rewrite at_node_insert_ne by lia.
        apply at_node_lookup in Hp as [Hn0 Hp].
        destruct (HP (Z.to_nat n) (Ptr c) ltac:(lia) Hp) as (y & Hy & [Hs _]).
        apply at_node_lookup. split; [assumption |].
        rewrite Hy, (Hs ltac:(discriminate)). reflexivity.
      * apply Hshape.
      * unfold V. apply at_node_insert_eq. lia.
      * rewrite Hm. f_equal. symmetry. assumption.
    + rewrite fmap_app. apply NoDup_app. split; [assumption |].
      split; [| apply NoDup_singleton].
      intros x Hx Hx'. apply list_elem_of_singleton in Hx'. simpl in Hx'.
      subst x. contradiction.
    + intros j c Hj. apply elem_of_app.
      destruct (decide (next_id = j)) as [<-|Hne].
      * right. unfold V in Hj. rewrite at_node_insert_eq in Hj by lia.
        injection Hj as <-. apply list_elem_of_singleton. reflexivity.
      * left. apply Hall. unfold V in Hj.
        rewrite at_node_insert_ne in Hj by lia.
        apply at_node_lookup in Hj as [Hj0 Hj].
        destruct (lookup_lt_is_Some_2 path (Z.to_nat j)) as [x Hx].
        { apply lookup_lt_Some in Hj. lia. }
        destruct (HP (Z.to_nat j) x ltac:(lia) Hx) as (y & Hy & [Hs1 Hs2]).
        rewrite Hj in Hy. injection Hy as <-.
        apply at_node_lookup. split; [assumption |].
        destruct (decide (x = NULL)) as [->|Hx0].
        -- destruct (Hs2 eq_refl); discriminate.
        -- rewrite Hx, (Hs1 Hx0). reflexivity.
  - rewrite HlenV, Hm'. assumption.
  - rewrite HlenV, length_app. simpl. lia.
  - rewrite Hcall. simpl.
    destruct (evolves_after_child path P V2 (Z.to_nat next_id) (Ptr c')
                Hi Hev Hev2 ltac:(discriminate)) as (Hev3 & _).
    apply IH; [assumption | | assumption].
    eapply same_shape_trans; eassumption.
Qed.

(** With fuel for every node not yet in progress, the cycle search
    returns. *)
Lemma EliminateCycles_rec_returns (origin_id : NodeID) :
  forall fuel : nat, call_returns (EliminateCycles_rec fuel origin_id) fuel.
Proof.
  induction fuel as [|n IH]; intros st path stack next_id Hfrag Hss Hrange Hfuel;
    [lia |].
  cbn [EliminateCycles_rec].
  destruct (at_node_is_Some path next_id Hrange) as [p Hp]. rewrite Hp. simpl.
  destruct p as [| |c].
  - (* unvisited *)
    set (l := default [] (Paths (job st) !! next_id)).
    assert (Hl : forall p, p ∈ l -> valid_fragment (heap st) (length path) p).
    { intros p Hin. unfold l in Hin.
      destruct (Paths (job st) !! next_id) as [l'|] eqn:Hl'; simpl in Hin.
      - eapply Hfrag; eassumption.
      - apply elem_of_nil in Hin. contradiction. }
    destruct (summarize_ok origin_id l l (heap st) []) as (h1 & nh & Hsum & Hs1 & Hnh).
    { intros p Hin. split; [assumption |].
      destruct (Hl p Hin) as (a & m & -> & Ha & _). exists a.
      split; [reflexivity |]. unfold node_at in Ha.
      destruct (heap st !! a); [eauto | discriminate]. }
    { intros k p Hin. apply elem_of_nil in Hin. contradiction. }
    unfold summarize. rewrite Hsum. simpl.
    assert (Hshape1 : same_shape st (set_heap h1 st)) by (split; [exact Hs1 | reflexivity]).
    destruct Hss as (Hstack & Hnd & Hall).
    destruct (children_loop_returns (EliminateCycles_rec n origin_id) n path stack
                next_id (set_heap h1 st) IH Hp) with
      (nh := nh) (found := false) (st := set_heap h1 st) (P := path)
      as (found & st' & P' & Hloop & Hshape2 & Hev).
    + split; [| split; assumption].
      apply (on_stack_same_nodes (heap st)); assumption.
    + eapply fragments_valid_shape; eassumption.
    + assumption.
    + intros k p Hin. destruct (Hnh k p Hin) as (Hpl & _).
      destruct (Hl p Hpl) as (a & m & -> & Ha & Hr).
      exists a, m. simpl. rewrite Hs1. auto.
    + split; [reflexivity | reflexivity].
    + apply at_node_lookup in Hp as [_ Hp'].
      rewrite list_insert_id by assumption. apply path_evolves_refl.
    + rewrite Hloop. simpl. eexists _, _, _. split; [reflexivity |].
      split; [eapply same_shape_trans; eassumption |].
      apply at_node_lookup in Hp as [_ Hp'].
      apply evolves_marked; [assumption | assumption |].
      destruct found; auto.
  - (* resolved *)
    eexists _, _, _. split; [reflexivity |].
    split; [split; reflexivity | apply path_evolves_refl].
  - (* in progress: a cycle *)
    pose proof (stack_nodes_bound _ _ _ _ Hss) as Hbound.
    destruct Hss as (Hstack & Hnd & Hall).
    pose proof (Hall next_id c Hp) as Hin.
    apply list_elem_of_split in Hin as (s1 & s2 & ->).
    pose proof (on_stack_suffix _ _ _ _ _ Hstack) as Hsuf.
    pose proof (on_stack_links _ _ _ c _ _ _ Hsuf Hp) as Hlinks.
    assert (Hlen : (length (c :: s2.*2) <= S (length path))%nat).
    { simpl. rewrite length_fmap. rewrite length_app in Hbound.
      simpl in Hbound. lia. }
    destruct (FindCycleFlow_loop_returns (heap st) path c (s2.*2) c UINT_MAX
                (S (length path)) Hlinks Hlen) as [fl Hfl].
    unfold FindCycleFlow. rewrite Hfl. simpl.
    destruct (0 <? fl).
    + assert (Hfirst : is_Some (node_at (heap st) c)).
      { destruct Hlinks as [(m & Hm & _) _]. eauto. }
      destruct (EliminateCycle_loop_returns path c fl (s2.*2) c st
                  (S (length path)) Hlinks Hfirst Hlen) as (st' & Hel & Hshape).
      unfold EliminateCycle. rewrite Hel. simpl.
      eexists _, _, _. split; [reflexivity |].
      split; [assumption | apply path_evolves_refl].
    + eexists _, _, _. split; [reflexivity |].
      split; [split; reflexivity | apply path_evolves_refl].
Qed.

(** *** Merging parallel fragments *)

Lemma via_find_None (k : NodeID) (m : list (NodeID * PathPtr)) :
  via_find k m = None -> forall v, (k, v) ∉ m.
Proof.
  induction m as [|[k' v'] m IH]; simpl; intros H v Hin.
  - apply elem_of_nil in Hin. contradiction.
  - destruct (decide (k = k')); [discriminate |].
    apply elem_of_cons in Hin as [[= -> ->]|Hin]; [congruence |].
    eapply IH; eassumption.
Qed.

Lemma via_insert_fresh (k : NodeID) (v : PathPtr) (m : list (NodeID * PathPtr)) :
  (forall v', (k, v') ∉ m) ->
  (forall e, e ∈ via_insert k v m <-> e = (k, v) \/ e ∈ m) /\
  (NoDup (m.*1) -> NoDup ((via_insert k v m).*1)).
Proof.
  induction m as [|[k' v'] m IH]; intros Hk.
  - simpl. split.
    + intros e. rewrite list_elem_of_singleton, elem_of_nil. tauto.
    + intros _. apply NoDup_singleton.
  - assert (Hne : k <> k').
    { intros ->. apply (Hk v'). apply elem_of_cons. left. reflexivity. }
    assert (Hk' : forall v0, (k, v0) ∉ m).
    { intros v0 Hin. apply (Hk v0). apply elem_of_cons. right. assumption. }
    destruct (IH Hk') as [IHe IHn]. simpl.
    destruct (Z.ltb_spec k k'); [| destruct (Z.eqb_spec k k'); [contradiction |]].
    + split.
      * intros e. rewrite elem_of_cons. tauto.
      * intros Hnd. simpl. apply NoDup_cons. split; [| assumption].
        apply not_elem_of_cons. split; [assumption |].
        intros Hin. apply list_elem_of_fmap in Hin as ([k0 v0] & Hk0 & Hin).
        simpl in Hk0. subst k0. exact (Hk' v0 Hin).
    + split.
      * intros e. rewrite !elem_of_cons, IHe. tauto.
      * intros Hnd. simpl in *. apply NoDup_cons in Hnd as [Hk'' Hnd].
        apply NoDup_cons. split; [| auto].
        intros Hin. apply list_elem_of_fmap in Hin as ([k0 v0] & Hk0 & Hin).
        simpl in Hk0. subst k0.
        apply IHe in Hin as [[= <- <-]|Hin]; [congruence |].
        apply Hk''. apply list_elem_of_fmap. exists (k', v0). auto.
Qed.

Lemma keys_functional (m : list (NodeID * PathPtr)) (k : NodeID) (v1 v2 : PathPtr) :
  NoDup (m.*1) -> (k, v1) ∈ m -> (k, v2) ∈ m -> v1 = v2.
Proof.
  induction m as [|[k' v'] m IH]; simpl; intros Hnd H1 H2.
  - apply elem_of_nil in H1. contradiction.
  - apply NoDup_cons in Hnd as [Hk Hnd].
    assert (Hno : forall v, (k', v) ∉ m).
    { intros v Hin. apply Hk. apply list_elem_of_fmap. exists (k', v). auto. }
    apply elem_of_cons in H1 as [H1|H1]; apply elem_of_cons in H2 as [H2|H2].
    + congruence.
    + injection H1 as -> ->. exfalso. eapply Hno; eassumption.
    + injection H2 as -> ->. exfalso. eapply Hno; eassumption.
    + auto.
Qed.

Lemma merged_flow_ext (origin_id k : NodeID) (h h' : gmap positive Path)
    (l : list PathPtr) :
  (forall p, p ∈ l -> deref h' p = deref h p) ->
  merged_flow origin_id k h' l = merged_flow origin_id k h l.
Proof.
  unfold merged_flow.
  induction l as [|p l IH]; intros H; simpl; [reflexivity |].
  f_equal.
  - unfold fragment_flow.
    rewrite (H p) by (apply elem_of_cons; left; reflexivity). reflexivity.
  - apply IH. intros q Hq. apply H. apply elem_of_cons. right. assumption.
Qed.

Lemma u32_add_l (a b : Z) : u32 (u32 a + b) = u32 (a + b).
Proof. unfold u32. apply Zplus_mod_idemp_l. Qed.

Lemma set_flow_set_flow (f g : Z) (p : Path) :
  set_flow f (set_flow g p) = set_flow f p.
Proof. reflexivity. Qed.

Lemma set_flow_id (p : Path) : set_flow (flow p) p = p.
Proof. destruct p. reflexivity. Qed.

Lemma merged_flow_cons (origin_id k : NodeID) (h : gmap positive Path)
    (p : PathPtr) (l : list PathPtr) :
  merged_flow origin_id k h (p :: l) =
  fragment_flow origin_id k h p + merged_flow origin_id k h l.
Proof. reflexivity. Qed.

Lemma fragment_flow_match (origin_id k : NodeID) (h : gmap positive Path)
    (a : positive) (pa : Path) :
  h !! a = Some pa -> origin pa = origin_id -> node pa = k ->
  fragment_flow origin_id k h (Ptr a) = flow pa.
Proof.
  intros Ha Ho Hn. unfold fragment_flow. simpl. rewrite Ha.
  destruct (decide (origin pa = origin_id /\ node pa = k)); tauto.
Qed.

Lemma fragment_flow_other (origin_id k : NodeID) (h : gmap positive Path)
    (a : positive) (pa : Path) :
  h !! a = Some pa -> (origin pa <> origin_id \/ node pa <> k) ->
  fragment_flow origin_id k h (Ptr a) = 0.
Proof.
  intros Ha Hne. unfold fragment_flow. simpl. rewrite Ha.
  destruct (decide (origin pa = origin_id /\ node pa = k)); tauto.
Qed.

Section Merging.

Variable origin_id : NodeID.

Lemma summarize_step_other (h : gmap positive Path)
    (nh : list (NodeID * PathPtr)) (a : positive) (pa : Path) :
  h !! a = Some pa -> origin pa <> origin_id ->
  summarize_step origin_id (h, nh) (Ptr a) = Some (h, nh).
Proof.
  intros Ha Ho. unfold summarize_step. simpl. rewrite Ha. simpl.
  destruct (decide (origin pa = origin_id)); [contradiction | reflexivity].
Qed.

Lemma summarize_step_first (h : gmap positive Path)
    (nh : list (NodeID * PathPtr)) (a : positive) (pa : Path) :
  h !! a = Some pa -> origin pa = origin_id ->
  via_find (node pa) nh = None ->
  summarize_step origin_id (h, nh) (Ptr a) =
  Some (h, via_insert (node pa) (Ptr a) nh).
Proof.
  intros Ha Ho Hf. unfold summarize_step. simpl. rewrite Ha. simpl.
  destruct (decide (origin pa = origin_id)); [| contradiction].
  rewrite Hf. reflexivity.
Qed.

Lemma summarize_step_parallel (h : gmap positive Path)
    (nh : list (NodeID * PathPtr)) (a c : positive) (pa pc : Path) :
  h !! a = Some pa -> origin pa = origin_id ->
  via_find (node pa) nh = Some (Ptr c) -> h !! c = Some pc -> c <> a ->
  summarize_step origin_id (h, nh) (Ptr a) =
  Some (<[a := set_flow 0 pa]>
          (<[c := set_flow (u32 (flow pc + flow pa)) pc]> h), nh).
Proof.
  intros Ha Ho Hf Hc Hne. unfold summarize_step. simpl. rewrite Ha. simpl.
  destruct (decide (origin pa = origin_id)); [| contradiction].
  rewrite Hf, Hc. simpl. rewrite lookup_insert_ne by assumption.
  rewrite Ha. simpl. unfold ReduceFlow. rewrite Z.sub_diag. reflexivity.
Qed.

(** What the summarizing loop establishes when started with the next hops
    [nh] on the heap [h] and run over the fragments [l]. *)
Lemma summarize_fold_merges :
  forall (l : list PathPtr) (h : gmap positive Path)
         (nh : list (NodeID * PathPtr)),
    NoDup l ->
    (forall p, p ∈ l ->
       exists a pa, p = Ptr a /\ h !! a = Some pa /\ is_uint (flow pa)) ->
    NoDup (nh.*1) ->
    (forall k p, (k, p) ∈ nh ->
       (p ∉ l) /\ exists r pr, p = Ptr r /\ h !! r = Some pr /\ node pr = k /\
                             is_uint (flow pr)) ->
    exists h' nh',
      fold_opt (summarize_step origin_id) l (h, nh) = Some (h', nh') /\
      NoDup (nh'.*1) /\
      (forall e, e ∈ nh -> e ∈ nh') /\
      (forall a pa, h !! a = Some pa -> exists f, h' !! a = Some (set_flow f pa)) /\
      (forall k p, (k, p) ∈ nh' ->
         exists r pr, p = Ptr r /\ h !! r = Some pr /\ node pr = k /\
           ((k, p) ∈ nh ->
            h' !! r = Some (set_flow (u32 (flow pr + merged_flow origin_id k h l)) pr)) /\
           ((k, p) ∉ nh ->
            p ∈ l /\ origin pr = origin_id /\
            h' !! r = Some (set_flow (u32 (merged_flow origin_id k h l)) pr))) /\
      (forall a pa, Ptr a ∈ l -> h !! a = Some pa -> origin pa = origin_id ->
         (node pa, Ptr a) ∈ nh' \/ h' !! a = Some (set_flow 0 pa)) /\
      (forall a pa, h !! a = Some pa ->
         (Ptr a ∉ l \/ origin pa <> origin_id) ->
         (forall k, (k, Ptr a) ∉ nh') -> h' !! a = Some pa).
Proof.
  induction l as [|p l IH]; intros h nh Hnd Hval Hkeys Hreps; cbn [fold_opt].
  { exists h, nh. split; [reflexivity |]. split; [assumption |].
    split; [auto |]. split.
    { intros a pa Ha. exists (flow pa). rewrite set_flow_id. assumption. }
    split.
    { intros k p Hin. destruct (Hreps k p Hin) as (_ & r & pr & -> & Hr & Hn & Hu).
      exists r, pr. split; [reflexivity |]. split; [assumption |].
      split; [assumption |]. split; [| contradiction].
      intros _. unfold merged_flow. simpl. rewrite Z.add_0_r.
      rewrite u32_exact by assumption. rewrite set_flow_id. assumption. }
    split.
    { intros a pa Hin. apply elem_of_nil in Hin. contradiction. }
    auto. }
  apply NoDup_cons in Hnd as [Hp Hnd].
  destruct (Hval p ltac:(apply elem_of_cons; left; reflexivity))
    as (a & pa & -> & Ha & Hua).
  assert (Hval' : forall q, q ∈ l ->
            exists b pb, q = Ptr b /\ h !! b = Some pb /\ is_uint (flow pb) /\ b <> a).
  { intros q Hq.
    destruct (Hval q ltac:(apply elem_of_cons; right; assumption))
      as (b & pb & -> & Hb & Hub).
    exists b, pb. split; [reflexivity |]. split; [assumption |].
    split; [assumption |]. intros ->. contradiction. }
  assert (Hreps' : forall k q, (k, q) ∈ nh ->
            (q ∉ l) /\ exists r pr, q = Ptr r /\ h !! r = Some pr /\ node pr = k /\
                                  is_uint (flow pr) /\ r <> a).
  { intros k q Hq. destruct (Hreps k q Hq) as (Hnl & r & pr & -> & Hr & Hn & Hu).
    split; [intros Hin; apply Hnl; apply elem_of_cons; right; assumption |].
    exists r, pr. split; [reflexivity |]. split; [assumption |].
    split; [assumption |]. split; [assumption |].
    intros ->. apply Hnl. apply elem_of_cons. left. reflexivity. }
  destruct (decide (origin pa = origin_id)) as [Ho|Ho].
  2:{ (* a fragment of another origin *)
    rewrite (summarize_step_other h nh a pa Ha Ho).
    destruct (IH h nh Hnd) as (h' & nh' & Hrun & Q1 & Q2 & Q3 & Q4 & Q5 & Q6).
    { intros q Hq. destruct (Hval' q Hq) as (b & pb & ? & ? & ? & _).
      exists b, pb. auto. }
    { assumption. }
    { intros k q Hq. destruct (Hreps' k q Hq) as (? & r & pr & ? & ? & ? & ? & _).
      split; [assumption |]. exists r, pr. auto. }
    exists h', nh'. split; [exact Hrun |].
    split; [assumption |]. split; [assumption |]. split; [assumption |].
    assert (Hzero : forall k, fragment_flow origin_id k h (Ptr a) = 0).
    { intros k. eapply fragment_flow_other; eauto. }
    split; [| split].
    - intros k q Hq. destruct (Q4 k q Hq) as (r & pr & -> & Hr & Hn & Hold & Hnew).
      exists r, pr. rewrite merged_flow_cons, Hzero, Z.add_0_l.
      split; [reflexivity |]. split; [assumption |]. split; [assumption |].
      split; [assumption |].
      intros Hnin. destruct (Hnew Hnin) as (? & ? & ?).
      split; [apply elem_of_cons; right; assumption |]. auto.
    - intros x px Hx Hpx Hox. apply elem_of_cons in Hx as [[= ->]|Hx].
      + rewrite Ha in Hpx. injection Hpx as <-. contradiction.
      + eapply Q5; eassumption.
    - intros x px Hpx Hcond Hno. apply Q6; [assumption | | assumption].
      destruct (decide (Ptr x ∈ l)) as [Hin|]; [| auto].
      right. destruct Hcond as [Hc|Hc]; [| assumption].
      exfalso. apply Hc. apply elem_of_cons. right. assumption. }
  destruct (via_find (node pa) nh) as [child|] eqn:Hfind.
  - (* a parallel fragment: its flow goes to the representative *)
    pose proof (via_find_elem _ _ _ Hfind) as Hchild.
    destruct (Hreps' _ _ Hchild) as (Hcl & c & pc & -> & Hc & Hnc & Huc & Hca).
    rewrite (summarize_step_parallel h nh a c pa pc Ha Ho Hfind Hc Hca).
    set (h1 := <[a := set_flow 0 pa]>
                 (<[c := set_flow (u32 (flow pc + flow pa)) pc]> h)).
    assert (H1a : h1 !! a = Some (set_flow 0 pa)).
    { unfold h1. rewrite lookup_insert_eq. reflexivity. }
    assert (H1c : h1 !! c = Some (set_flow (u32 (flow pc + flow pa)) pc)).
    { unfold h1. rewrite lookup_insert_ne by congruence.
      rewrite lookup_insert_eq. reflexivity. }
    assert (H1x : forall x, x <> a -> x <> c -> h1 !! x = h !! x).
    { intros x Hxa Hxc. unfold h1.
      rewrite !lookup_insert_ne by congruence. reflexivity. }
    assert (H1all : forall x px, h !! x = Some px ->
              exists f, h1 !! x = Some (set_flow f px)).
    { intros x px Hpx. destruct (decide (x = a)) as [->|Hxa].
      - rewrite Ha in Hpx. injection Hpx as <-. eauto.
      - destruct (decide (x = c)) as [->|Hxc].
        + rewrite Hc in Hpx. injection Hpx as <-. eauto.
        + exists (flow px). rewrite set_flow_id, H1x by assumption. assumption. }
    assert (Hcl' : forall q, q ∈ l -> q <> Ptr c).
    { intros q Hq ->. contradiction. }
    destruct (IH h1 nh Hnd) as (h' & nh' & Hrun & Q1 & Q2 & Q3 & Q4 & Q5 & Q6).
    { intros q Hq. destruct (Hval' q Hq) as (b & pb & -> & Hb & Hub & Hba).
      exists b, pb. rewrite H1x; [auto | assumption |].
      intros ->. exact (Hcl' _ Hq eq_refl). }
    { assumption. }
    { intros k q Hq.
      destruct (Hreps' k q Hq) as (Hql & r & pr & -> & Hr & Hn & Hu & Hra).
      split; [assumption |]. destruct (decide (r = c)) as [->|Hrc].
      - rewrite Hc in Hr. injection Hr as <-.
        eexists c, _. split; [reflexivity |]. split; [exact H1c |].
        split; [assumption | apply u32_range].
      - exists r, pr. rewrite H1x by assumption. auto. }
    exists h', nh'. split; [exact Hrun |].
    split; [assumption |]. split; [assumption |].
    assert (Hext : forall k, merged_flow origin_id k h1 l = merged_flow origin_id k h l).
    { intros k. apply merged_flow_ext. intros q Hq.
      destruct (Hval' q Hq) as (b & pb & -> & _ & _ & Hba). simpl.
      apply H1x; [assumption |]. intros ->. exact (Hcl' _ Hq eq_refl). }
    split; [| split; [| split]].
    + intros x px Hpx. destruct (H1all x px Hpx) as (f1 & Hx1).
      destruct (Q3 x _ Hx1) as (f & Hx'). exists f. rewrite Hx'. reflexivity.
    + intros k q Hq.
      destruct (Q4 k q Hq) as (r & pr1 & -> & Hr1 & Hn1 & Hold & Hnew).
      destruct (decide ((k, Ptr r) ∈ nh)) as [Hin|Hnin].
      * destruct (Hreps' k _ Hin) as (_ & r' & pr & [= <-] & Hr & Hn & Hu & Hra).
        exists r, pr. split; [reflexivity |]. split; [assumption |].
        split; [assumption |]. split; [| contradiction].
        intros _. rewrite (Hold Hin), Hext, merged_flow_cons.
        destruct (decide (r = c)) as [->|Hrc].
        -- rewrite H1c in Hr1. injection Hr1 as <-.
           rewrite Hc in Hr. injection Hr as <-.
           rewrite (fragment_flow_match origin_id k h a pa) by congruence.
           f_equal. rewrite set_flow_set_flow. f_equal. simpl.
           rewrite u32_add_l. f_equal. lia.
        -- rewrite H1x in Hr1 by assumption. rewrite Hr in Hr1.
           injection Hr1 as <-.
           rewrite (fragment_flow_other origin_id k h a pa); [reflexivity | assumption |].
           right. intros Hk. apply Hrc.
           assert (Ptr r = Ptr c) as [= ->]; [| reflexivity].
           eapply (keys_functional nh k); [assumption | assumption |].
           rewrite <- Hk. assumption.
      * destruct (Hnew Hnin) as (Hrl & Ho1 & Hr').
        destruct (Hval' _ Hrl) as (r' & pr & [= <-] & Hr & Hu & Hra).
        assert (Hrc : r <> c) by (intros ->; exact (Hcl' _ Hrl eq_refl)).
        rewrite H1x in Hr1 by assumption. rewrite Hr in Hr1. injection Hr1 as <-.
        exists r, pr. split; [reflexivity |]. split; [assumption |].
        split; [assumption |]. split; [contradiction |].
        intros _. split; [apply elem_of_cons; right; assumption |].
        split; [assumption |].
        rewrite Hr', Hext, merged_flow_cons.
        rewrite (fragment_flow_other origin_id k h a pa); [reflexivity | assumption |].
        right. intros Hk. apply Hnin.
        assert (Ptr r = Ptr c) as ->; [| rewrite <- Hk; assumption].
        eapply (keys_functional nh' k); [assumption | assumption |].
        apply Q2. rewrite <- Hk. assumption.
    + intros x px Hx Hpx Hox. apply elem_of_cons in Hx as [[= ->]|Hx].
      * rewrite Ha in Hpx. injection Hpx as <-. right.
        apply Q6; [assumption | left; assumption |].
        intros k Hin.
        destruct (Q4 k _ Hin) as (r & pr1 & [= <-] & _ & _ & _ & Hnew).
        destruct (decide ((k, Ptr a) ∈ nh)) as [Hold|Hnin].
        -- destruct (Hreps' k _ Hold) as (_ & r' & _ & [= <-] & _ & _ & _ & Hne).
           congruence.
        -- destruct (Hnew Hnin) as (Hal & _). contradiction.
      * destruct (Hval' _ Hx) as (x' & px' & [= <-] & Hpx' & _ & Hxa).
        rewrite Hpx in Hpx'. injection Hpx' as <-.
        apply Q5; [assumption | | assumption].
        rewrite H1x; [assumption | assumption |].
        intros ->. exact (Hcl' _ Hx eq_refl).
    + intros x px Hpx Hcond Hno.
      assert (Hxa : x <> a).
      { intros ->. rewrite Ha in Hpx. injection Hpx as <-.
        destruct Hcond as [Hc'|Hc']; [| contradiction].
        apply Hc'. apply elem_of_cons. left. reflexivity. }
      assert (Hxc : x <> c).
      { intros ->. apply (Hno (node pa)). apply Q2. assumption. }
      apply Q6; [rewrite H1x; assumption | | assumption].
      destruct Hcond as [Hc'|Hc']; [| auto].
      left. intros Hin. apply Hc'. apply elem_of_cons. right. assumption.
  - (* the first fragment for its next hop becomes the representative *)
    rewrite (summarize_step_first h nh a pa Ha Ho Hfind).
    pose proof (via_find_None _ _ Hfind) as Hfresh.
    destruct (via_insert_fresh (node pa) (Ptr a) nh Hfresh) as [Hins Hinsnd].
    set (nh1 := via_insert (node pa) (Ptr a) nh) in *.
    destruct (IH h nh1 Hnd) as (h' & nh' & Hrun & Q1 & Q2 & Q3 & Q4 & Q5 & Q6).
    { intros q Hq. destruct (Hval' q Hq) as (b & pb & ? & ? & ? & _).
      exists b, pb. auto. }
    { auto. }
    { intros k q Hq. apply Hins in Hq as [[= -> ->]|Hq].
      - split; [assumption |]. exists a, pa. auto.
      - destruct (Hreps' k q Hq) as (? & r & pr & ? & ? & ? & ? & _).
        split; [assumption |]. exists r, pr. auto. }
    exists h', nh'. split; [exact Hrun |].
    split; [assumption |].
    split; [intros e He; apply Q2; apply Hins; right; assumption |].
    split; [assumption |].
    assert (Hrep : (node pa, Ptr a) ∈ nh') by (apply Q2; apply Hins; left; reflexivity).
    split; [| split].
    + intros k q Hq.
      destruct (Q4 k q Hq) as (r & pr & -> & Hr & Hn & Hold & Hnew).
      exists r, pr. split; [reflexivity |]. split; [assumption |].
      split; [assumption |]. rewrite merged_flow_cons. split.
      * intros Hin. rewrite (Hold ltac:(apply Hins; right; assumption)).
        rewrite (fragment_flow_other origin_id k h a pa); [reflexivity | assumption |].
        right. intros Hk. apply (Hfresh (Ptr r)). rewrite Hk. assumption.
      * intros Hnin. destruct (decide ((k, Ptr r) ∈ nh1)) as [Hin1|Hnin1].
        -- apply Hins in Hin1 as [[= -> ->]|Hin1]; [| contradiction].
           rewrite Ha in Hr. injection Hr as <-.
           split; [apply elem_of_cons; left; reflexivity |].
           split; [assumption |].
           rewrite (Hold ltac:(apply Hins; left; reflexivity)).
           rewrite (fragment_flow_match origin_id (node pa) h a pa) by auto.
           reflexivity.
        -- destruct (Hnew Hnin1) as (Hrl & Ho1 & Hr').
           split; [apply elem_of_cons; right; assumption |].
           split; [assumption |].
           rewrite Hr'.
           rewrite (fragment_flow_other origin_id k h a pa); [reflexivity | assumption |].
           right. intros Hk. apply Hnin1.
           assert (Ptr r = Ptr a) as ->; [| apply Hins; left; rewrite Hk; reflexivity].
           eapply (keys_functional nh' k); [assumption | assumption |].
           rewrite <- Hk. assumption.
    + intros x px Hx Hpx Hox. apply elem_of_cons in Hx as [[= ->]|Hx].
      * rewrite Ha in Hpx. injection Hpx as <-. left. assumption.
      * apply Q5; assumption.
    + intros x px Hpx Hcond Hno. apply Q6; [assumption | | assumption].
      destruct Hcond as [Hc'|Hc']; [| auto].
      left. intros Hin. apply Hc'. apply elem_of_cons. right. assumption.
Qed.

End Merging.

(** C8: the depth-first search for cycles of one origin.  A resolved node
    makes the walk return at once.  An unvisited node is expanded: first
    the fragments of the origin attached to it are merged by next hop,
    the first fragment of each hop taking over the flows of the others,
    which are left with none; then the search recurses into the merged
    children that carry flow, and only into those, with the node marked in
    progress by the child followed; and when all children are done the node
    is marked resolved if no cycle was found below it and left unvisited
    otherwise. *)
Theorem C8_cycle_search_marks (origin_id : NodeID) (fuel : nat) (st : State)
    (path : list PathPtr) (stack : list (NodeID * positive)) (next_id : NodeID) :
  let l := default [] (Paths (job st) !! next_id) in
  fragments_valid st (length path) ->
  search_stack (heap st) path stack next_id ->
  0 <= next_id < Z.of_nat (length path) ->
  (length path - length stack < fuel)%nat ->
  NoDup l ->
  (forall a pa, Ptr a ∈ l -> heap st !! a = Some pa -> is_uint (flow pa)) ->
  (* a resolved node *)
  (at_node path next_id = Some invalid_path ->
   EliminateCycles_rec fuel origin_id st path next_id = Some (false, st, path)) /\
  (* the children of an unvisited node *)
  (forall rec found s P via child,
     deref (heap s) via.2 = Some child ->
     (flow child <= 0 ->
      EliminateCycles_child rec next_id (found, s, P) via = Some (found, s, P)) /\
     (0 < flow child ->
      EliminateCycles_child rec next_id (found, s, P) via =
        '(r, s', P') ← rec s (<[Z.to_nat next_id := via.2]> P) (node child);
        Some (r || found, s', P')) /\
     (length P = length path ->
      at_node (<[Z.to_nat next_id := via.2]> P) next_id = Some via.2)) /\
  (* an unvisited node *)
  (at_node path next_id = Some NULL ->
   exists h1 next_hops found st' P',
     summarize origin_id (heap st) l = Some (h1, next_hops) /\
     NoDup (next_hops.*1) /\
     (forall k p, (k, p) ∈ next_hops ->
        exists r pr, p = Ptr r /\ p ∈ l /\ heap st !! r = Some pr /\
          node pr = k /\ origin pr = origin_id /\
          h1 !! r = Some (set_flow (u32 (merged_flow origin_id k (heap st) l)) pr)) /\
     (forall a pa, Ptr a ∈ l -> heap st !! a = Some pa -> origin pa = origin_id ->
        (node pa, Ptr a) ∈ next_hops \/ h1 !! a = Some (set_flow 0 pa)) /\
     (forall a pa, heap st !! a = Some pa ->
        Ptr a ∉ l \/ origin pa <> origin_id -> h1 !! a = Some pa) /\
     fold_opt (EliminateCycles_child (EliminateCycles_rec (pred fuel) origin_id)
                                     next_id)
              next_hops (false, set_heap h1 st, path) = Some (found, st', P') /\
     EliminateCycles_rec fuel origin_id st path next_id =
       Some (found, st',
             <[Z.to_nat next_id := if found then NULL else invalid_path]> P') /\
     at_node (<[Z.to_nat next_id := if found then NULL else invalid_path]> P')
             next_id = Some (if found then NULL else invalid_path) /\
     path_evolves path
       (<[Z.to_nat next_id := if found then NULL else invalid_path]> P')).
Proof.
  intros l Hfrag Hss Hrange Hfuel Hnd Huint.
  destruct fuel as [|n]; [lia |].
  split; [| split].
  - intros Hp. cbn [EliminateCycles_rec]. rewrite Hp. reflexivity.
  - intros rec found s P via child Hchild.
    split; [| split].
    + intros Hf. unfold EliminateCycles_child. rewrite Hchild. simpl.
      destruct (Z.ltb_spec 0 (flow child)); [lia | reflexivity].
    + intros Hf. unfold EliminateCycles_child. rewrite Hchild. simpl.
      destruct (Z.ltb_spec 0 (flow child)); [reflexivity | lia].
    + intros HP. apply at_node_insert_eq. lia.
  - intros Hp.
    destruct (EliminateCycles_rec_returns origin_id (S n) st path stack next_id
                Hfrag Hss Hrange Hfuel) as (found & st' & path' & Hret & _ & Hev).
    pose proof Hret as Hret'.
    cbn [EliminateCycles_rec] in Hret'. rewrite Hp in Hret'. simpl in Hret'.
    fold l in Hret'.
    destruct (summarize origin_id (heap st) l) as [[h1 nh]|] eqn:Hsum;
      [| discriminate].
    simpl in Hret'.
    destruct (fold_opt _ nh _) as [[[found2 st2] P2]|] eqn:Hfold; [| discriminate].
    simpl in Hret'. injection Hret' as <- <- <-.
    destruct (summarize_fold_merges origin_id l (heap st) [] Hnd)
      as (h1' & nh' & Hsum' & Q1 & _ & _ & Q4 & Q5 & Q6).
    { intros p Hin.
      assert (Hv : valid_fragment (heap st) (length path) p).
      { unfold l in Hin.
        destruct (Paths (job st) !! next_id) as [l'|] eqn:Hl'; simpl in Hin.
        - eapply Hfrag; eassumption.
        - apply elem_of_nil in Hin. contradiction. }
      destruct Hv as (a & m & -> & Ha & _). unfold node_at in Ha.
      destruct (heap st !! a) as [pa|] eqn:Hpa; [| discriminate].
      exists a, pa. split; [reflexivity |]. split; [exact Hpa |].
      eapply Huint; eassumption. }
    { constructor. }
    { intros k p Hin. apply elem_of_nil in Hin. contradiction. }
    unfold summarize in Hsum. rewrite Hsum in Hsum'. injection Hsum' as <- <-.
    exists h1, nh, found2, st2, P2.
    split; [reflexivity |]. split; [assumption |].
    split; [| split; [| split; [| split; [| split; [| split]]]]].
    + intros k p Hin.
      destruct (Q4 k p Hin) as (r & pr & -> & Hr & Hn & _ & Hnew).
      destruct (Hnew ltac:(apply not_elem_of_nil)) as (Hl & Ho & Hr').
      exists r, pr. auto 10.
    + assumption.
    + intros a pa Hpa Hcond.
      apply Q6; [assumption | assumption |].
      intros k Hk.
      destruct (Q4 k _ Hk) as (r & pr & [= <-] & Hr & _ & _ & Hnew).
      destruct (Hnew ltac:(apply not_elem_of_nil)) as (Hl & Ho & _).
      rewrite Hpa in Hr. injection Hr as <-. tauto.
    + exact Hfold.
    + exact Hret.
    + apply at_node_insert_eq.
      pose proof (Forall2_length _ _ _ Hev) as Hlen.
      rewrite length_insert in Hlen. lia.
    + exact Hev.
Qed.

(** ** The properties at work on example jobs *)

(** A path of distance 20 gives way to one from the root over an edge of
    distance 11, both with free capacity. *)
Lemma C2_distance_IsBetter_rule_witness :
  is_uint (distance (Path_new 0 true) + 11) /\
  DistanceAnnotation.IsBetter
    (forked_annotation 2 10 4 20) (Path_new 0 true) 10 5 11 = true.
Proof.
  assert (Hfit : is_uint (distance (Path_new 0 true) + 11))
    by (vm_compute; split; discriminate).
  split; [exact Hfit |].
  apply (proj2 (proj2 (C2_distance_IsBetter_rule
                         (forked_annotation 2 10 4 20) (Path_new 0 true)
                         10 5 11) Hfit)).
  vm_compute. reflexivity.
Defined.

(** C2, with the sum of the numbers, fails where the sum of the [uint]s
    wraps: a base at distance 4294967290 extended by an edge of distance
    10 has the distance 4 for the code and is taken over a path of distance
    100, while 4294967300 is no less than 100. *)
Lemma C2_distance_sum_wraps :
  DistanceAnnotation.IsBetter
    (forked_annotation 2 10 5 100) (forked_annotation 1 10 5 4294967290)
    10 5 10 = true /\
  ~ DistanceAnnotation.better_spec
      (forked_annotation 2 10 5 100) (forked_annotation 1 10 5 4294967290)
      5 10.
Proof.
  split; [vm_compute; reflexivity |].
  vm_compute. intros H. discriminate.
Qed.

(** The push for node 1 of the chain moves the whole demand of 10. *)
Lemma C6_PushFlow_amount_witness :
  0 < UnsatisfiedDemand (get_edge (job chain_searched) 0 1) /\
  UnsatisfiedDemand (get_edge (job chain_searched) 0 1) <= UINT_MAX /\
  0 < 1 /\
  exists st',
    PushFlow chain_searched 0 1 (Ptr 2) 1 100 = Some (10, st') /\
    UnsatisfiedDemand (get_edge (job st') 0 1) = 0.
Proof.
  assert (H1 : 0 < UnsatisfiedDemand (get_edge (job chain_searched) 0 1))
    by (vm_compute; reflexivity).
  assert (H2 : UnsatisfiedDemand (get_edge (job chain_searched) 0 1) <= UINT_MAX)
    by (vm_compute; discriminate).
  assert (H3 : 0 < 1) by reflexivity.
  split; [exact H1 |]. split; [exact H2 |]. split; [exact H3 |].
  destruct (C6_PushFlow_amount chain_searched 0 1 (Ptr 2) 1 100 10
              (default chain_searched
                 (snd <$> AddFlow chain_searched (Ptr 2) 10 100))
              H1 H2 H3)
    as (st' & Hpush & _ & _ & Hu & _).
  - vm_compute. reflexivity.
  - exists st'. split; [exact Hpush |]. rewrite Hu. vm_compute. reflexivity.
Defined.

(** Both comparators are strict. *)
Lemma DistanceAnno_strict : strict_comparator DistanceAnno.
Proof.
  split.
  - intros x px. simpl. unfold DistanceAnnotation.Comparator, ptr_eqb.
    rewrite bool_decide_eq_true_2 by reflexivity. reflexivity.
  - intros x y px py Hxy Hn. simpl.
    unfold DistanceAnnotation.Comparator, ptr_eqb, Greater.
    rewrite (bool_decide_eq_false_2 (x = y)) by assumption.
    rewrite (bool_decide_eq_false_2 (y = x)) by congruence.
    simpl.
    destruct (Z.ltb_spec (DistanceAnnotation.GetAnnotation py)
                         (DistanceAnnotation.GetAnnotation px)),
             (Z.ltb_spec (DistanceAnnotation.GetAnnotation px)
                         (DistanceAnnotation.GetAnnotation py)),
             (Z.ltb_spec (node py) (node px)),
             (Z.ltb_spec (node px) (node py));
      simpl; try reflexivity; lia.
Qed.

Lemma CapacityAnno_strict : strict_comparator CapacityAnno.
Proof.
  split.
  - intros x px. simpl. unfold CapacityAnnotation.Comparator, ptr_eqb.
    rewrite bool_decide_eq_true_2 by reflexivity. reflexivity.
  - intros x y px py Hxy Hn. simpl.
    unfold CapacityAnnotation.Comparator, ptr_eqb, Greater.
    rewrite (bool_decide_eq_false_2 (x = y)) by assumption.
    rewrite (bool_decide_eq_false_2 (y = x)) by congruence.
    simpl.
    destruct (Z.ltb_spec
                (CapacityAnnotation.GetAnnotation GetCapacityRatio_spec py)
                (CapacityAnnotation.GetAnnotation GetCapacityRatio_spec px)),
             (Z.ltb_spec
                (CapacityAnnotation.GetAnnotation GetCapacityRatio_spec px)
                (CapacityAnnotation.GetAnnotation GetCapacityRatio_spec py)),
             (Z.ltb_spec (node py) (node px)),
             (Z.ltb_spec (node px) (node py));
      simpl; try reflexivity; lia.
Qed.

(** The relaxation of the direct link of the triangle in the search from
    node 0: the annotation of node 2, last in the set, is taken out,
    forked from the root and put back in front of the annotation of
    node 1, which has not been reached. *)
Lemma C4_Dijkstra_relax_step_witness :
  (2 : NodeID) <> 0 /\
  0 <= Distance (get_edge (job triangle_annotated) 0 2) < UINT_MAX /\
  (3 <> 1)%positive /\
  strict_comparator DistanceAnno /\
  frontier_live (heap triangle_annotated) [Ptr 2; Ptr 3]
    (Ptr 3) (Path_new 2 false) /\
  frontier_sorted (A := DistanceAnno) (heap triangle_annotated)
    [Ptr 2; Ptr 3] /\
  old_parent_apart (heap triangle_annotated) [Ptr 2; Ptr 3]
    (Path_new 2 false) (Ptr 1) /\
  set_erase (A := DistanceAnno) (heap triangle_annotated) (Ptr 3)
    [Ptr 2; Ptr 3] = Some [Ptr 2] /\
  exists h',
    Dijkstra_relax (A := DistanceAnno) 100 [Ptr 1; Ptr 2; Ptr 3] (Ptr 1) 0
      (triangle_annotated, [Ptr 2; Ptr 3]) 2
    = Some (set_heap h' triangle_annotated, [Ptr 3; Ptr 2]) /\
    (distance <$> h' !! 3%positive) = Some 6.
Proof.
  assert (H1 : (2 : NodeID) <> 0) by discriminate.
  assert (H2 : 0 <= Distance (get_edge (job triangle_annotated) 0 2) < UINT_MAX)
    by (vm_compute; split; [discriminate | reflexivity]).
  assert (H3 : (3 <> 1)%positive) by discriminate.
  assert (H4 : frontier_live (heap triangle_annotated) [Ptr 2; Ptr 3]
                 (Ptr 3) (Path_new 2 false)).
  { intros y Hy.
    apply elem_of_cons in Hy as [->|Hy];
      [| apply list_elem_of_singleton in Hy as ->].
    - exists 2%positive, (Path_new 1 false).
      split; [reflexivity |]. split; [vm_compute; reflexivity |].
      intros _. discriminate.
    - exists 3%positive, (Path_new 2 false).
      split; [reflexivity |]. split; [vm_compute; reflexivity |].
      intros H. contradiction H. reflexivity. }
  assert (H5 : frontier_sorted (A := DistanceAnno) (heap triangle_annotated)
                 [Ptr 2; Ptr 3]).
  { simpl. split; [| split; [constructor | exact I]].
    constructor; [vm_compute; reflexivity | constructor]. }
  assert (H6 : old_parent_apart (heap triangle_annotated) [Ptr 2; Ptr 3]
                 (Path_new 2 false) (Ptr 1)) by exact I.
  split; [exact H1 |]. split; [exact H2 |]. split; [exact H3 |].
  split; [exact DistanceAnno_strict |]. split; [exact H4 |].
  split; [exact H5 |]. split; [exact H6 |].
  destruct (proj2 (proj2 (proj2 (proj2
    (C4_Dijkstra_relax_step (A := DistanceAnno) 100 [Ptr 1; Ptr 2; Ptr 3]
       (Ptr 1) 0 2 triangle_annotated [Ptr 2; Ptr 3]))) H1 H2
    (Ptr 3) (Path_new 2 false) (Path_new 0 true)
    eq_refl eq_refl eq_refl) eq_refl 3%positive 1%positive eq_refl eq_refl
    H3 DistanceAnno_strict H4 H5 H6)
    as (h' & annos2 & pd' & Hrun & Herase & _ & Hpd' & _ & _ & _ & Hdist & _).
  split; [exact Herase |].
  exists h'.
  assert (annos2 = [Ptr 3; Ptr 2]) as ->.
  { vm_compute in Hrun. injection Hrun as _ <-. reflexivity. }
  split; [exact Hrun |].
  rewrite Hpd'. simpl. rewrite Hdist. reflexivity.
Defined.

(** The circle of [loop_state] carries a flow of 3, which is taken off
    the link from node 1 to node 2 entirely. *)
Lemma C7_cycle_flow_eliminated_witness :
  NoDup [1%positive; 2%positive; 3%positive] /\
  cycle_links (heap loop_state) loop_path 1 [1%positive; 2%positive; 3%positive] /\
  exists st',
    FindCycleFlow 3 (heap loop_state) loop_path (Ptr 1) = Some 3 /\
    EliminateCycle 3 loop_path (Ptr 1) 3 loop_state = Some st' /\
    Flow (get_edge (job st') 1 2) = 0.
Proof.
  assert (H1 : NoDup [1%positive; 2%positive; 3%positive]).
  { refine (bool_decide_unpack _ _). vm_compute. exact I. }
  assert (H2 : cycle_links (heap loop_state) loop_path 1
                 [1%positive; 2%positive; 3%positive]).
  { repeat split; eexists; split; reflexivity. }
  assert (H3 : forall a pa, a ∈ [1%positive; 2%positive; 3%positive] ->
                 heap loop_state !! a = Some pa -> is_uint (flow pa)).
  { intros a pa Ha Hpa. rewrite !elem_of_cons in Ha.
    destruct Ha as [->|[->|[->|Ha]]];
      [| | | apply elem_of_nil in Ha; contradiction];
      vm_compute in Hpa; injection Hpa as <-;
      vm_compute; split; discriminate. }
  split; [exact H1 |]. split; [exact H2 |].
  destruct (C7_cycle_flow_eliminated loop_state loop_path 1
              [2%positive; 3%positive] 3 H1 H2 H3 (le_n _))
    as (f & st' & Hfind & _ & _ & Hel & _ & _ & _ & _ & Hedge & _).
  assert (Hf : f = 3).
  { vm_compute in Hfind. injection Hfind as <-. reflexivity. }
  subst f. exists st'. split; [exact Hfind |]. split; [exact Hel |].
  rewrite (Hedge 1 2).
  - vm_compute. reflexivity.
  - apply elem_of_cons. left. reflexivity.
Defined.

(** On the chain, after the push for node 1, node 2 gets a saturating
    push that moves nothing and then the overloading push, along a path
    with positive free capacity. *)
Lemma C1_overload_after_failed_push_witness :
  exists st' ml' c0 c,
    MCF1stPass_dest 100 1 0 chain_paths (chain_pushed, false, []) 2
      = Some (st', ml', [c0; c]) /\
    call_kind c = OverloadingPush /\ 0 < call_free_capacity c /\
    call_kind c0 = SaturatingPush /\ call_pushed c0 = 0.
Proof.
  destruct (MCF1stPass_dest 100 1 0 chain_paths (chain_pushed, false, []) 2)
    as [[[st' ml'] log']|] eqn:E; [| vm_compute in E; discriminate].
  destruct (C1_overload_after_failed_push _ _ _ _ _ _ _ _ _ _ _ E)
    as (new & Hlog & _ & Hover & _).
  simpl in Hlog. subst log'.
  assert (Hnew : exists c0 c, new = [c0; c] /\ call_kind c = OverloadingPush /\
                              0 < call_free_capacity c).
  { vm_compute in E. injection E as _ _ <-.
    eexists _, _. split; [reflexivity |]. split; reflexivity. }
  destruct Hnew as (c0 & c & -> & Hk & Hfree).
  destruct (Hover c ltac:(apply elem_of_cons; right; apply elem_of_cons; left;
                          reflexivity) Hk)
    as (_ & _ & [Hle|(c0' & Heq & Hk0 & _ & Hp0)]); [lia |].
  injection Heq as <-.
  exists st', ml', c0, c. auto.
Defined.

Lemma wf_demand_residual : wf_demand (job residual_start).
Proof.
  intros k e He. unfold residual_start, residual_job in He.
  cbn [job edges] in He. apply lookup_singleton_Some in He as [_ <-].
  vm_compute. split; discriminate.
Defined.


Lemma fragments_validb_sound (st : State) (len : nat) :
  fragments_validb st len = true -> fragments_valid st len.
Proof.
  unfold fragments_validb. intros H. apply bool_decide_eq_true_1 in H.
  intros k l p Hl Hin. specialize (H k l Hl). simpl in H.
  rewrite forallb_forall in H. specialize (H p).
  rewrite <- list_elem_of_In in H. specialize (H Hin).
  unfold valid_fragmentb in H. destruct p as [| |a]; try discriminate.
  destruct (node_at (heap st) a) as [n|] eqn:Hn; [| discriminate].
  apply andb_prop in H as [H1 H2].
  apply Z.leb_le in H1. apply Z.ltb_lt in H2.
  exists a, n. auto.
Defined.

Lemma search_stack_start (h : gmap positive Path) (len : nat) (next_id : NodeID) :
  search_stack h (replicate len NULL) [] next_id.
Proof.
  split; [exact I |]. split; [constructor |].
  intros k c Hk. apply at_node_lookup in Hk as [_ Hk].
  apply lookup_replicate in Hk as [Hk _]. discriminate.
Defined.

(** The search from node 0 of [loop_state] returns and marks node 0. *)
Lemma C8_cycle_search_marks_witness :
  fragments_valid loop_state 3 /\
  search_stack (heap loop_state) [NULL; NULL; NULL] [] 0 /\
  exists found st' path',
    EliminateCycles_rec 4 0 loop_state [NULL; NULL; NULL] 0
      = Some (found, st', path') /\
    at_node path' 0 = Some (if found then NULL else invalid_path).
Proof.
  assert (H1 : fragments_valid loop_state 3).
  { apply fragments_validb_sound. vm_compute. reflexivity. }
  assert (H2 : search_stack (heap loop_state) [NULL; NULL; NULL] [] 0)
    by exact (search_stack_start (heap loop_state) 3 0).
  assert (H3 : 0 <= 0 < Z.of_nat (length [NULL; NULL; NULL]))
    by (simpl; lia).
  assert (H4 : (length [NULL; NULL; NULL] - length (@nil (NodeID * positive)) < 4)%nat)
    by (simpl; lia).
  assert (H5 : NoDup (default [] (Paths (job loop_state) !! 0))).
  { refine (bool_decide_unpack _ _). vm_compute. exact I. }
  assert (H6 : forall a pa,
            Ptr a ∈ default [] (Paths (job loop_state) !! 0) ->
            heap loop_state !! a = Some pa -> is_uint (flow pa)).
  { intros a pa Ha Hpa.
    change (default [] (Paths (job loop_state) !! 0)) with [Ptr 1; Ptr 4] in Ha.
    rewrite !elem_of_cons in Ha.
    destruct Ha as [[= ->]|[[= ->]|Ha]];
      [| | apply elem_of_nil in Ha; contradiction];
      vm_compute in Hpa; injection Hpa as <-;
      vm_compute; split; discriminate. }
  split; [exact H1 |]. split; [exact H2 |].
  destruct (proj2 (proj2 (C8_cycle_search_marks 0 4 loop_state
                            [NULL; NULL; NULL] [] 0 H1 H2 H3 H4 H5 H6))
              eq_refl)
    as (h1 & nh & found & st' & P' & _ & _ & _ & _ & _ & _ & Hret & Hmark & _).
  exists found, st', (<[Z.to_nat 0 := if found then NULL else invalid_path]> P').
  split; [exact Hret | exact Hmark].
Defined.

(** Scenario S2: the first pass routes the demand of the triangle over
    the detour, whose distance of 4 beats the 6 of the direct link. *)
Example triangle_takes_detour :
  exists st log,
    MCF1stPass 10 10 100 triangle_start [] = Finished (st, log) /\
    Flow (get_edge (job st) 0 1) = 8 /\ Flow (get_edge (job st) 1 2) = 8 /\
    Flow (get_edge (job st) 0 2) = 0 /\
    UnsatisfiedDemand (get_edge (job st) 0 2) = 0.
Proof.
  destruct (MCF1stPass 10 10 100 triangle_start []) as [[st log]| |] eqn:E;
    vm_compute in E; try discriminate.
  exists st, log. split; [reflexivity |].
  injection E as <- <-. vm_compute. auto.
Qed.

(** Scenario S6: of two routes of equal cost the one over the node with
    the lower ID is taken, whatever the order of the edges. *)
Example tie_goes_to_lower_node :
  exists st log,
    MCF1stPass 10 10 100 diamond_start [] = Finished (st, log) /\
    Flow (get_edge (job st) 0 1) = 5 /\ Flow (get_edge (job st) 1 3) = 5 /\
    Flow (get_edge (job st) 0 2) = 0 /\ Flow (get_edge (job st) 2 3) = 0.
Proof.
  destruct (MCF1stPass 10 10 100 diamond_start []) as [[st log]| |] eqn:E;
    vm_compute in E; try discriminate.
  exists st, log. split; [reflexivity |].
  injection E as <- <-. vm_compute. auto.
Qed.

(** Scenario S3: the second pass takes up the residual demand in four
    sweeps of 12, 12, 12 and 6 units; three sweeps do not suffice. *)
Example residual_demand_absorbed :
  (exists st, MCF2ndPass 43 10 residual_start = Finished st /\
              Flow (get_edge (job st) 0 1) = 50 /\
              UnsatisfiedDemand (get_edge (job st) 0 1) = 0) /\
  MCF2ndPass 3 10 residual_start = OutOfFuel.
Proof.
  split; [| vm_compute; reflexivity].
  destruct (MCF2ndPass 43 10 residual_start) as [st| |] eqn:E;
    vm_compute in E; try discriminate.
  exists st. split; [reflexivity |].
  injection E as <-. vm_compute. auto.
Qed.

(** Scenario S4: the circle of flow 3 is taken off the three links and off
    the fragments on them, after the two parallel fragments on the first
    link were merged, and the sweep reports a cycle. *)
Example circle_cancelled :
  exists st,
    EliminateCycles 4 loop_state = Some (true, st) /\
    Flow (get_edge (job st) 0 1) = 4 /\ Flow (get_edge (job st) 1 2) = 0 /\
    Flow (get_edge (job st) 2 0) = 1 /\
    flow <$> heap st !! 1%positive = Some 4 /\
    flow <$> heap st !! 4%positive = Some 0.
Proof.
  destruct (EliminateCycles 4 loop_state) as [[found st]|] eqn:E;
    vm_compute in E; try discriminate.
  exists st. injection E as <- <-. split; [reflexivity |]. vm_compute. auto 10.
Qed.

(** * Further properties of the solver *)

(** ** The order of the annotations *)

(** Case analysis on every comparison of a goal about [Greater] and the
    comparators. *)
Ltac order_cases :=
  repeat match goal with
         | |- context [bool_decide ?P] => destruct (bool_decide_reflect P)
         | H : context [bool_decide ?P] |- _ => destruct (bool_decide_reflect P)
         | |- context [?a <? ?b] => destruct (Z.ltb_spec a b)
         | H : context [?a <? ?b] |- _ => destruct (Z.ltb_spec a b)
         end;
  simpl in *; try reflexivity; try discriminate; try congruence; try lia.

(** X1: [Greater] is the strict lexicographic order on pairs of an
    annotation value and a node ID: it holds exactly when the first value
    is larger, or the values are equal and the first node ID is larger.  It
    is irreflexive, asymmetric and transitive, and any two different pairs
    are ordered one way or the other. *)
Theorem X1_Greater_lexicographic (a b c : Z) (x y z : NodeID) :
  (Greater a b x y = true <-> b < a \/ (a = b /\ y < x)) /\
  Greater a a x x = false /\
  (Greater a b x y = true -> Greater b a y x = false) /\
  (Greater a b x y = true -> Greater b c y z = true -> Greater a c x z = true) /\
  ((a, x) <> (b, y) -> Greater a b x y = true \/ Greater b a y x = true).
Proof.
  unfold Greater. split; [| split; [| split; [| split]]].
  - split; intros H; order_cases.
  - order_cases.
  - intros H; order_cases.
  - intros H1 H2; order_cases.
  - intros H.
    assert (a <> b \/ x <> y) as Hd.
    { destruct (decide (a = b)) as [->|]; [| left; assumption].
      right. intros ->. apply H. reflexivity. }
    destruct (Z.ltb_spec b a); [left; reflexivity |].
    destruct (Z.ltb_spec a b); [right; reflexivity |].
    destruct (Z.ltb_spec y x); [left; reflexivity |].
    destruct (Z.ltb_spec x y); [right; reflexivity | lia].
Qed.

Section ComparatorOrders.

Variable ratio : Z -> Z -> Z.

(** The object behind each address. *)
Variable obj : PathPtr -> Path.

(** X2: [CapacityAnnotation::Comparator] is a strict weak ordering of the
    annotation objects, whatever they hold: no object is before itself, the
    relation is asymmetric and transitive, and being unordered (neither
    before the other) is transitive as well. *)
Theorem X2_capacity_comparator_weak_order (x y z : PathPtr) :
  let comp := fun p q =>
    CapacityAnnotation.Comparator ratio p q (obj p) (obj q) in
  comp x x = false /\
  (comp x y = true -> comp y x = false) /\
  (comp x y = true -> comp y z = true -> comp x z = true) /\
  (comp x y = false -> comp y x = false ->
   comp y z = false -> comp z y = false ->
   comp x z = false /\ comp z x = false).
Proof.
  cbv zeta.
  unfold CapacityAnnotation.Comparator, Greater, ptr_eqb.
  set (cx := CapacityAnnotation.GetAnnotation ratio (obj x)).
  set (cy := CapacityAnnotation.GetAnnotation ratio (obj y)).
  set (cz := CapacityAnnotation.GetAnnotation ratio (obj z)).
  split; [| split; [| split]].
  - rewrite bool_decide_eq_true_2 by reflexivity. reflexivity.
  - intros H. order_cases.
  - intros H1 H2.
    destruct (decide (x = z)) as [->|Hxz].
    + exfalso. fold cx in cz. subst cz. order_cases.
    + rewrite (bool_decide_eq_false_2 (x = z)) by assumption. order_cases.
  - intros H1 H2 H3 H4.
    destruct (decide (x = y)) as [->|Hxy]; [split; assumption |].
    destruct (decide (y = z)) as [->|Hyz]; [split; assumption |].
    rewrite (bool_decide_eq_false_2 (x = y)) in H1 by assumption.
    rewrite (bool_decide_eq_false_2 (y = x)) in H2 by congruence.
    rewrite (bool_decide_eq_false_2 (y = z)) in H3 by assumption.
    rewrite (bool_decide_eq_false_2 (z = y)) in H4 by congruence.
    split; order_cases.
Qed.

(** X3: among annotations of which no two end at the same node (objects
    at different addresses end at different nodes, as the one annotation
    per node of a search), [DistanceAnnotation::Comparator] is a strict
    total order: irreflexive, asymmetric, transitive, and any two distinct
    objects are ordered. *)
Theorem X3_distance_comparator_total_order (x y z : PathPtr) :
  (node (obj x) = node (obj y) -> x = y) ->
  (node (obj y) = node (obj z) -> y = z) ->
  (node (obj x) = node (obj z) -> x = z) ->
  let comp := fun p q => DistanceAnnotation.Comparator p q (obj p) (obj q) in
  comp x x = false /\
  (comp x y = true -> comp y x = false) /\
  (comp x y = true -> comp y z = true -> comp x z = true) /\
  (x <> y -> comp x y = true \/ comp y x = true).
Proof.
  intros Hxy Hyz Hxz. cbv zeta.
  unfold DistanceAnnotation.Comparator, Greater, ptr_eqb.
  set (dx := DistanceAnnotation.GetAnnotation (obj x)) in *.
  set (dy := DistanceAnnotation.GetAnnotation (obj y)) in *.
  set (dz := DistanceAnnotation.GetAnnotation (obj z)) in *.
  split; [| split; [| split]].
  - rewrite bool_decide_eq_true_2 by reflexivity. reflexivity.
  - intros H.
    destruct (decide (x = y)) as [->|Hne].
    + rewrite bool_decide_eq_true_2 by reflexivity. reflexivity.
    + assert (node (obj x) <> node (obj y)) by (intros E; auto).
      rewrite (bool_decide_eq_false_2 (x = y)) in H by assumption.
      rewrite (bool_decide_eq_false_2 (y = x)) by congruence.
      order_cases.
  - intros H1 H2.
    destruct (decide (x = y)) as [->|Hne1];
      [rewrite bool_decide_eq_true_2 in H1 by reflexivity; discriminate |].
    destruct (decide (y = z)) as [->|Hne2];
      [rewrite bool_decide_eq_true_2 in H2 by reflexivity; discriminate |].
    assert (node (obj x) <> node (obj y)) by (intros E; auto).
    assert (node (obj y) <> node (obj z)) by (intros E; auto).
    rewrite (bool_decide_eq_false_2 (x = y)) in H1 by assumption.
    rewrite (bool_decide_eq_false_2 (y = z)) in H2 by assumption.
    destruct (decide (x = z)) as [->|Hne3].
    + exfalso. fold dx in dz. subst dz. order_cases.
    + rewrite (bool_decide_eq_false_2 (x = z)) by assumption. order_cases.
  - intros Hne.
    assert (node (obj x) <> node (obj y)) by (intros E; auto).
    rewrite (bool_decide_eq_false_2 (x = y)) by assumption.
    rewrite (bool_decide_eq_false_2 (y = x)) by congruence.
    order_cases; auto.
Qed.

(** X4: a candidate never beats itself.  Once an annotation holds the
    capacity, free capacity and distance of [base] extended by an edge,
    [CapacityAnnotation::IsBetter] rejects that same extension, and so does
    [DistanceAnnotation::IsBetter] unless the distance has come out as
    [UINT_MAX], the mark of a disconnected path. *)
Theorem X4_candidate_never_beats_itself (this base : Path)
    (cap free_cap dist : Z) :
  capacity this = Z.min (capacity base) cap ->
  free_capacity this = Z.min (free_capacity base) free_cap ->
  distance this = u32 (distance base + dist) ->
  CapacityAnnotation.IsBetter ratio this base cap free_cap dist = false /\
  (distance this <> UINT_MAX ->
   DistanceAnnotation.IsBetter this base cap free_cap dist = false).
Proof.
  intros Hc Hf Hd. split.
  - unfold CapacityAnnotation.IsBetter, CapacityAnnotation.Path_GetCapacityRatio.
    rewrite Hc, Hf, Hd, Z.eqb_refl, Z.ltb_irrefl.
    destruct (distance base =? UINT_MAX); reflexivity.
  - intros Hconn. unfold DistanceAnnotation.IsBetter.
    destruct (distance base =? UINT_MAX); [reflexivity |].
    destruct (Z.eqb_spec (distance this) UINT_MAX); [contradiction |].
    rewrite Hf, Hd, Z.ltb_irrefl.
    destruct (Z.ltb_spec 0 free_cap), (Z.ltb_spec 0 (free_capacity base)),
      (Z.ltb_spec 0 (Z.min (free_capacity base) free_cap));
      simpl; try reflexivity; lia.
Qed.

End ComparatorOrders.

(** One fresh annotation per address. *)
Lemma X3_distance_comparator_total_order_witness :
  (forall p q, node (annotation_at p) = node (annotation_at q) -> p = q) /\
  Ptr 1 <> Ptr 2 /\
  (DistanceAnnotation.Comparator (Ptr 1) (Ptr 2)
     (annotation_at (Ptr 1)) (annotation_at (Ptr 2)) = true \/
   DistanceAnnotation.Comparator (Ptr 2) (Ptr 1)
     (annotation_at (Ptr 2)) (annotation_at (Ptr 1)) = true).
Proof.
  assert (H : forall p q,
             node (annotation_at p) = node (annotation_at q) -> p = q).
  { intros [| |a] [| |b]; simpl; intros E; try reflexivity; try discriminate.
    injection E as ->. reflexivity. }
  assert (Hne : Ptr 1 <> Ptr 2) by discriminate.
  split; [exact H |]. split; [exact Hne |].
  exact (proj2 (proj2 (proj2
           (X3_distance_comparator_total_order annotation_at
              (Ptr 1) (Ptr 2) (Ptr 3) (H _ _) (H _ _) (H _ _)))) Hne).
Defined.

(** The annotation of node 2 forked under the root at node 0 over an edge
    of capacity 10, free capacity 4 and distance 6. *)
Lemma X4_candidate_never_beats_itself_witness :
  capacity (forked_annotation 2 10 4 6) = Z.min (capacity (Path_new 0 true)) 10 /\
  free_capacity (forked_annotation 2 10 4 6)
    = Z.min (free_capacity (Path_new 0 true)) 4 /\
  distance (forked_annotation 2 10 4 6) = u32 (distance (Path_new 0 true) + 6) /\
  CapacityAnnotation.IsBetter GetCapacityRatio_spec
    (forked_annotation 2 10 4 6) (Path_new 0 true) 10 4 6 = false.
Proof.
  assert (H1 : capacity (forked_annotation 2 10 4 6)
               = Z.min (capacity (Path_new 0 true)) 10) by reflexivity.
  assert (H2 : free_capacity (forked_annotation 2 10 4 6)
               = Z.min (free_capacity (Path_new 0 true)) 4) by reflexivity.
  assert (H3 : distance (forked_annotation 2 10 4 6)
               = u32 (distance (Path_new 0 true) + 6)) by reflexivity.
  split; [exact H1 |]. split; [exact H2 |]. split; [exact H3 |].
  exact (proj1 (X4_candidate_never_beats_itself GetCapacityRatio_spec
                  (forked_annotation 2 10 4 6) (Path_new 0 true) 10 4 6
                  H1 H2 H3)).
Defined.

(** ** The edge iterators *)

Lemma station_to_node_prefix (j : LinkGraphJob) (n : nat) (s : StationID)
    (i : NodeID) :
  foldl (fun m i => <[default 0 (Station j !! i) := i]> m)
        (∅ : gmap StationID NodeID) (seqZ 0 (Z.of_nat n)) !! s = Some i <->
  0 <= i < Z.of_nat n /\ default 0 (Station j !! i) = s /\
  forall k, i < k < Z.of_nat n -> default 0 (Station j !! k) <> s.
Proof.
  induction n as [|n IH].
  - simpl. rewrite lookup_empty. split; [discriminate | lia].
  - rewrite seqZ_S, foldl_snoc, Z.add_0_l.
    destruct (decide (default 0 (Station j !! Z.of_nat n) = s)) as [Hs|Hs].
    + rewrite Hs, lookup_insert_eq. split.
      * intros [= <-]. split; [lia |]. split; [assumption | lia].
      * intros (Hr & _ & Hlast). f_equal.
        destruct (decide (i = Z.of_nat n)) as [->|Hne]; [reflexivity |].
        exfalso. apply (Hlast (Z.of_nat n)); [lia | assumption].
    + rewrite lookup_insert_ne by assumption. rewrite IH. split.
      * intros (Hr & Hi & Hlast). split; [lia |]. split; [assumption |].
        intros k Hk. destruct (decide (k = Z.of_nat n)) as [->|]; [assumption |].
        apply Hlast. lia.
      * intros (Hr & Hi & Hlast).
        assert (i <> Z.of_nat n) by (intros ->; contradiction).
        split; [lia |]. split; [assumption |].
        intros k Hk. apply Hlast. lia.
Qed.

Lemma station_to_node_lookup (j : LinkGraphJob) (s : StationID) (i : NodeID) :
  station_to_node j !! s = Some i <->
  0 <= i < Size j /\ default 0 (Station j !! i) = s /\
  forall k, i < k < Size j -> default 0 (Station j !! k) <> s.
Proof.
  unfold station_to_node.
  destruct (Z_lt_le_dec (Size j) 0) as [Hneg|Hpos].
  - rewrite seqZ_nil by lia. simpl. rewrite lookup_empty.
    split; [discriminate | lia].
  - rewrite <- (Z2Nat.id (Size j)) by assumption.
    apply station_to_node_prefix.
Qed.

(** X5: in a job of at most 65535 nodes, which the [NodeID] counter of
    its loop can count, the table [station_to_node] the constructor of
    [FlowEdgeIterator] fills maps a station to the last node of the job
    that has it: a later node overwrites an earlier one with the same
    station, and a station no node has is not in the table.  When the
    stations of the nodes are pairwise different, looking up the station
    of a node gives the node back. *)
Theorem X5_station_to_node_last_wins (j : LinkGraphJob) (s : StationID) :
  Size j <= INVALID_NODE ->
  (forall i, station_to_node j !! s = Some i <->
     0 <= i < Size j /\ default 0 (Station j !! i) = s /\
     forall k, i < k < Size j -> default 0 (Station j !! k) <> s) /\
  (station_to_node j !! s = None <->
     forall i, 0 <= i < Size j -> default 0 (Station j !! i) <> s) /\
  ((forall i k, 0 <= i < Size j -> 0 <= k < Size j ->
      default 0 (Station j !! i) = default 0 (Station j !! k) -> i = k) ->
   forall i, 0 <= i < Size j ->
     station_to_node j !! default 0 (Station j !! i) = Some i).
Proof.
  intros _.
  split; [intros i; apply station_to_node_lookup |]. split.
  - split.
    + intros Hnone i Hi Hs.
      (* the last node with station [s], found by descending search *)
      assert (forall d : nat, forall i0, 0 <= i0 < Size j ->
                default 0 (Station j !! i0) = s ->
                Size j - i0 <= Z.of_nat d -> False) as Hsearch.
      { induction d as [|d IHd]; intros i0 Hi0 Hs0 Hd; [lia |].
        destruct (decide (Forall (fun k => default 0 (Station j !! k) <> s)
                                 (seqZ (i0 + 1) (Size j - i0 - 1)))) as [Hall|Hex].
        - rewrite Forall_seqZ in Hall.
          assert (station_to_node j !! s = Some i0) as Hsome.
          { apply station_to_node_lookup. split; [assumption |].
            split; [assumption |]. intros k Hk. apply Hall. lia. }
          enough (@None NodeID = Some i0) by discriminate.
          exact (eq_trans (eq_sym Hnone) Hsome).
        - apply not_Forall_Exists in Hex; [| intros k; apply _].
          apply Exists_exists in Hex as (k & Hk & Hks).
          apply elem_of_seqZ in Hk.
          apply (IHd k); [lia | | lia].
          destruct (decide (default 0 (Station j !! k) = s)); [assumption |].
          contradiction. }
      apply (Hsearch (Z.to_nat (Size j)) i Hi Hs). lia.
    + intros Hno. destruct (station_to_node j !! s) as [i|] eqn:E; [| reflexivity].
      apply station_to_node_lookup in E as (Hi & Hs & _).
      exfalso. exact (Hno i Hi Hs).
  - intros Hinj i Hi. apply station_to_node_lookup.
    split; [assumption |]. split; [reflexivity |].
    intros k Hk Heq. assert (k = i) by (apply Hinj; [lia | lia | assumption]). lia.
Qed.

(** The two nodes of [residual_job] have the stations 100 and 101. *)
Lemma X5_station_to_node_last_wins_witness :
  Size residual_job <= INVALID_NODE /\
  station_to_node residual_job !! (101 : StationID) = Some 1.
Proof.
  assert (H : Size residual_job <= INVALID_NODE) by (vm_compute; discriminate).
  split; [exact H |].
  apply (proj1 (X5_station_to_node_last_wins residual_job 101 H) 1).
  split; [vm_compute; split; [discriminate | reflexivity] |].
  split; [vm_compute; reflexivity |].
  intros k Hk. simpl in Hk. lia.
Defined.

Lemma station_to_node_range (j : LinkGraphJob) (s : StationID) :
  0 <= default 0 (station_to_node j !! s) < Z.max 1 (Size j).
Proof.
  destruct (station_to_node j !! s) as [i|] eqn:E; simpl; [| lia].
  apply station_to_node_lookup in E as (Hi & _). lia.
Qed.

Lemma until_invalid_id (l : list NodeID) :
  Forall (fun x => x <> INVALID_NODE) l -> until_invalid l = l.
Proof.
  induction 1 as [|x l Hx _ IH]; [reflexivity |]. simpl.
  destruct (decide (x = INVALID_NODE)); [contradiction |]. rewrite IH. reflexivity.
Qed.

(** X6: [FlowEdgeIterator] never leaves the job.  Whatever the flow tables
    hold, every node ID [Next] returns is that of a node of the job, or 0
    for a share over a station no node has; there is one per share of the
    node for the station of [source], and none when the node has no flows
    for that station.  In a job of at most 65535 nodes none of them is
    [INVALID_NODE], so the loop of [Dijkstra] sees them all. *)
Theorem X6_FlowEdgeIterator_stays_in_job (j : LinkGraphJob) (source n : NodeID) :
  let shares :=
    default [] (default ∅ (Flows j !! n) !! default 0 (Station j !! source)) in
  let nexts := iter_Next (EdgeIterator := FlowEdgeIterator) j source n in
  length nexts = length shares /\
  Forall (fun to => 0 <= to < Z.max 1 (Size j)) nexts /\
  (forall k to, nexts !! k = Some to ->
     exists sh, shares !! k = Some sh /\
       (station_to_node j !! sh.2 = Some to \/
        station_to_node j !! sh.2 = None /\ to = 0)) /\
  (Size j <= INVALID_NODE -> until_invalid nexts = nexts).
Proof.
  cbv zeta. unfold iter_Next, FlowEdgeIterator.
  destruct (default ∅ (Flows j !! n) !! default 0 (Station j !! source))
    as [shares|]; simpl.
  2:{ split; [reflexivity |]. split; [constructor |].
      split; [intros k to Hk; rewrite lookup_nil in Hk; discriminate |].
      reflexivity. }
  assert (Forall (fun to => 0 <= to < Z.max 1 (Size j))
            (map (fun s : Z * StationID => default 0 (station_to_node j !! s.2))
                 shares)) as Hrange.
  { apply Forall_forall. intros to Hto.
    apply list_elem_of_fmap in Hto as (sh & -> & _).
    apply station_to_node_range. }
  split; [apply length_map |]. split; [exact Hrange |]. split.
  - intros k to Hk.
    change (map ?f shares) with (f <$> shares) in Hk.
    rewrite list_lookup_fmap in Hk.
    destruct (shares !! k) as [sh|]; [| discriminate].
    simpl in Hk. injection Hk as <-. exists sh. split; [reflexivity |].
    destruct (station_to_node j !! sh.2); simpl; auto.
  - intros Hsize. apply until_invalid_id.
    eapply Forall_impl; [exact Hrange |].
    simpl. intros to Hto. unfold INVALID_NODE in *. lia.
Qed.

(** ** Cycle elimination as a whole *)

Lemma flows_only_refl (j : LinkGraphJob) : flows_only j j.
Proof. repeat split; reflexivity. Qed.

Lemma flows_only_trans (j1 j2 j3 : LinkGraphJob) :
  flows_only j1 j2 -> flows_only j2 j3 -> flows_only j1 j3.
Proof.
  intros (A1 & A2 & A3 & A4 & A5 & A6 & A7) (B1 & B2 & B3 & B4 & B5 & B6 & B7).
  repeat split; try congruence.
  - destruct (A7 a b) as (E & _), (B7 a b) as (F & _). congruence.
  - destruct (A7 a b) as (_ & E & _), (B7 a b) as (_ & F & _). congruence.
  - destruct (A7 a b) as (_ & _ & E & _), (B7 a b) as (_ & _ & F & _). congruence.
  - destruct (A7 a b) as (_ & _ & _ & E), (B7 a b) as (_ & _ & _ & F). congruence.
Qed.

Lemma flows_only_RemoveFlow (f : Z) (a b : NodeID) (j : LinkGraphJob) :
  flows_only j (update_edge (RemoveFlow f) a b j).
Proof.
  repeat split; try reflexivity;
    rewrite get_edge_update;
    destruct (decide ((a, b) = (a0, b0))) as [[= <- <-]|]; reflexivity.
Qed.

Lemma EliminateCycle_loop_job (path : list PathPtr) (cycle_end : PathPtr) (fl : Z) :
  forall (fuel : nat) (st : State) (cycle_begin : PathPtr) (st' : State),
    EliminateCycle_loop fuel path cycle_end fl st cycle_begin = Some st' ->
    flows_only (job st) (job st') /\ next_free st' = next_free st.
Proof.
  induction fuel as [|n IH]; intros st cb st'; simpl; [discriminate |].
  destruct cb as [| |a]; try discriminate.
  destruct (heap st !! a) as [pc|]; [| discriminate]. simpl.
  destruct (at_node path (node pc)) as [next|]; [| discriminate]. simpl.
  destruct (deref _ next) as [pn|]; [| discriminate]. simpl.
  destruct (decide (next = cycle_end)).
  - intros [= <-]. simpl. split; [apply flows_only_RemoveFlow | reflexivity].
  - intros H. apply IH in H as [H1 H2]. simpl in *. split; [| assumption].
    eapply flows_only_trans; [apply flows_only_RemoveFlow | exact H1].
Qed.

(** The recursive search changes the flows of edges only, and nothing of
    the job unless it reports a cycle. *)
Lemma EliminateCycles_rec_job (origin_id : NodeID) :
  forall (fuel : nat) (st : State) (path : list PathPtr) (next_id : NodeID)
         (found : bool) (st' : State) (path' : list PathPtr),
    EliminateCycles_rec fuel origin_id st path next_id = Some (found, st', path') ->
    flows_only (job st) (job st') /\ next_free st' = next_free st /\
    (found = false -> job st' = job st).
Proof.
  induction fuel as [|n IH]; intros st path next_id found st' path';
    [discriminate |].
  cbn [EliminateCycles_rec].
  destruct (at_node path next_id) as [p|]; [| discriminate]. simpl.
  destruct p as [| |c].
  - destruct (summarize _ _ _) as [[h1 nh]|]; [| discriminate]. simpl.
    destruct (fold_opt _ nh _) as [[[f2 st2] path2]|] eqn:Hfold; [| discriminate].
    simpl. intros [= <- <- _].
    apply (fold_opt_ind
             (fun s : bool * State * list PathPtr =>
                flows_only (job st) (job s.1.2) /\ next_free s.1.2 = next_free st /\
                (s.1.1 = false -> job s.1.2 = job st)) _ _) in Hfold;
      [exact Hfold | |].
    + intros [[f s] V] via [[f' s'] V'] (H1 & H2 & H3).
      unfold EliminateCycles_child. simpl in *.
      destruct (deref (heap s) via.2) as [child|]; [| discriminate]. simpl.
      destruct (0 <? flow child).
      * destruct (EliminateCycles_rec n origin_id s _ _) as [[[r s1] V1]|] eqn:Hrec;
          [| discriminate].
        simpl. intros [= <- <- _].
        apply IH in Hrec as (R1 & R2 & R3).
        split; [eapply flows_only_trans; eassumption |].
        split; [congruence |].
        intros Hf. apply orb_false_iff in Hf as [Hr Hf].
        rewrite (R3 Hr). apply H3. assumption.
      * intros [= <- <- _]. auto.
    + simpl. split; [apply flows_only_refl |]. split; reflexivity.
  - intros [= <- <- _]. split; [apply flows_only_refl |]. split; reflexivity.
  - destruct (FindCycleFlow _ _ _ _) as [fl|]; [| discriminate]. simpl.
    destruct (0 <? fl).
    + destruct (EliminateCycle _ _ _ _ _) as [s|] eqn:He; [| discriminate].
      simpl. intros [= <- <- _].
      apply EliminateCycle_loop_job in He as [H1 H2].
      split; [assumption |]. split; [assumption | discriminate].
    + intros [= <- <- _]. split; [apply flows_only_refl |]. split; reflexivity.
Qed.

Lemma EliminateCycles_job (fuel : nat) (st : State) (cycles : bool) (st' : State) :
  EliminateCycles fuel st = Some (cycles, st') ->
  flows_only (job st) (job st') /\ next_free st' = next_free st /\
  (cycles = false -> job st' = job st).
Proof.
  unfold EliminateCycles. intros Hfold.
  apply (fold_opt_ind
           (fun s : bool * State =>
              flows_only (job st) (job s.2) /\ next_free s.2 = next_free st /\
              (s.1 = false -> job s.2 = job st)) _ _) in Hfold;
    [exact Hfold | |].
  - intros [c s] n [c' s'] (H1 & H2 & H3). simpl in *.
    destruct (EliminateCycles_rec fuel n s _ n) as [[[r s1] V1]|] eqn:Hrec;
      [| discriminate].
    simpl. intros [= <- <-].
    apply EliminateCycles_rec_job in Hrec as (R1 & R2 & R3).
    split; [eapply flows_only_trans; eassumption |].
    split; [congruence |].
    intros Hf. apply orb_false_iff in Hf as [Hc Hr].
    rewrite (R3 Hr). apply H3. assumption.
  - simpl. split; [apply flows_only_refl |]. split; reflexivity.
Qed.

(** X7: [EliminateCycles()] touches nothing of the job but the flows of
    its edges; demands, capacities, distances and the path lists of the
    nodes stay, and it allocates nothing.  When it reports that no cycle
    was found the job is unchanged altogether. *)
Theorem X7_EliminateCycles_changes_flows_only (fuel : nat) (st : State)
    (cycles : bool) (st' : State) :
  EliminateCycles fuel st = Some (cycles, st') ->
  flows_only (job st) (job st') /\ next_free st' = next_free st /\
  (cycles = false -> job st' = job st).
Proof. apply EliminateCycles_job. Qed.

(** The cycle of [loop_state] is found, and removing it leaves the
    demands alone. *)
Lemma X7_EliminateCycles_changes_flows_only_witness :
  exists cycles st',
    EliminateCycles 4 loop_state = Some (cycles, st') /\
    flows_only (job loop_state) (job st').
Proof.
  destruct (EliminateCycles 4 loop_state) as [[cycles st']|] eqn:E;
    [| vm_compute in E; discriminate].
  exists cycles, st'. split; [reflexivity |].
  exact (proj1 (X7_EliminateCycles_changes_flows_only 4 loop_state cycles st' E)).
Defined.

(** X8: [EliminateCycles()] returns.  On a state whose path fragments are
    valid (heap objects that end at nodes of the job), with room for one
    level of recursion per node and one more, the search from every node
    comes back; it leaves the fragments in place, each ending where it
    did. *)
Theorem X8_EliminateCycles_returns (fuel : nat) (st : State) :
  fragments_valid st (Z.to_nat (Size (job st))) ->
  (Z.to_nat (Size (job st)) < fuel)%nat ->
  exists cycles st',
    EliminateCycles fuel st = Some (cycles, st') /\ same_shape st st'.
Proof.
  intros Hfrag Hfuel. unfold EliminateCycles.
  set (len := Z.to_nat (Size (job st))) in *.
  assert (forall (l : list NodeID) (c0 : bool) (st0 : State),
            Forall (fun n => 0 <= n < Z.of_nat len) l ->
            same_shape st st0 ->
            exists cycles st',
              fold_opt
                (fun (a : bool * State) (n : NodeID) =>
                   let '(cycles_found, st1) := a in
                   '(r, st2, _) ←
                     EliminateCycles_rec fuel n st1 (replicate len NULL) n;
                   Some (cycles_found || r, st2))
                l (c0, st0) = Some (cycles, st') /\ same_shape st st') as Hgen.
  { induction l as [|n l IH]; intros c0 st0 Hl Hshape; simpl.
    - eauto.
    - apply Forall_cons in Hl as [Hn Hl].
      destruct (EliminateCycles_rec_returns n fuel st0 (replicate len NULL) [] n)
        as (r & st1 & V & Hrec & Hs1 & _).
      + rewrite length_replicate. eapply fragments_valid_shape; eassumption.
      + apply search_stack_start.
      + rewrite length_replicate. assumption.
      + rewrite length_replicate. simpl. lia.
      + rewrite Hrec. simpl. apply IH; [assumption |].
        eapply same_shape_trans; eassumption. }
  apply Hgen; [| split; reflexivity].
  apply Forall_forall. intros n Hn. apply elem_of_seqZ in Hn.
  unfold len. lia.
Qed.

(** The search of [loop_state], three nodes, with four levels. *)
Lemma X8_EliminateCycles_returns_witness :
  fragments_valid loop_state (Z.to_nat (Size (job loop_state))) /\
  (Z.to_nat (Size (job loop_state)) < 4)%nat /\
  exists cycles st', EliminateCycles 4 loop_state = Some (cycles, st').
Proof.
  assert (H1 : fragments_valid loop_state (Z.to_nat (Size (job loop_state)))).
  { apply fragments_validb_sound. vm_compute. reflexivity. }
  assert (H2 : (Z.to_nat (Size (job loop_state)) < 4)%nat) by (vm_compute; lia).
  split; [exact H1 |]. split; [exact H2 |].
  destruct (X8_EliminateCycles_returns 4 loop_state H1 H2)
    as (cycles & st' & Hret & _).
  exists cycles, st'. exact Hret.
Defined.

(** ** What the passes do to the demands *)

Lemma same_demand_wf (j j' : LinkGraphJob) :
  same_demand j j' -> wf_demand j -> wf_demand j'.
Proof.
  intros Hs Hwf [a b] e He.
  destruct (Hs a b) as (_ & Hu & _).
  unfold get_edge in Hu at 1. rewrite He in Hu. simpl in Hu. rewrite Hu.
  apply wf_get_edge. assumption.
Qed.

(** A push lowers the unsatisfied demand of its own edge by what it
    moved, and leaves every other demand alone. *)
Lemma PushFlow_edges (st : State) (from to : NodeID) (path : PathPtr)
    (accuracy ms pushed : Z) (st' : State) :
  wf_demand (job st) ->
  PushFlow st from to path accuracy ms = Some (pushed, st') ->
  wf_demand (job st') /\ 0 <= pushed /\
  forall a b,
    Demand (get_edge (job st') a b) = Demand (get_edge (job st) a b) /\
    UnsatisfiedDemand (get_edge (job st') a b)
      = UnsatisfiedDemand (get_edge (job st) a b)
        - (if decide (from = a /\ to = b) then pushed else 0).
Proof.
  intros Hwf Hpush.
  pose proof (PushFlow_nonneg _ _ _ _ _ _ _ _ Hpush) as [Hp0 Hp1].
  destruct (PushFlow_inv _ _ _ _ _ _ _ _ Hpush) as (Hu & Hacc & st1 & Hadd & ->).
  destruct (AddFlow_spec _ _ _ _ _ _ Hadd) as (Hsame & _).
  destruct (AddFlow_total _ _ _ _ _ _ Hadd) as (_ & Hwf1).
  specialize (Hwf1 Hwf).
  pose proof (wf_get_edge (job st) from to Hwf) as [_ Hmax].
  simpl. split; [| split; [assumption |]].
  - apply wf_update_edge; [assumption |]. simpl. apply u32_range.
  - intros a b. rewrite get_edge_update.
    destruct (Hsame a b) as (Hd & Hun & _).
    destruct (decide ((from, to) = (a, b))) as [[= <- <-]|Hne].
    + rewrite decide_True by auto. simpl. rewrite Hd, Hun.
      split; [reflexivity |].
      apply u32_exact. unfold is_uint. lia.
    + rewrite decide_False by (intros [-> ->]; apply Hne; reflexivity).
      rewrite Hd, Hun. split; [reflexivity | lia].
Qed.

Lemma pushed_for_app (a b : NodeID) (l1 l2 : list PushCall) :
  pushed_for a b (l1 ++ l2) = pushed_for a b l1 + pushed_for a b l2.
Proof.
  unfold pushed_for. induction l1 as [|c l1 IH]; simpl; [reflexivity |].
  rewrite IH. destruct (decide _); lia.
Qed.

Lemma pushed_for_single (a b : NodeID) (c : PushCall) :
  pushed_for a b [c]
  = if decide (call_source c = a /\ call_dest c = b) then call_pushed c else 0.
Proof. unfold pushed_for. cbn [foldr]. destruct (decide _); lia. Qed.

Lemma pushed_for_nonneg (a b : NodeID) (l : list PushCall) :
  Forall (fun c => 0 <= call_pushed c) l -> 0 <= pushed_for a b l.
Proof.
  unfold pushed_for. induction 1 as [|c l Hc _ IH]; simpl; [lia |].
  destruct (decide _); lia.
Qed.

Lemma demand_accounted_refl (j : LinkGraphJob) : demand_accounted j j [].
Proof. split; [constructor |]. intros a b. simpl. split; [reflexivity | lia]. Qed.

Lemma demand_accounted_same (j j1 j2 : LinkGraphJob) (new : list PushCall) :
  demand_accounted j j1 new -> same_demand j1 j2 -> demand_accounted j j2 new.
Proof.
  intros [Hnn Hacc] Hs. split; [assumption |]. intros a b.
  destruct (Hacc a b) as [Hd Hu], (Hs a b) as (Hd' & Hu' & _).
  rewrite Hd', Hu'. auto.
Qed.

Lemma demand_accounted_push (j : LinkGraphJob) (st st' : State)
    (new : list PushCall) (k : PushKind) (from to : NodeID) (path : PathPtr)
    (pp : Path) (accuracy ms pushed : Z) :
  wf_demand (job st) ->
  demand_accounted j (job st) new ->
  PushFlow st from to path accuracy ms = Some (pushed, st') ->
  wf_demand (job st') /\
  demand_accounted j (job st') (new ++ [record_call k st from to pp pushed]).
Proof.
  intros Hwf [Hnn Hacc] Hpush.
  destruct (PushFlow_edges _ _ _ _ _ _ _ _ Hwf Hpush) as (Hwf' & Hp0 & Hed).
  split; [assumption |]. split.
  - apply Forall_app. split; [assumption |]. constructor; [exact Hp0 | constructor].
  - intros a b. destruct (Hacc a b) as [Hd Hu], (Hed a b) as [Hd' Hu'].
    rewrite Hd', Hu', Hd, Hu, pushed_for_app. split; [reflexivity |].
    rewrite pushed_for_single. unfold record_call.
    cbn [call_source call_dest call_pushed].
    destruct (decide (from = a /\ to = b)); lia.
Qed.

(** The invariant of the first pass on the state and the log, relative to
    the job [j0] and the log [log0] it started with. *)
Lemma MCF1stPass_overload_accounted (j0 : LinkGraphJob) (log0 : list PushCall)
    (accuracy : Z) (source dest : NodeID) (path : PathPtr) (st : State)
    (ml : bool) (log : list PushCall) (st' : State) (ml' : bool)
    (log' : list PushCall) :
  MCF1stPass_overload accuracy source dest path st ml log = Some (st', ml', log') ->
  (wf_demand (job st) /\
   exists new, log = log0 ++ new /\ demand_accounted j0 (job st) new) ->
  wf_demand (job st') /\
  exists new, log' = log0 ++ new /\ demand_accounted j0 (job st') new.
Proof.
  unfold MCF1stPass_overload. intros Hstep (Hwf & new & -> & Hacc).
  destruct (deref (heap st) path) as [pp|]; [| discriminate]. simpl in Hstep.
  destruct (_ && _).
  - destruct (PushFlow st source dest path accuracy UINT_MAX) as [[pushed st1]|]
      eqn:Hpush; [| discriminate].
    simpl in Hstep. injection Hstep as <- _ <-.
    destruct (demand_accounted_push j0 st st1 new OverloadingPush source dest path
                pp accuracy UINT_MAX pushed Hwf Hacc Hpush) as [Hwf1 Hacc1].
    split; [assumption |]. eexists. split; [| exact Hacc1].
    rewrite app_assoc. reflexivity.
  - injection Hstep as <- _ <-. split; [assumption |]. eauto.
Qed.

Lemma MCF1stPass_dest_accounted (j0 : LinkGraphJob) (log0 : list PushCall)
    (ms accuracy : Z) (source : NodeID) (paths : list PathPtr) (st : State)
    (ml : bool) (log : list PushCall) (dest : NodeID) (st' : State) (ml' : bool)
    (log' : list PushCall) :
  MCF1stPass_dest ms accuracy source paths (st, ml, log) dest
    = Some (st', ml', log') ->
  (wf_demand (job st) /\
   exists new, log = log0 ++ new /\ demand_accounted j0 (job st) new) ->
  wf_demand (job st') /\
  exists new, log' = log0 ++ new /\ demand_accounted j0 (job st') new.
Proof.
  unfold MCF1stPass_dest. intros Hstep Hinv.
  destruct (0 <? UnsatisfiedDemand (get_edge (job st) source dest));
    [| injection Hstep as <- _ <-; exact Hinv].
  destruct (at_node paths dest) as [path|]; [| discriminate]. simpl in Hstep.
  destruct (decide (path = NULL)); [discriminate |].
  destruct (deref (heap st) path) as [pp|]; [| discriminate]. simpl in Hstep.
  destruct (0 <? free_capacity pp).
  - destruct (PushFlow st source dest path accuracy ms) as [[pushed st1]|]
      eqn:Hpush; [| discriminate].
    simpl in Hstep.
    destruct Hinv as (Hwf & new & -> & Hacc).
    destruct (demand_accounted_push j0 st st1 new SaturatingPush source dest path
                pp accuracy ms pushed Hwf Hacc Hpush) as [Hwf1 Hacc1].
    assert (wf_demand (job st1) /\
            exists new1,
              (log0 ++ new) ++ [record_call SaturatingPush st source dest pp pushed]
                = log0 ++ new1 /\ demand_accounted j0 (job st1) new1) as Hinv1.
    { split; [assumption |]. eexists. split; [| exact Hacc1].
      rewrite app_assoc. reflexivity. }
    destruct (0 <? pushed).
    + injection Hstep as <- _ <-. exact Hinv1.
    + eapply MCF1stPass_overload_accounted; eassumption.
  - eapply MCF1stPass_overload_accounted; eassumption.
Qed.

Lemma MCF1stPass_source_accounted (j0 : LinkGraphJob) (log0 : list PushCall)
    (dfuel : nat) (ms : Z) (st : State) (ml : bool) (log : list PushCall)
    (source : NodeID) (st' : State) (ml' : bool) (log' : list PushCall) :
  MCF1stPass_source dfuel ms (st, ml, log) source = Some (st', ml', log') ->
  (wf_demand (job st) /\
   exists new, log = log0 ++ new /\ demand_accounted j0 (job st) new) ->
  wf_demand (job st') /\
  exists new, log' = log0 ++ new /\ demand_accounted j0 (job st') new.
Proof.
  unfold MCF1stPass_source. intros Hstep Hinv.
  destruct (Dijkstra _ _ _ _ _) as [[st1 paths]|] eqn:Hd; [| discriminate].
  simpl in Hstep.
  destruct (fold_opt _ _ _) as [[[st2 ml2] log2]|] eqn:Hfold; [| discriminate].
  simpl in Hstep.
  destruct (CleanupPaths _ _ _) as [[st3 ps]|] eqn:Hc; [| discriminate].
  simpl in Hstep. injection Hstep as <- _ <-.
  rewrite (CleanupPaths_job _ _ _ _ _ Hc).
  apply (fold_opt_ind
    (fun s : State * bool * list PushCall =>
       wf_demand (job s.1.1) /\
       exists new, s.2 = log0 ++ new /\ demand_accounted j0 (job s.1.1) new)
    _ _) in Hfold; [exact Hfold | |].
  - intros [[s b] l] x [[s' b'] l'] Hs Hr. simpl in *.
    eapply MCF1stPass_dest_accounted; eassumption.
  - simpl. rewrite (Dijkstra_job _ _ _ _ _ _ _ Hd). exact Hinv.
Qed.

Lemma MCF1stPass_accounted (j0 : LinkGraphJob) (log0 : list PushCall)
    (dfuel : nat) (ms : Z) :
  forall (fuel : nat) (st : State) (log : list PushCall) (st' : State)
         (log' : list PushCall),
    MCF1stPass fuel dfuel ms st log = Finished (st', log') ->
    (wf_demand (job st) /\
     exists new, log = log0 ++ new /\ demand_accounted j0 (job st) new) ->
    wf_demand (job st') /\
    exists new, log' = log0 ++ new /\ demand_accounted j0 (job st') new.
Proof.
  induction fuel as [|n IH]; intros st log st' log'; [discriminate |].
  simpl.
  destruct (fold_opt _ _ _) as [[[st1 ml1] log1]|] eqn:Hfold; [| discriminate].
  intros Hrun Hinv.
  assert (wf_demand (job st1) /\
          exists new, log1 = log0 ++ new /\ demand_accounted j0 (job st1) new)
    as Hinv1.
  { apply (fold_opt_ind
      (fun s : State * bool * list PushCall =>
         wf_demand (job s.1.1) /\
         exists new, s.2 = log0 ++ new /\ demand_accounted j0 (job s.1.1) new)
      _ _) in Hfold; [exact Hfold | | exact Hinv].
    intros [[s b] l] x [[s' b'] l'] Hs Hr. simpl in *.
    eapply MCF1stPass_source_accounted; eassumption. }
  destruct ml1; [eapply IH; eassumption |].
  destruct (EliminateCycles _ st1) as [[cycles st2]|] eqn:Hec; [| discriminate].
  apply EliminateCycles_job in Hec.
  destruct Hinv1 as (Hwf1 & new & -> & Hacc1).
  destruct Hec as ((_ & _ & _ & _ & _ & _ & Hsame) & _).
  assert (wf_demand (job st2) /\
          exists new2, log0 ++ new = log0 ++ new2 /\
                       demand_accounted j0 (job st2) new2) as Hinv2.
  { split; [eapply same_demand_wf; eassumption |].
    exists new. split; [reflexivity |].
    eapply demand_accounted_same; eassumption. }
  destruct cycles; [eapply IH; eassumption |].
  injection Hrun as <- <-. exact Hinv2.
Qed.

(** X9: the first pass accounts for every unit of demand.  When it
    finishes, no demand has changed, and the unsatisfied demand of each
    edge has dropped by exactly what the calls of [PushFlow] recorded for
    that edge moved; no call moves a negative amount, so no unsatisfied
    demand has grown, and none has gone below zero. *)
Theorem X9_first_pass_accounts_demand (fuel dfuel : nat) (ms : Z) (st : State)
    (log : list PushCall) (st' : State) (log' : list PushCall) :
  wf_demand (job st) ->
  MCF1stPass fuel dfuel ms st log = Finished (st', log') ->
  exists new,
    log' = log ++ new /\
    Forall (fun c => 0 <= call_pushed c) new /\
    wf_demand (job st') /\
    forall a b,
      Demand (get_edge (job st') a b) = Demand (get_edge (job st) a b) /\
      UnsatisfiedDemand (get_edge (job st') a b)
        = UnsatisfiedDemand (get_edge (job st) a b) - pushed_for a b new /\
      0 <= UnsatisfiedDemand (get_edge (job st') a b)
        <= UnsatisfiedDemand (get_edge (job st) a b).
Proof.
  intros Hwf Hrun.
  destruct (MCF1stPass_accounted (job st) log dfuel ms fuel st log st' log' Hrun)
    as (Hwf' & new & -> & Hnn & Hacc).
  { split; [assumption |]. exists []. rewrite app_nil_r.
    split; [reflexivity | apply demand_accounted_refl]. }
  exists new. split; [reflexivity |]. split; [assumption |].
  split; [assumption |].
  intros a b. destruct (Hacc a b) as [Hd Hu].
  split; [assumption |]. split; [assumption |].
  pose proof (pushed_for_nonneg a b new Hnn).
  pose proof (wf_get_edge (job st') a b Hwf') as [? _]. lia.
Qed.

(** The first pass on the chain: the demands of 10 and 5 are met by the
    three pushes it makes. *)
Lemma X9_first_pass_accounts_demand_witness :
  wf_demand (job chain_start) /\
  exists st' new,
    MCF1stPass 5 10 100 chain_start [] = Finished (st', new) /\
    UnsatisfiedDemand (get_edge (job st') 0 2)
      = UnsatisfiedDemand (get_edge (job chain_start) 0 2) - pushed_for 0 2 new.
Proof.
  assert (H : wf_demand (job chain_start)).
  { intros k e Hk.
    assert (is_uint (UnsatisfiedDemand (new_edge 10 10 10)) /\
            is_uint (UnsatisfiedDemand (new_edge 10 10 0)) /\
            is_uint (UnsatisfiedDemand (new_edge UINT_MAX 0 5))) as (E1 & E2 & E3)
      by (vm_compute; intuition discriminate).
    simpl in Hk.
    apply lookup_insert_Some in Hk as [[_ <-]|[_ Hk]]; [exact E1 |].
    apply lookup_insert_Some in Hk as [[_ <-]|[_ Hk]]; [exact E2 |].
    apply lookup_singleton_Some in Hk as [_ <-]. exact E3. }
  split; [exact H |].
  destruct (MCF1stPass 5 10 100 chain_start []) as [[st' log']| |] eqn:E;
    [| vm_compute in E; discriminate | vm_compute in E; discriminate].
  destruct (X9_first_pass_accounts_demand 5 10 100 chain_start [] st' log' H E)
    as (new & Hlog & _ & _ & Hacc).
  simpl in Hlog. subst log'.
  exists st', new. split; [reflexivity |].
  exact (proj1 (proj2 (Hacc 0 2))).
Defined.

Lemma sweep_progress_start (st : State) :
  wf_demand (job st) -> sweep_progress (job st) st false.
Proof.
  intros Hwf. split; [assumption |]. intros a b.
  split; [reflexivity |]. split; [lia | auto].
Qed.

Lemma MCF2ndPass_dest_progress (j0 : LinkGraphJob) (accuracy : Z)
    (source : NodeID) (paths : list PathPtr) (st : State) (dl : bool)
    (dest : NodeID) (st' : State) (dl' : bool) :
  MCF2ndPass_dest accuracy source paths (st, dl) dest = Some (st', dl') ->
  sweep_progress j0 st dl -> sweep_progress j0 st' dl'.
Proof.
  unfold MCF2ndPass_dest. intros Hstep Hinv.
  destruct (at_node paths dest) as [path|]; [| discriminate]. simpl in Hstep.
  destruct (0 <? UnsatisfiedDemand (get_edge (job st) source dest));
    [| injection Hstep as <- <-; exact Hinv].
  destruct (deref (heap st) path) as [pp|]; [| discriminate]. simpl in Hstep.
  destruct (INT_MIN <? free_capacity pp); [| injection Hstep as <- <-; exact Hinv].
  destruct (PushFlow st source dest path accuracy UINT_MAX) as [[pushed st1]|]
    eqn:Hpush; [| discriminate].
  simpl in Hstep. injection Hstep as <- <-.
  destruct Hinv as [Hwf Hinv].
  destruct (PushFlow_edges _ _ _ _ _ _ _ _ Hwf Hpush) as (Hwf1 & Hp0 & Hed).
  split; [assumption |]. intros a b.
  destruct (Hinv a b) as (Hd & Hle & Hsat), (Hed a b) as [Hd1 Hu1].
  split; [congruence |].
  split; [destruct (decide (source = a /\ dest = b)); lia |].
  destruct (decide (source = a /\ dest = b)) as [[-> ->]|Hne].
  - destruct (Z.ltb_spec 0 (UnsatisfiedDemand (get_edge (job st1) a b)));
      [discriminate |].
    intros _. left.
    pose proof (wf_get_edge (job st1) a b Hwf1) as [? _]. lia.
  - destruct (0 <? UnsatisfiedDemand (get_edge (job st1) source dest));
      [discriminate |].
    intros Hdl. rewrite Hu1, Z.sub_0_r. auto.
Qed.

Lemma MCF2ndPass_source_progress (j0 : LinkGraphJob) (dfuel : nat) (st : State)
    (dl : bool) (source : NodeID) (st' : State) (dl' : bool) :
  MCF2ndPass_source dfuel (st, dl) source = Some (st', dl') ->
  sweep_progress j0 st dl -> sweep_progress j0 st' dl'.
Proof.
  unfold MCF2ndPass_source. intros Hstep Hinv.
  destruct (Dijkstra _ _ _ _ _) as [[st1 paths]|] eqn:Hd; [| discriminate].
  simpl in Hstep.
  destruct (fold_opt _ _ _) as [[st2 dl2]|] eqn:Hfold; [| discriminate].
  simpl in Hstep.
  destruct (CleanupPaths _ _ _) as [[st3 ps]|] eqn:Hc; [| discriminate].
  simpl in Hstep. injection Hstep as <- <-.
  assert (sweep_progress j0 st2 dl2) as Hinv2.
  { apply (fold_opt_ind (fun s : State * bool => sweep_progress j0 s.1 s.2) _ _)
      in Hfold; [exact Hfold | |].
    - intros [s b] x [s' b'] Hs Hr. simpl in *.
      eapply MCF2ndPass_dest_progress; eassumption.
    - simpl. unfold sweep_progress.
      rewrite (Dijkstra_job _ _ _ _ _ _ _ Hd). exact Hinv. }
  unfold sweep_progress. rewrite (CleanupPaths_job _ _ _ _ _ Hc). exact Hinv2.
Qed.

Lemma MCF2ndPass_sweep_progress (dfuel : nat) (st st' : State) (dl : bool) :
  wf_demand (job st) ->
  MCF2ndPass_sweep dfuel st = Some (st', dl) ->
  sweep_progress (job st) st' dl.
Proof.
  unfold MCF2ndPass_sweep. intros Hwf Hfold.
  apply (fold_opt_ind (fun s : State * bool => sweep_progress (job st) s.1 s.2) _ _)
    in Hfold; [exact Hfold | |].
  - intros [s b] x [s' b'] Hs Hr. simpl in *.
    eapply MCF2ndPass_source_progress; eassumption.
  - apply sweep_progress_start. assumption.
Qed.

(** X10: the second pass edge by edge.  A sweep that ends with
    [demand_left] false has left every edge either without unsatisfied
    demand or exactly as it found it (the edges it could not push for);
    and when the pass finishes no demand has changed and no unsatisfied
    demand has grown or gone below zero.  On a job without any
    unsatisfied demand a sweep that returns ends with [demand_left] false
    and leaves the job as it was, so that the pass finishes with its first
    sweep and hands the job back unchanged. *)
Theorem X10_second_pass_edge_by_edge (dfuel : nat) (st : State) :
  wf_demand (job st) ->
  (forall st',
     MCF2ndPass_sweep dfuel st = Some (st', false) ->
     forall a b,
       UnsatisfiedDemand (get_edge (job st') a b) = 0 \/
       UnsatisfiedDemand (get_edge (job st') a b)
         = UnsatisfiedDemand (get_edge (job st) a b)) /\
  (forall (fuel : nat) st',
     MCF2ndPass fuel dfuel st = Finished st' ->
     forall a b,
       Demand (get_edge (job st') a b) = Demand (get_edge (job st) a b) /\
       0 <= UnsatisfiedDemand (get_edge (job st') a b)
         <= UnsatisfiedDemand (get_edge (job st) a b)) /\
  ((forall a b, UnsatisfiedDemand (get_edge (job st) a b) = 0) ->
   forall st1 dl,
     MCF2ndPass_sweep dfuel st = Some (st1, dl) ->
     dl = false /\ job st1 = job st /\
     forall fuel : nat, MCF2ndPass (S fuel) dfuel st = Finished st1).
Proof.
  intros Hwf. split; [| split].
  - intros st' Hsweep a b.
    destruct (MCF2ndPass_sweep_progress _ _ _ _ Hwf Hsweep) as [_ Hp].
    destruct (Hp a b) as (_ & _ & Hsat). auto.
  - intros fuel. revert st Hwf.
    induction fuel as [|fuel IH]; intros st Hwf st'; [discriminate |].
    simpl. destruct (MCF2ndPass_sweep dfuel st) as [[st1 dl]|] eqn:Hsweep;
      [| discriminate].
    destruct (MCF2ndPass_sweep_progress _ _ _ _ Hwf Hsweep) as [Hwf1 Hp].
    destruct dl.
    + intros Hrun a b. destruct (IH st1 Hwf1 st' Hrun a b) as [Hd Hu].
      destruct (Hp a b) as (Hd1 & Hle & _). split; [congruence | lia].
    + intros [= <-] a b. destruct (Hp a b) as (Hd1 & Hle & _).
      pose proof (wf_get_edge (job st1) a b Hwf1) as [? _].
      split; [assumption | lia].
  - intros Hzero.
    assert (forall st' dl, MCF2ndPass_sweep dfuel st = Some (st', dl) ->
              job st' = job st /\ dl = false) as Hidle.
    { unfold MCF2ndPass_sweep. intros st' dl Hfold.
      apply (fold_opt_ind
               (fun s : State * bool => job s.1 = job st /\ s.2 = false) _ _)
        in Hfold; [exact Hfold | | split; reflexivity].
      clear Hfold.
      intros [s b] source [s' b'] [Hj Hb]. simpl in *. subst b.
      unfold MCF2ndPass_source.
      destruct (Dijkstra _ _ _ _ _) as [[s1 paths]|] eqn:Hd; [| discriminate].
      simpl.
      destruct (fold_opt _ _ _) as [[s2 dl2]|] eqn:Hdest; [| discriminate].
      simpl.
      destruct (CleanupPaths _ _ _) as [[s3 ps]|] eqn:Hc; [| discriminate].
      simpl. intros [= <- <-].
      rewrite (CleanupPaths_job _ _ _ _ _ Hc).
      apply (fold_opt_ind
               (fun r : State * bool => job r.1 = job st /\ r.2 = false) _ _)
        in Hdest; [exact Hdest | |].
      - clear Hdest.
        intros [r c] dest [r' c'] [Hr Hc']. simpl in *. subst c.
        unfold MCF2ndPass_dest.
        destruct (at_node paths dest); [| discriminate]. simpl.
        rewrite Hr, Hzero. simpl. intros [= <- <-]. auto.
      - simpl. rewrite (Dijkstra_job _ _ _ _ _ _ _ Hd). auto. }
    intros st1 dl Hsweep. destruct (Hidle st1 dl Hsweep) as [Hj ->].
    split; [reflexivity |]. split; [assumption |].
    intros fuel. simpl. rewrite Hsweep. reflexivity.
Qed.

(** The residual demand of 42 is absorbed: the pass ends with the edge
    from node 0 to node 1 satisfied. *)
Lemma X10_second_pass_edge_by_edge_witness :
  wf_demand (job residual_start) /\
  exists st',
    MCF2ndPass 43 10 residual_start = Finished st' /\
    0 <= UnsatisfiedDemand (get_edge (job st') 0 1)
      <= UnsatisfiedDemand (get_edge (job residual_start) 0 1).
Proof.
  split; [exact wf_demand_residual |].
  destruct (MCF2ndPass 43 10 residual_start) as [st'| |] eqn:E;
    [| vm_compute in E; discriminate | vm_compute in E; discriminate].
  exists st'. split; [reflexivity |].
  exact (proj2 (proj1 (proj2 (X10_second_pass_edge_by_edge 10 residual_start
                                wf_demand_residual)) 43%nat st' E 0 1)).
Defined.

(** ** The search as a whole *)

Lemma anno_addr_pos (first : positive) (n : NodeID) :
  0 <= n -> Z.pos (anno_addr first n) = Z.pos first + n.
Proof. intros H. unfold anno_addr. rewrite Z2Pos.id; lia. Qed.

Lemma anno_addr_inj (first : positive) (n m : NodeID) :
  0 <= n -> 0 <= m -> anno_addr first n = anno_addr first m -> n = m.
Proof.
  intros Hn Hm E. apply (f_equal Z.pos) in E.
  rewrite !anno_addr_pos in E by assumption. lia.
Qed.

Lemma anno_addr_above (first a : positive) (n : NodeID) :
  0 <= n -> (a < first)%positive -> a <> anno_addr first n.
Proof.
  intros Hn Ha ->. pose proof (anno_addr_pos first n Hn). lia.
Qed.

Lemma anno_addr_succ (first : positive) (n : NodeID) :
  0 <= n -> Pos.succ (anno_addr first n) = anno_addr first (n + 1).
Proof.
  intros Hn. apply Pos2Z.inj. rewrite Pos2Z.inj_succ.
  rewrite !anno_addr_pos by lia. lia.
Qed.

Lemma anno_addr_0 (first : positive) : anno_addr first 0 = first.
Proof. unfold anno_addr. rewrite Z.add_0_r. reflexivity. Qed.

Section SearchShape.

Context {A : Annotation} {I : EdgeIterator}.

Lemma search_annos_erase (first : positive) (size : Z) (h : gmap positive Path)
    (x : PathPtr) (l l' : list PathPtr) :
  set_erase h x l = Some l' ->
  search_annos first size l -> search_annos first size l'.
Proof.
  unfold search_annos. intros He Hl.
  destruct (set_erase_spec h x l l' He) as [->|(l1 & y & l2 & -> & -> & _)];
    [assumption |].
  apply Forall_app in Hl as [H1 H2]. apply Forall_cons in H2 as [_ H2].
  apply Forall_app. split; assumption.
Qed.

Lemma search_annos_insert (first : positive) (size : Z) (h : gmap positive Path)
    (x : PathPtr) (l l' : list PathPtr) :
  set_insert h x l = Some l' ->
  (exists n, 0 <= n < size /\ x = Ptr (anno_addr first n)) ->
  search_annos first size l -> search_annos first size l'.
Proof.
  unfold search_annos. intros Hi Hx Hl.
  destruct (set_insert_spec h x l l' Hi) as [(l1 & l2 & -> & ->)|(-> & _)];
    [| assumption].
  apply Forall_app in Hl as [H1 H2].
  apply Forall_app. split; [assumption |]. apply Forall_cons. split; assumption.
Qed.

Lemma search_annos_mono (first : positive) (k size : Z) (l : list PathPtr) :
  k <= size -> search_annos first k l -> search_annos first size l.
Proof.
  unfold search_annos. intros Hk Hl. eapply Forall_impl; [exact Hl |].
  simpl. intros x (n & Hn & ->). exists n. split; [lia | reflexivity].
Qed.

Lemma length_resize (paths : list PathPtr) (size : Z) :
  length (resize paths size) = Z.to_nat size.
Proof.
  unfold resize. rewrite length_take, length_app, length_replicate. lia.
Qed.

(** Creating the annotations. *)
Lemma Dijkstra_init_shape (first : positive) (size : Z) (source_node : NodeID)
    (h0 : gmap positive Path) :
  forall (m : nat) (k : Z) (st : State) (ps annos : list PathPtr)
         (st1 : State) (ps1 annos1 : list PathPtr),
    0 <= k -> k + Z.of_nat m <= size ->
    fold_opt (Dijkstra_init source_node) (seqZ k (Z.of_nat m)) (st, ps, annos)
      = Some (st1, ps1, annos1) ->
    search_begun first size source_node h0 k st ps annos ->
    search_begun first size source_node h0 (k + Z.of_nat m) st1 ps1 annos1.
Proof.
  induction m as [|m IH]; intros k st ps annos st1 ps1 annos1 Hk Hm.
  - simpl. intros [= <- <- <-]. rewrite Z.add_0_r. auto.
  - rewrite seqZ_cons by lia.
    replace (Z.pred (Z.of_nat (S m))) with (Z.of_nat m) by lia.
    replace (k + Z.of_nat (S m)) with (Z.succ k + Z.of_nat m) by lia.
    set (rest := seqZ (Z.succ k) (Z.of_nat m)).
    cbn [fold_opt]. unfold Dijkstra_init at 1. unfold alloc.
    destruct (set_insert _ _ annos) as [annos'|] eqn:Hins; [| discriminate].
    cbn [mbind option_bind]. intros Hfold (Hnf & Hlen & Hmade & Hold & Hannos).
    subst rest.
    apply (IH (Z.succ k) _ _ _ _ _ _ ltac:(lia) ltac:(lia) Hfold).
    unfold search_begun. cbn [next_free heap]. rewrite Hnf.
    split; [rewrite anno_addr_succ by assumption; f_equal; lia |].
    split; [rewrite length_insert; assumption |].
    split; [| split].
    + intros n Hn. destruct (decide (n = k)) as [->|Hne].
      * split; [| apply lookup_insert_eq].
        apply list_lookup_insert_eq. lia.
      * destruct (Hmade n ltac:(lia)) as [Hp Hh]. split.
        -- rewrite list_lookup_insert_ne by lia. assumption.
        -- rewrite lookup_insert_ne; [assumption |].
           intros E. apply anno_addr_inj in E; lia.
    + intros a Ha. rewrite lookup_insert_ne; [auto |].
      intros E. symmetry in E. revert E. apply anno_addr_above; assumption.
    + eapply search_annos_insert; [exact Hins | |].
      * exists k. split; [lia | congruence].
      * eapply search_annos_mono; [| exact Hannos]. lia.
Qed.

Variables (first : positive) (size : Z) (source_node : NodeID).
Variables (h0 : gmap positive Path) (paths : list PathPtr).
Hypothesis Hpaths : search_paths first size paths.

Lemma search_paths_at (to : NodeID) (dest : PathPtr) :
  at_node paths to = Some dest ->
  0 <= to < size /\ dest = Ptr (anno_addr first to).
Proof.
  intros H. pose proof (at_node_range _ _ _ H) as Hr.
  destruct Hpaths as [Hlen Hall]. rewrite Hlen in Hr.
  assert (0 <= to < size) as Hto by lia.
  split; [assumption |].
  apply at_node_lookup in H as [_ H]. rewrite Hall in H by assumption.
  injection H as <-. reflexivity.
Qed.

(** The relaxation step keeps the shape of the search. *)
Lemma Dijkstra_relax_shape (ms : Z) (source : PathPtr) (from to : NodeID)
    (st : State) (annos : list PathPtr) (st' : State) (annos' : list PathPtr) :
  Dijkstra_relax ms paths source from (st, annos) to = Some (st', annos') ->
  (exists m, 0 <= m < size /\ source = Ptr (anno_addr first m)) ->
  search_heap first size source_node h0 (heap st) /\
  search_annos first size annos /\
  (keeps_root A -> 0 <= source_node < size ->
   root_kept first source_node (heap st)) ->
  next_free st' = next_free st /\
  search_heap first size source_node h0 (heap st') /\
  search_annos first size annos' /\
  (keeps_root A -> 0 <= source_node < size ->
   root_kept first source_node (heap st')).
Proof.
  unfold Dijkstra_relax. intros Hstep (m & Hm & ->) (Hheap & Hannos & Hroot).
  destruct (decide (to = from)) as [|Hreal]; [injection Hstep as <- <-; auto |].
  destruct (negb _); [discriminate |].
  destruct (at_node paths to) as [dest|] eqn:Hdest; [| discriminate].
  simpl in Hstep.
  destruct (search_paths_at _ _ Hdest) as [Hto ->]. simpl in Hstep.
  destruct (heap st !! anno_addr first to) as [pd|] eqn:Hpd; [| discriminate].
  simpl in Hstep.
  destruct (heap st !! anno_addr first m) as [ps|] eqn:Hps; [| discriminate].
  simpl in Hstep.
  destruct (anno_IsBetter pd ps _ _ _) eqn:Hbetter;
    [| injection Hstep as <- <-; auto].
  destruct (set_erase _ _ annos) as [annos1|] eqn:Herase; [| discriminate].
  simpl in Hstep.
  destruct (Fork (heap st) (anno_addr first to) (anno_addr first m) _ _ _)
    as [h'|] eqn:Hfork; [| discriminate].
  simpl in Hstep.
  destruct (set_insert h' _ annos1) as [annos2|] eqn:Hins; [| discriminate].
  simpl in Hstep. injection Hstep as <- <-. simpl.
  destruct (Fork_frame _ _ _ _ _ _ _ Hfork) as (Hobj & Hfreed & Hrest).
  destruct Hheap as [Hold Hnew].
  split; [reflexivity |]. split; [split |]; [| | split].
  - (* the objects of earlier searches *)
    intros a Ha. rewrite <- (Hold a Ha).
    apply (Hrest a pd Hpd).
    + apply anno_addr_above; [lia | assumption].
    + apply anno_addr_above; [lia | assumption].
    + destruct (Hnew to pd Hto Hpd) as [_ [[-> _]|(k & Hk & ->)]];
        [discriminate |].
      intros [= E]. symmetry in E. revert E.
      apply anno_addr_above; [lia | assumption].
  - (* the annotations of this search *)
    intros n p' Hn Hp'.
    destruct (Hobj _ _ Hp') as (p & Hp & Hnode & Hcase).
    destruct (Hnew n p Hn Hp) as [Hnn Hpar].
    split; [congruence |].
    destruct Hcase as [(_ & _ & Hforked)|[Hsame Heq]].
    + right. exists m. split; assumption.
    + rewrite Heq. destruct Hpar as [[Hnull Hfresh]|Hpar]; [left | right; exact Hpar].
      split; [assumption |]. eapply same_but_links_trans; eassumption.
  - eapply search_annos_insert; [exact Hins | eauto |].
    eapply search_annos_erase; eassumption.
  - intros Hkeep Hsrc. destruct (Hroot Hkeep Hsrc) as (pr & Hpr & Hnull).
    destruct (Hnew _ _ Hsrc Hpr) as [_ [[_ Hfresh]|(k & _ & Hk)]];
      [| rewrite Hnull in Hk; discriminate].
    assert (to <> source_node) as Hne.
    { intros ->. rewrite Hpr in Hpd. injection Hpd as <-.
      rewrite bool_decide_eq_true_2 in Hfresh by reflexivity.
      destruct Hfresh as (_ & _ & Hd & _ & Hf & _). simpl in Hd, Hf.
      rewrite Hkeep in Hbetter; [discriminate | assumption |].
      rewrite Hf. reflexivity. }
    destruct (h' !! anno_addr first source_node) as [p'|] eqn:Hp'.
    + exists p'. split; [exact Hp' |].
      destruct (Hobj _ _ Hp') as (p & Hp & _ & Hcase).
      rewrite Hpr in Hp. injection Hp as <-.
      destruct Hcase as [(E & _)|[_ Heq]]; [| congruence].
      apply anno_addr_inj in E; lia.
    + destruct (Hfreed _ _ Hpr Hp') as (_ & _ & Hnn). contradiction.
Qed.

Lemma Dijkstra_loop_shape (ms : Z) :
  forall (fuel : nat) (st : State) (annos : list PathPtr) (st' : State),
    Dijkstra_loop fuel ms source_node paths st annos = Some st' ->
    search_heap first size source_node h0 (heap st) /\
    search_annos first size annos /\
    (keeps_root A -> 0 <= source_node < size ->
     root_kept first source_node (heap st)) ->
    next_free st' = next_free st /\
    search_heap first size source_node h0 (heap st') /\
    (keeps_root A -> 0 <= source_node < size ->
     root_kept first source_node (heap st')).
Proof.
  induction fuel as [|fuel IH]; intros st annos st'; simpl.
  - destruct annos; [| discriminate]. intros [= <-] (H1 & _ & H3). auto.
  - destruct annos as [|source annos]; [intros [= <-] (H1 & _ & H3); auto |].
    destruct (deref (heap st) source) as [ps|]; [| discriminate]. simpl.
    destruct (fold_opt _ _ _) as [[st1 annos1]|] eqn:Hfold; [| discriminate].
    simpl. intros Hloop (Hheap & Hannos & Hroot).
    apply Forall_cons in Hannos as [Hsource Hannos].
    apply (fold_opt_ind
             (fun s : State * list PathPtr =>
                next_free s.1 = next_free st /\
                search_heap first size source_node h0 (heap s.1) /\
                search_annos first size s.2 /\
                (keeps_root A -> 0 <= source_node < size ->
                 root_kept first source_node (heap s.1))) _ _) in Hfold.
    + destruct Hfold as (Hnf & H1 & H2 & H3). simpl in *.
      destruct (IH _ _ _ Hloop (conj H1 (conj H2 H3))) as (Hnf' & H').
      split; [congruence | exact H'].
    + intros [s a] to [s' a'] (Hnf & H1 & H2 & H3) Hr. simpl in *.
      destruct (Dijkstra_relax_shape _ _ _ _ _ _ _ _ Hr Hsource
                  (conj H1 (conj H2 H3))) as (Hnf' & H').
      split; [congruence | exact H'].
    + simpl. auto.
Qed.

End SearchShape.

(** The shape of the result of a search. *)
Lemma Dijkstra_shape {A : Annotation} {I : EdgeIterator} (fuel : nat) (ms : Z)
    (source_node : NodeID) (st : State) (paths0 : list PathPtr) (st' : State)
    (paths' : list PathPtr) :
  0 <= Size (job st) ->
  Dijkstra fuel ms source_node st paths0 = Some (st', paths') ->
  next_free st' = anno_addr (next_free st) (Size (job st)) /\
  search_paths (next_free st) (Size (job st)) paths' /\
  search_heap (next_free st) (Size (job st)) source_node (heap st) (heap st') /\
  (keeps_root A -> 0 <= source_node < Size (job st) ->
   root_kept (next_free st) source_node (heap st')).
Proof.
  intros Hsize. unfold Dijkstra.
  destruct (fold_opt _ _ _) as [[[st1 paths1] annos]|] eqn:Hinit; [| discriminate].
  simpl.
  destruct (Dijkstra_loop _ _ _ _ _ _) as [st2|] eqn:Hloop; [| discriminate].
  simpl. intros [= <- <-].
  set (first := next_free st) in *. set (size := Size (job st)) in *.
  rewrite <- (Z2Nat.id size) in Hinit at 1 by assumption.
  apply (Dijkstra_init_shape first size source_node (heap st)) in Hinit;
    [| lia | lia |].
  2:{ split; [symmetry; apply anno_addr_0 |].
      split; [apply length_resize |].
      split; [intros n Hn; lia |]. split; [reflexivity | constructor]. }
  rewrite Z.add_0_l, Z2Nat.id in Hinit by assumption.
  destruct Hinit as (Hnf & Hlen & Hmade & Hold & Hannos).
  assert (search_paths first size paths1) as Hpaths.
  { split; [assumption |]. intros n Hn. apply Hmade. assumption. }
  destruct (Dijkstra_loop_shape first size source_node (heap st) paths1 Hpaths
              ms fuel st1 annos st2 Hloop) as (Hnf2 & Hheap & Hroot).
  { split; [| split; [assumption |]].
    - split; [assumption |]. intros n p Hn Hp.
      destruct (Hmade n Hn) as [_ Hfresh]. rewrite Hfresh in Hp.
      injection Hp as <-. split; [reflexivity |]. left.
      split; [reflexivity | apply same_but_links_refl].
    - intros _ Hsrc. destruct (Hmade _ Hsrc) as [_ Hfresh].
      eexists. split; [exact Hfresh | reflexivity]. }
  split; [congruence |]. split; [assumption |]. split; assumption.
Qed.

(** X11: what a search leaves behind.  On a job of at most 65535 nodes,
    which the [NodeID] counter of its first loop can count, [Dijkstra]
    hands back a path vector with one entry per node: the address of the
    annotation it has created for the node.  These addresses differ from
    each other, and none of them was in use before (no object lives at an
    address that [new] has yet to hand out).  An annotation that
    still exists ends at its node; either it has no parent and is as the
    constructor made it but for its count of children (so a node the
    search did not reach keeps the distance [UINT_MAX] and the free
    capacity [INT_MIN]), or its parent is the annotation of a node of the
    same search.  The job and the paths that existed before the search
    are untouched. *)
Theorem X11_Dijkstra_result_shape {A : Annotation} {I : EdgeIterator}
    (fuel : nat) (ms : Z) (source_node : NodeID) (st : State)
    (paths0 : list PathPtr) (st' : State) (paths' : list PathPtr) :
  0 <= Size (job st) <= INVALID_NODE ->
  heap_fresh st ->
  Dijkstra fuel ms source_node st paths0 = Some (st', paths') ->
  job st' = job st /\
  length paths' = Z.to_nat (Size (job st)) /\
  (forall a p, heap st !! a = Some p -> heap st' !! a = Some p) /\
  exists addr : NodeID -> positive,
    (forall n, 0 <= n < Size (job st) ->
       at_node paths' n = Some (Ptr (addr n)) /\ heap st !! addr n = None) /\
    (forall n m, 0 <= n < Size (job st) -> 0 <= m < Size (job st) ->
       addr n = addr m -> n = m) /\
    (forall n p, 0 <= n < Size (job st) ->
       heap st' !! addr n = Some p ->
       node p = n /\
       (parent p = NULL /\
        same_but_links (Path_new n (bool_decide (n = source_node))) p \/
        exists m, 0 <= m < Size (job st) /\ parent p = Ptr (addr m))).
Proof.
  intros [Hsize _] Hfresh Hrun.
  destruct (Dijkstra_shape _ _ _ _ _ _ _ Hsize Hrun)
    as (Hnf & [Hlen Hpaths] & [Hold Hnew] & _).
  split; [eapply Dijkstra_job; eassumption |].
  split; [assumption |].
  split.
  { intros a p Ha. rewrite Hold; [assumption |].
    destruct (Pos.ltb_spec a (next_free st)) as [Hlt|Hge]; [assumption |].
    rewrite (Hfresh a Hge) in Ha. discriminate. }
  exists (anno_addr (next_free st)).
  split; [| split].
  - intros n Hn. split.
    + apply at_node_lookup. split; [lia |]. apply Hpaths. assumption.
    + apply Hfresh. pose proof (anno_addr_pos (next_free st) n) as Hpos. lia.
  - intros n m Hn Hm. apply anno_addr_inj; lia.
  - assumption.
Qed.

(** The search from node 0 of the chain makes three annotations. *)
Lemma X11_Dijkstra_result_shape_witness :
  0 <= Size (job chain_start) <= INVALID_NODE /\
  heap_fresh chain_start /\
  exists st' paths',
    Dijkstra (A := DistanceAnno) (I := GraphEdgeIterator) 10 100 0 chain_start []
      = Some (st', paths') /\
    length paths' = Z.to_nat (Size (job chain_start)).
Proof.
  assert (H : 0 <= Size (job chain_start) <= INVALID_NODE)
    by (vm_compute; split; discriminate).
  assert (Hfresh : heap_fresh chain_start)
    by (intros a _; apply lookup_empty).
  split; [exact H |]. split; [exact Hfresh |].
  destruct (Dijkstra (A := DistanceAnno) (I := GraphEdgeIterator)
              10 100 0 chain_start []) as [[st' paths']|] eqn:E;
    [| vm_compute in E; discriminate].
  exists st', paths'. split; [reflexivity |].
  exact (proj1 (proj2 (X11_Dijkstra_result_shape 10 100 0 chain_start []
                         st' paths' H Hfresh E))).
Defined.

Lemma DistanceAnno_keeps_root : keeps_root DistanceAnno.
Proof.
  intros pd ps cap free_cap dist Hd Hf. simpl.
  unfold DistanceAnnotation.IsBetter. rewrite Hd.
  destruct (distance ps =? UINT_MAX); [reflexivity |].
  change (0 =? UINT_MAX) with false. cbv iota.
  destruct (Z.ltb_spec 0 (free_capacity pd)); [| lia].
  assert ((u32 (distance ps + dist) <? 0) = false) as ->.
  { apply Z.ltb_ge. unfold u32. apply Z.mod_pos_bound. lia. }
  destruct (_ && _); reflexivity.
Qed.

(** X12: the search of the first pass keeps its root.  With the distance
    annotation, the annotation of the node the search starts at is never
    re-parented and never freed: when [Dijkstra] returns it is in the path
    vector at that node, without parent, at distance 0, with capacity
    [UINT_MAX] and free capacity [INT_MAX], and without flow. *)
Theorem X12_distance_search_keeps_root {I : EdgeIterator}
    (fuel : nat) (ms : Z) (source_node : NodeID) (st : State)
    (paths0 : list PathPtr) (st' : State) (paths' : list PathPtr) :
  0 <= source_node < Size (job st) ->
  Dijkstra (A := DistanceAnno) fuel ms source_node st paths0 = Some (st', paths') ->
  exists p,
    at_node paths' source_node
      = Some (Ptr (anno_addr (next_free st) source_node)) /\
    heap st' !! anno_addr (next_free st) source_node = Some p /\
    parent p = NULL /\ node p = source_node /\ origin p = source_node /\
    distance p = 0 /\ capacity p = UINT_MAX /\ free_capacity p = INT_MAX /\
    flow p = 0.
Proof.
  intros Hsrc Hrun.
  assert (0 <= Size (job st)) as Hsize by lia.
  destruct (Dijkstra_shape _ _ _ _ _ _ _ Hsize Hrun)
    as (_ & [_ Hpaths] & [_ Hnew] & Hroot).
  destruct (Hroot DistanceAnno_keeps_root Hsrc) as (p & Hp & Hnull).
  exists p. split; [apply at_node_lookup; split; [lia | apply Hpaths; assumption] |].
  split; [assumption |]. split; [assumption |].
  destruct (Hnew _ _ Hsrc Hp) as [_ [[_ Hfresh]|(m & _ & Hm)]];
    [| rewrite Hnull in Hm; discriminate].
  rewrite bool_decide_eq_true_2 in Hfresh by reflexivity.
  destruct Hfresh as (H1 & H2 & H3 & H4 & H5 & H6). simpl in *. auto 10.
Qed.

(** The root of the search from node 0 of the chain. *)
Lemma X12_distance_search_keeps_root_witness :
  0 <= 0 < Size (job chain_start) /\
  exists st' paths' p,
    Dijkstra (A := DistanceAnno) (I := GraphEdgeIterator) 10 100 0 chain_start []
      = Some (st', paths') /\
    heap st' !! anno_addr (next_free chain_start) 0 = Some p /\
    parent p = NULL /\ distance p = 0.
Proof.
  assert (H : 0 <= 0 < Size (job chain_start))
    by (vm_compute; split; [discriminate | reflexivity]).
  split; [exact H |].
  destruct (Dijkstra (A := DistanceAnno) (I := GraphEdgeIterator)
              10 100 0 chain_start []) as [[st' paths']|] eqn:E;
    [| vm_compute in E; discriminate].
  destruct (X12_distance_search_keeps_root 10 100 0 chain_start [] st' paths' H E)
    as (p & _ & Hp & Hnull & _ & _ & Hd & _).
  exists st', paths', p. split; [reflexivity |]. auto.
Defined.

(** ** Cleaning up *)

Lemma pruned_refl (h : gmap positive Path) : pruned h h.
Proof.
  split.
  - intros a p Hp. exists p. split; [assumption | apply same_but_links_refl].
  - intros a p Hp Hn. rewrite Hp in Hn. discriminate.
Qed.

Lemma same_but_links_parent (q : PathPtr) (p : Path) :
  same_but_links p (set_parent q p).
Proof. repeat split. Qed.

(** [Detach] changes links only. *)
Lemma Detach_frame (h : gmap positive Path) (a : positive)
    (h1 : gmap positive Path) :
  Detach h a = Some h1 ->
  (forall b p1, h1 !! b = Some p1 ->
     exists p, h !! b = Some p /\ same_but_links p p1) /\
  (forall b, h1 !! b = None -> h !! b = None).
Proof.
  unfold Detach. destruct (h !! a) as [p|] eqn:Hp; [| discriminate]. simpl.
  destruct (parent p) as [| |q]; [| discriminate |].
  { intros [= <-]. split; [| auto].
    intros b p1 Hb. exists p1. split; [assumption | apply same_but_links_refl]. }
  destruct (h !! q) as [pq|] eqn:Hq; [| discriminate]. simpl.
  intros [= <-]. split.
  - intros b p1. rewrite lookup_insert.
    destruct (decide (a = b)) as [<-|].
    { intros [= <-]. exists p. split; [assumption | apply same_but_links_parent]. }
    rewrite lookup_insert.
    destruct (decide (q = b)) as [<-|].
    { intros [= <-]. exists pq. split; [assumption | apply same_but_links_children]. }
    intros Hb. exists p1. split; [assumption | apply same_but_links_refl].
  - intros b. rewrite lookup_insert.
    destruct (decide (a = b)); [discriminate |].
    rewrite lookup_insert.
    destruct (decide (q = b)); [discriminate | auto].
Qed.

Lemma pruned_Detach (h0 h : gmap positive Path) (a : positive)
    (h1 : gmap positive Path) :
  pruned h0 h -> Detach h a = Some h1 -> pruned h0 h1.
Proof.
  intros [Hkept Hgone] Hd.
  destruct (Detach_frame _ _ _ Hd) as [Hobj Hdom]. split.
  - intros b p1 Hb. destruct (Hobj b p1 Hb) as (p & Hp & Hs).
    destruct (Hkept b p Hp) as (p0 & Hp0 & Hs0).
    exists p0. split; [assumption |]. eapply same_but_links_trans; eassumption.
  - intros b p Hp Hn. apply (Hgone b p Hp). apply Hdom. assumption.
Qed.

Lemma pruned_delete (h0 h : gmap positive Path) (a : positive) (pa : Path) :
  pruned h0 h -> h !! a = Some pa -> flow pa = 0 -> pruned h0 (delete a h).
Proof.
  intros [Hkept Hgone] Ha Hf. split.
  - intros b p'. rewrite lookup_delete.
    destruct (decide (a = b)); [discriminate |]. apply Hkept.
  - intros b p Hp. rewrite lookup_delete.
    destruct (decide (a = b)) as [<-|]; [| apply Hgone; assumption].
    intros _. destruct (Hkept a pa Ha) as (p0 & Hp0 & Hs).
    rewrite Hp in Hp0. injection Hp0 as <-.
    destruct Hs as (_ & _ & _ & _ & _ & Hflow). congruence.
Qed.

Lemma CleanupPaths_walk_pruned (h0 : gmap positive Path) (source : PathPtr) :
  forall (fuel : nat) (h : gmap positive Path) (paths : list PathPtr)
         (path : PathPtr) (h' : gmap positive Path) (paths' : list PathPtr),
    CleanupPaths_walk fuel source h paths path = Some (h', paths') ->
    pruned h0 h -> pruned h0 h'.
Proof.
  induction fuel as [|fuel IH]; intros h paths path h' paths'.
  - simpl. destruct (decide (path = source)); [intros [= <- _]; auto |].
    destruct path as [| |a]; [intros [= <- _]; auto | discriminate |].
    destruct (h !! a) as [pa|]; [| discriminate]. simpl.
    destruct (negb _); [intros [= <- _]; auto | discriminate].
  - cbn [CleanupPaths_walk].
    destruct (decide (path = source)); [intros [= <- _]; auto |].
    destruct path as [| |a]; [intros [= <- _]; auto | discriminate |].
    destruct (h !! a) as [pa|] eqn:Ha; [| discriminate]. simpl.
    destruct (Z.eqb_spec (flow pa) 0) as [Hflow|]; [| intros [= <- _]; auto].
    simpl.
    destruct (Detach h a) as [h1|] eqn:Hd; [| discriminate]. simpl.
    destruct (h1 !! a) as [pa1|] eqn:Ha1; [| discriminate]. simpl.
    intros Hwalk Hpr.
    pose proof (pruned_Detach _ _ _ _ Hpr Hd) as Hpr1.
    destruct (num_children pa1 =? 0).
    + destruct (at_node paths (node pa1)) as [slot|]; [| discriminate].
      simpl in Hwalk.
      apply IH in Hwalk; [assumption |].
      apply (pruned_delete h0 h1 a pa1); [assumption | assumption |].
      destruct (Detach_frame _ _ _ Hd) as [Hobj _].
      destruct (Hobj a pa1 Ha1) as (p & Hp & Hs).
      rewrite Ha in Hp. injection Hp as <-.
      destruct Hs as (_ & _ & _ & _ & _ & Hf). congruence.
    + apply IH in Hwalk; assumption.
Qed.

Lemma CleanupPaths_step_pruned (h0 : gmap positive Path) (source : PathPtr)
    (h : gmap positive Path) (paths : list PathPtr) (i : nat)
    (h' : gmap positive Path) (paths' : list PathPtr) :
  CleanupPaths_step source (h, paths) i = Some (h', paths') ->
  pruned h0 h -> pruned h0 h'.
Proof.
  unfold CleanupPaths_step.
  destruct (paths !! i) as [path|]; [| discriminate]. simpl.
  intros Hstep Hpr.
  assert (forall h1, pruned h0 h1 ->
            CleanupPaths_walk (S (size h1)) source h1 paths path = Some (h', paths') ->
            pruned h0 h') as Hwalk.
  { intros h1 Hpr1 Hw. eapply CleanupPaths_walk_pruned; eassumption. }
  destruct path as [| |a].
  - injection Hstep as <- _. assumption.
  - simpl in Hstep.
    destruct (decide (NULL = source)); [discriminate |].
    simpl in Hstep. eapply Hwalk; eassumption.
  - simpl in Hstep. destruct (h !! a) as [pp|]; [| discriminate].
    simpl in Hstep.
    destruct (decide (parent pp = source)).
    + destruct (Detach h a) as [h1|] eqn:Hd; [| discriminate].
      simpl in Hstep. eapply Hwalk; [| exact Hstep].
      eapply pruned_Detach; eassumption.
    + simpl in Hstep. eapply Hwalk; eassumption.
Qed.

(** X13: [CleanupPaths] frees only what carries no flow.  It clears the
    path vector and frees the root of the search; apart from the root,
    every path it frees has a flow of 0, and every path that is left is
    the path it was, with its node, origin, distance, capacities and flow:
    only the links to parent and children change.  The job is not
    touched, and no path is created. *)
Theorem X13_CleanupPaths_keeps_flow (source_id : NodeID) (st : State)
    (paths : list PathPtr) (st' : State) (paths' : list PathPtr) :
  CleanupPaths source_id st paths = Some (st', paths') ->
  paths' = [] /\ job st' = job st /\ next_free st' = next_free st /\
  (forall a, at_node paths source_id = Some (Ptr a) -> heap st' !! a = None) /\
  (forall a p', heap st' !! a = Some p' ->
     exists p, heap st !! a = Some p /\ same_but_links p p') /\
  (forall a p, heap st !! a = Some p -> heap st' !! a = None ->
     flow p = 0 \/ at_node paths source_id = Some (Ptr a)).
Proof.
  unfold CleanupPaths.
  destruct (at_node paths source_id) as [source|] eqn:Hsrc; [| discriminate].
  simpl.
  destruct (fold_opt _ _ _) as [[h ps]|] eqn:Hfold; [| discriminate]. simpl.
  assert (pruned (heap st) h) as [Hkept Hgone].
  { apply (fold_opt_ind
             (fun s : gmap positive Path * list PathPtr => pruned (heap st) s.1)
             _ _) in Hfold; [exact Hfold | | apply pruned_refl].
    intros [h1 p1] i [h2 p2] Hpr Hstep. simpl in Hpr |- *.
    eapply CleanupPaths_step_pruned; eassumption. }
  destruct source as [| |a]; [| discriminate |].
  - intros [= <- <-]. simpl.
    split; [reflexivity |]. split; [reflexivity |]. split; [reflexivity |].
    split; [discriminate |]. split; [assumption |].
    intros b p Hp Hn. left. eapply Hgone; eassumption.
  - intros [= <- <-]. simpl.
    split; [reflexivity |]. split; [reflexivity |]. split; [reflexivity |].
    split; [| split].
    + intros b [= <-]. apply lookup_delete_eq.
    + intros b p'. rewrite lookup_delete.
      destruct (decide (a = b)); [discriminate |]. apply Hkept.
    + intros b p Hp. rewrite lookup_delete.
      destruct (decide (a = b)) as [<-|]; [right; reflexivity |].
      intros Hn. left. eapply Hgone; eassumption.
Qed.

(** After the push for node 1 of the chain: the path to node 1 carries
    its flow of 10 through the cleanup. *)
Lemma X13_CleanupPaths_keeps_flow_witness :
  exists st' paths',
    CleanupPaths 0 chain_pushed chain_paths = Some (st', paths') /\
    paths' = [] /\ job st' = job chain_pushed.
Proof.
  destruct (CleanupPaths 0 chain_pushed chain_paths) as [[st' paths']|] eqn:E;
    [| vm_compute in E; discriminate].
  exists st', paths'. split; [reflexivity |].
  destruct (X13_CleanupPaths_keeps_flow 0 chain_pushed chain_paths st' paths' E)
    as (H1 & H2 & _).
  split; assumption.
Defined.

(** ** Progress of the first pass *)

(** A push lowers the total unsatisfied demand by what it moves. *)
Lemma PushFlow_total (st : State) (from to : NodeID) (path : PathPtr)
    (accuracy ms pushed : Z) (st' : State) :
  wf_demand (job st) ->
  PushFlow st from to path accuracy ms = Some (pushed, st') ->
  wf_demand (job st') /\ 0 <= pushed /\
  total_unsatisfied (job st') = total_unsatisfied (job st) - pushed.
Proof.
  intros Hwf Hpush.
  pose proof (PushFlow_nonneg _ _ _ _ _ _ _ _ Hpush) as [Hp0 Hp1].
  destruct (PushFlow_inv _ _ _ _ _ _ _ _ Hpush) as (Hu & Hacc & st1 & Hadd & ->).
  destruct (AddFlow_spec _ _ _ _ _ _ Hadd) as (Hsame & _).
  destruct (AddFlow_total _ _ _ _ _ _ Hadd) as (Htot & Hwf1).
  specialize (Hwf1 Hwf).
  pose proof (wf_get_edge (job st) from to Hwf) as [_ Hmax].
  destruct (Hsame from to) as (_ & Hsu & _).
  simpl. split; [| split; [assumption |]].
  - apply wf_update_edge; [assumption |]. simpl. apply u32_range.
  - rewrite total_update_edge. simpl. rewrite Hsu, Htot.
    rewrite u32_exact by (unfold is_uint; lia). lia.
Qed.

Lemma MCF1stPass_overload_progress (j0 : LinkGraphJob) (accuracy : Z)
    (source dest : NodeID) (path : PathPtr) (st : State) (ml : bool)
    (log : list PushCall) (st' : State) (ml' : bool) (log' : list PushCall) :
  MCF1stPass_overload accuracy source dest path st ml log = Some (st', ml', log') ->
  wf_demand (job st) /\ total_unsatisfied (job st) <= total_unsatisfied j0 /\
    (ml = true -> total_unsatisfied (job st) < total_unsatisfied j0) ->
  wf_demand (job st') /\ total_unsatisfied (job st') <= total_unsatisfied j0 /\
    (ml' = true -> total_unsatisfied (job st') < total_unsatisfied j0).
Proof.
  unfold MCF1stPass_overload. intros Hstep (Hwf & Hle & Hlt).
  destruct (deref (heap st) path) as [pp|]; [| discriminate]. simpl in Hstep.
  destruct (_ && _); [| injection Hstep as <- <- _; auto].
  destruct (PushFlow st source dest path accuracy UINT_MAX) as [[pushed st1]|]
    eqn:Hpush; [| discriminate].
  simpl in Hstep. injection Hstep as <- <- _.
  destruct (PushFlow_total _ _ _ _ _ _ _ _ Hwf Hpush) as (Hwf1 & Hp0 & Htot).
  split; [assumption |]. split; [lia |]. intros Hml. specialize (Hlt Hml). lia.
Qed.

Lemma MCF1stPass_dest_progress (j0 : LinkGraphJob) (ms accuracy : Z)
    (source : NodeID) (paths : list PathPtr) (st : State) (ml : bool)
    (log : list PushCall) (dest : NodeID) (st' : State) (ml' : bool)
    (log' : list PushCall) :
  MCF1stPass_dest ms accuracy source paths (st, ml, log) dest
    = Some (st', ml', log') ->
  wf_demand (job st) /\ total_unsatisfied (job st) <= total_unsatisfied j0 /\
    (ml = true -> total_unsatisfied (job st) < total_unsatisfied j0) ->
  wf_demand (job st') /\ total_unsatisfied (job st') <= total_unsatisfied j0 /\
    (ml' = true -> total_unsatisfied (job st') < total_unsatisfied j0).
Proof.
  unfold MCF1stPass_dest. intros Hstep Hinv.
  destruct (0 <? UnsatisfiedDemand (get_edge (job st) source dest));
    [| injection Hstep as <- <- _; exact Hinv].
  destruct (at_node paths dest) as [path|]; [| discriminate]. simpl in Hstep.
  destruct (decide (path = NULL)); [discriminate |].
  destruct (deref (heap st) path) as [pp|]; [| discriminate]. simpl in Hstep.
  destruct (0 <? free_capacity pp);
    [| eapply MCF1stPass_overload_progress; eassumption].
  destruct (PushFlow st source dest path accuracy ms) as [[pushed st1]|]
    eqn:Hpush; [| discriminate].
  simpl in Hstep. destruct Hinv as (Hwf & Hle & Hlt).
  destruct (PushFlow_total _ _ _ _ _ _ _ _ Hwf Hpush) as (Hwf1 & Hp0 & Htot).
  destruct (Z.ltb_spec 0 pushed).
  - injection Hstep as <- <- _. split; [assumption |]. split; [lia |].
    intros _. lia.
  - eapply MCF1stPass_overload_progress; [exact Hstep |].
    split; [assumption |]. split; [lia |]. intros Hml. specialize (Hlt Hml). lia.
Qed.

Lemma MCF1stPass_source_progress (j0 : LinkGraphJob) (dfuel : nat) (ms : Z)
    (st : State) (ml : bool) (log : list PushCall) (source : NodeID)
    (st' : State) (ml' : bool) (log' : list PushCall) :
  MCF1stPass_source dfuel ms (st, ml, log) source = Some (st', ml', log') ->
  wf_demand (job st) /\ total_unsatisfied (job st) <= total_unsatisfied j0 /\
    (ml = true -> total_unsatisfied (job st) < total_unsatisfied j0) ->
  wf_demand (job st') /\ total_unsatisfied (job st') <= total_unsatisfied j0 /\
    (ml' = true -> total_unsatisfied (job st') < total_unsatisfied j0).
Proof.
  unfold MCF1stPass_source. intros Hstep Hinv.
  destruct (Dijkstra _ _ _ _ _) as [[st1 paths]|] eqn:Hd; [| discriminate].
  simpl in Hstep.
  destruct (fold_opt _ _ _) as [[[st2 ml2] log2]|] eqn:Hfold; [| discriminate].
  simpl in Hstep.
  destruct (CleanupPaths _ _ _) as [[st3 ps]|] eqn:Hc; [| discriminate].
  simpl in Hstep. injection Hstep as <- <- _.
  rewrite (CleanupPaths_job _ _ _ _ _ Hc).
  apply (fold_opt_ind
    (fun s : State * bool * list PushCall =>
       wf_demand (job s.1.1) /\
       total_unsatisfied (job s.1.1) <= total_unsatisfied j0 /\
       (s.1.2 = true -> total_unsatisfied (job s.1.1) < total_unsatisfied j0))
    _ _) in Hfold; [exact Hfold | |].
  - intros [[s b] l] x [[s' b'] l'] Hs Hr. simpl in Hs |- *.
    eapply MCF1stPass_dest_progress; eassumption.
  - simpl. rewrite (Dijkstra_job _ _ _ _ _ _ _ Hd). exact Hinv.
Qed.

(** X14: a round of the first pass that asks for another one has made
    progress.  The loop over the sources never raises the total
    unsatisfied demand, and it ends with [more_loops] set only if it has
    lowered that total strictly: [more_loops] is raised by a saturating
    push that moved something, and nothing but pushes changes demands.  So
    the rounds repeated on account of [more_loops] are fewer than the
    unsatisfied demand the pass started with. *)
Theorem X14_first_pass_round_progress (dfuel : nat) (ms : Z) (st : State)
    (log : list PushCall) (st' : State) (more_loops : bool)
    (log' : list PushCall) :
  wf_demand (job st) ->
  fold_opt (MCF1stPass_source dfuel ms) (seqZ 0 (Size (job st))) (st, false, log)
    = Some (st', more_loops, log') ->
  wf_demand (job st') /\
  0 <= total_unsatisfied (job st') <= total_unsatisfied (job st) /\
  (more_loops = true -> total_unsatisfied (job st') < total_unsatisfied (job st)).
Proof.
  intros Hwf Hfold.
  apply (fold_opt_ind
    (fun s : State * bool * list PushCall =>
       wf_demand (job s.1.1) /\
       total_unsatisfied (job s.1.1) <= total_unsatisfied (job st) /\
       (s.1.2 = true -> total_unsatisfied (job s.1.1) < total_unsatisfied (job st)))
    _ _) in Hfold.
  - destruct Hfold as (Hwf' & Hle & Hlt). simpl in *.
    pose proof (total_nonneg _ Hwf'). auto.
  - intros [[s b] l] x [[s' b'] l'] Hs Hr. simpl in Hs |- *.
    eapply MCF1stPass_source_progress; eassumption.
  - simpl. split; [assumption |]. split; [lia | discriminate].
Qed.

(** The first round on [split_job] pushes 4 of the demand of 8 and asks
    for another round. *)
Lemma X14_first_pass_round_progress_witness :
  wf_demand (job split_start) /\
  exists st' log',
    fold_opt (MCF1stPass_source 10 100) (seqZ 0 (Size (job split_start)))
             (split_start, false, []) = Some (st', true, log') /\
    total_unsatisfied (job st') < total_unsatisfied (job split_start).
Proof.
  assert (H : wf_demand (job split_start)).
  { intros k e Hk. simpl in Hk.
    apply lookup_singleton_Some in Hk as [_ <-].
    vm_compute. split; discriminate. }
  split; [exact H |].
  destruct (fold_opt (MCF1stPass_source 10 100) (seqZ 0 (Size (job split_start)))
                     (split_start, false, [])) as [[[st' ml] log']|] eqn:E;
    [| vm_compute in E; discriminate].
  assert (ml = true) as ->.
  { vm_compute in E. injection E as _ <- _. reflexivity. }
  exists st', log'. split; [reflexivity |].
  exact (proj2 (proj2 (X14_first_pass_round_progress 10 100 split_start []
                         st' true log' H E)) eq_refl).
Defined.

(** ** What a search without a cycle has shown *)

Lemma fragments_at_valid (st : State) (len : nat) (k : NodeID) (p : PathPtr) :
  fragments_valid st len -> p ∈ fragments_at st k ->
  valid_fragment (heap st) len p.
Proof.
  unfold fragments_at. intros Hfrag Hin.
  destruct (Paths (job st) !! k) as [l|] eqn:Hl; simpl in Hin.
  - eapply Hfrag; eassumption.
  - apply elem_of_nil in Hin. contradiction.
Qed.

Lemma fragments_at_shape (st st' : State) (k : NodeID) :
  same_shape st st' -> fragments_at st' k = fragments_at st k.
Proof. intros [_ Hp]. unfold fragments_at. rewrite Hp. reflexivity. Qed.

(** Along paths that all carry flow and lead to one another, the loop of
    [FindCycleFlow] finds a positive flow. *)
Lemma FindCycleFlow_loop_positive (h : gmap positive Path) (path : list PathPtr)
    (cycle_end : PathPtr) (on : positive -> Prop) :
  (forall c, on c ->
     exists pc, h !! c = Some pc /\ 0 < flow pc /\
       exists c', at_node path (node pc) = Some (Ptr c') /\ on c') ->
  forall (fuel : nat) (fl : Z) (c : positive) (f : Z),
    0 < fl -> on c ->
    FindCycleFlow_loop fuel h path cycle_end fl (Ptr c) = Some f -> 0 < f.
Proof.
  intros Hon. induction fuel as [|fuel IH]; intros fl c f Hfl Hc; simpl;
    [discriminate |].
  destruct (Hon c Hc) as (pc & Hpc & Hflow & c' & Hnext & Hc').
  rewrite Hpc. simpl. rewrite Hnext. simpl.
  destruct (decide (Ptr c' = cycle_end)).
  - intros [= <-]. lia.
  - apply IH; [lia | assumption].
Qed.

(** A path followed from a node in progress ends at the next node in
    progress, or at the node searched. *)
Lemma on_stack_next (h : gmap positive Path) (path : list PathPtr)
    (stack : list (NodeID * positive)) (next_id k : NodeID) (c : positive) :
  on_stack h path stack next_id -> (k, c) ∈ stack ->
  exists m, node_at h c = Some m /\ (m = next_id \/ exists c', (m, c') ∈ stack).
Proof.
  induction stack as [|[n d] stack IH]; simpl; intros Hs Hin.
  - apply elem_of_nil in Hin. contradiction.
  - destruct Hs as (_ & Hn & Hs).
    apply elem_of_cons in Hin as [[= -> ->]|Hin].
    + eexists. split; [exact Hn |].
      destruct stack as [|[n2 c2] stack]; simpl; [left; reflexivity |].
      right. exists c2. apply elem_of_cons. right. apply elem_of_cons. left.
      reflexivity.
    + destruct (IH Hs Hin) as (m & Hm & [->|(c' & Hc')]).
      * exists next_id. split; [assumption | left; reflexivity].
      * exists m. split; [assumption |]. right. exists c'.
        apply elem_of_cons. right. assumption.
Qed.

(** Once a cycle has been found the loop over the children reports it. *)
Lemma children_found_stays
    (rec : State -> list PathPtr -> NodeID -> option (bool * State * list PathPtr))
    (next_id : NodeID) :
  forall (nh : list (NodeID * PathPtr)) (st : State) (P : list PathPtr)
         (found : bool) (st' : State) (P' : list PathPtr),
    fold_opt (EliminateCycles_child rec next_id) nh (true, st, P)
      = Some (found, st', P') -> found = true.
Proof.
  induction nh as [|via nh IH]; intros st P found st' P'; cbn [fold_opt].
  - intros [= <- _ _]. reflexivity.
  - unfold EliminateCycles_child at 1.
    destruct (deref (heap st) via.2) as [child|]; [| discriminate]. simpl.
    destruct (0 <? flow child); [| apply IH].
    destruct (rec st _ _) as [[[r s1] P1]|]; [| discriminate]. simpl.
    rewrite orb_true_r. apply IH.
Qed.

(** The heap after the fragments of a node have been summarized. *)
Lemma summarize_result (origin_id : NodeID) (h : gmap positive Path)
    (l : list PathPtr) (h1 : gmap positive Path) (nh : list (NodeID * PathPtr)) :
  NoDup l ->
  (forall p, p ∈ l ->
     exists a pa, p = Ptr a /\ h !! a = Some pa /\ is_uint (flow pa)) ->
  summarize origin_id h l = Some (h1, nh) ->
  (forall k p, (k, p) ∈ nh ->
     exists r pr, p = Ptr r /\ p ∈ l /\ h !! r = Some pr /\ node pr = k /\
       origin pr = origin_id /\
       h1 !! r = Some (set_flow (u32 (merged_flow origin_id k h l)) pr)) /\
  (forall a pa, Ptr a ∈ l -> h !! a = Some pa -> origin pa = origin_id ->
     (node pa, Ptr a) ∈ nh \/ h1 !! a = Some (set_flow 0 pa)) /\
  (forall a pa, h !! a = Some pa ->
     Ptr a ∉ l \/ origin pa <> origin_id -> h1 !! a = Some pa).
Proof.
  intros Hnd Hval Hsum.
  destruct (summarize_fold_merges origin_id l h [] Hnd Hval)
    as (h1' & nh' & Hsum' & Q1 & _ & _ & Q4 & Q5 & Q6).
  { constructor. }
  { intros k p Hin. apply elem_of_nil in Hin. contradiction. }
  unfold summarize in Hsum. rewrite Hsum in Hsum'. injection Hsum' as <- <-.
  split; [| split].
  - intros k p Hin.
    destruct (Q4 k p Hin) as (r & pr & -> & Hr & Hn & _ & Hnew).
    destruct (Hnew ltac:(apply not_elem_of_nil)) as (Hl & Ho & Hr').
    exists r, pr. auto 10.
  - assumption.
  - intros a pa Hpa Hcond.
    apply Q6; [assumption | assumption |].
    intros k Hk.
    destruct (Q4 k _ Hk) as (r & pr & [= <-] & Hr & _ & _ & Hnew).
    destruct (Hnew ltac:(apply not_elem_of_nil)) as (Hl & Ho & _).
    rewrite Hpa in Hr. injection Hr as <-. tauto.
Qed.

(** The path vector and the stack when the search goes down from the
    unvisited node [next_id] along its fragment [c']. *)
Lemma search_stack_push (st0 s : State) (V0 P : list PathPtr)
    (stk : list (NodeID * positive)) (next_id m : NodeID) (c' : positive) :
  at_node V0 next_id = Some NULL ->
  search_stack (heap st0) V0 stk next_id ->
  same_shape st0 s ->
  path_evolves V0 (<[Z.to_nat next_id := NULL]> P) ->
  node_at (heap s) c' = Some m ->
  search_stack (heap s) (<[Z.to_nat next_id := Ptr c']> P)
               (stk ++ [(next_id, c')]) m /\
  (length stk + 1 <= length V0)%nat /\
  length (<[Z.to_nat next_id := Ptr c']> P) = length V0.
Proof.
  intros Hnull (Hstack & Hnd & Hall) Hshape Hev Hm.
  pose proof (at_node_range _ _ _ Hnull) as Hrange.
  apply at_node_lookup in Hnull as Hnull'. destruct Hnull' as [_ Hi].
  pose proof (Forall2_length _ _ _ Hev) as HlenP. rewrite length_insert in HlenP.
  assert (Hfresh : next_id ∉ stk.*1).
  { intros Hin. apply list_elem_of_fmap in Hin as ([n c] & Hn & Hin).
    simpl in Hn. subst n.
    pose proof (on_stack_elem _ _ _ _ _ _ Hstack Hin) as Hp.
    rewrite Hnull in Hp. discriminate. }
  assert (Hroom : (length stk + 1 <= length V0)%nat).
  { pose proof (nodes_bound (next_id :: stk.*1) (length V0)) as Hb.
    simpl in Hb. rewrite length_fmap in Hb.
    assert (NoDup (next_id :: stk.*1)) as Hnd' by (apply NoDup_cons; auto).
    specialize (Hb Hnd').
    assert (Hin : forall n, n ∈ next_id :: stk.*1 ->
                    0 <= n < Z.of_nat (length V0)).
    { intros n Hn. apply elem_of_cons in Hn as [->|Hn]; [assumption |].
      apply list_elem_of_fmap in Hn as ([n' c] & -> & Hin).
      eapply at_node_range. eapply on_stack_elem; eassumption. }
    specialize (Hb Hin). lia. }
  set (V := <[Z.to_nat next_id := Ptr c']> P).
  assert (HlenV : length V = length V0) by (unfold V; rewrite length_insert; lia).
  assert (HP : forall j x, j <> Z.to_nat next_id -> V0 !! j = Some x ->
                 exists y, P !! j = Some y /\ slot_evolves x y).
  { intros j x Hj Hx.
    destruct (lookup_lt_is_Some_2 P j) as [y Hy].
    { apply lookup_lt_Some in Hx. lia. }
    exists y. split; [assumption |].
    eapply (Forall2_lookup_lr _ _ _ j); [exact Hev | exact Hx |].
    rewrite list_lookup_insert_ne by congruence. exact Hy. }
  split; [| split; assumption].
  split; [| split].
  - apply (on_stack_push (heap st0) (heap s) V0 V next_id).
    + assumption.
    + intros n c Hin.
      pose proof (on_stack_elem _ _ _ _ _ _ Hstack Hin) as Hp.
      assert (Hne : next_id <> n).
      { intros ->. rewrite Hnull in Hp. discriminate. }
      unfold V. rewrite at_node_insert_ne by lia.
      apply at_node_lookup in Hp as [Hn0 Hp].
      destruct (HP (Z.to_nat n) (Ptr c) ltac:(lia) Hp) as (y & Hy & [Hs _]).
      apply at_node_lookup. split; [assumption |].
      rewrite Hy, (Hs ltac:(discriminate)). reflexivity.
    + apply Hshape.
    + unfold V. apply at_node_insert_eq. lia.
    + assumption.
  - rewrite fmap_app. apply NoDup_app. split; [assumption |].
    split; [| apply NoDup_singleton].
    intros x Hx Hx'. apply list_elem_of_singleton in Hx'. simpl in Hx'.
    subst x. contradiction.
  - intros j c Hj. apply elem_of_app.
    destruct (decide (next_id = j)) as [<-|Hne].
    + right. unfold V in Hj. rewrite at_node_insert_eq in Hj by lia.
      injection Hj as <-. apply list_elem_of_singleton. reflexivity.
    + left. apply Hall. unfold V in Hj.
      rewrite at_node_insert_ne in Hj by lia.
      apply at_node_lookup in Hj as [Hj0 Hj].
      destruct (lookup_lt_is_Some_2 V0 (Z.to_nat j)) as [x Hx].
      { apply lookup_lt_Some in Hj. lia. }
      destruct (HP (Z.to_nat j) x ltac:(lia) Hx) as (y & Hy & [Hs1 Hs2]).
      rewrite Hj in Hy. injection Hy as <-.
      apply at_node_lookup. split; [assumption |].
      destruct (decide (x = NULL)) as [->|Hx0].
      * destruct (Hs2 eq_refl); discriminate.
      * rewrite Hx, (Hs1 Hx0). reflexivity.
Qed.

(** Slots other than that of the node being expanded, in the path vector
    [P] of the loop over its children. *)
Lemma evolved_slot (V0 P : list PathPtr) (next_id k : NodeID) :
  path_evolves V0 (<[Z.to_nat next_id := NULL]> P) ->
  0 <= next_id -> k <> next_id ->
  (forall x, x <> NULL -> at_node V0 k = Some x -> at_node P k = Some x) /\
  (at_node P k = Some NULL -> at_node V0 k = Some NULL) /\
  (forall c, at_node P k = Some (Ptr c) -> at_node V0 k = Some (Ptr c)).
Proof.
  intros Hev Hn Hk.
  pose proof (Forall2_length _ _ _ Hev) as Hlen. rewrite length_insert in Hlen.
  assert (forall x y, at_node V0 k = Some x -> at_node P k = Some y ->
            slot_evolves x y) as Hslot.
  { intros x y Hx Hy.
    apply at_node_lookup in Hx as [Hk0 Hx]. apply at_node_lookup in Hy as [_ Hy].
    eapply (Forall2_lookup_lr _ _ _ (Z.to_nat k)); [exact Hev | exact Hx |].
    rewrite list_lookup_insert_ne by lia. exact Hy. }
  assert (forall x, at_node V0 k = Some x -> exists y, at_node P k = Some y) as HexP.
  { intros x Hx. apply at_node_is_Some. rewrite <- Hlen.
    eapply at_node_range. eassumption. }
  assert (forall y, at_node P k = Some y -> exists x, at_node V0 k = Some x) as HexV.
  { intros y Hy. apply at_node_is_Some. rewrite Hlen.
    eapply at_node_range. eassumption. }
  split; [| split].
  - intros x Hx0 Hx. destruct (HexP x Hx) as [y Hy].
    destruct (Hslot x y Hx Hy) as [Hs _]. rewrite Hy, (Hs Hx0). reflexivity.
  - intros Hy. destruct (HexV _ Hy) as [x Hx].
    destruct (Hslot x NULL Hx Hy) as [Hs _].
    destruct (decide (x = NULL)) as [->|Hx0]; [assumption |].
    specialize (Hs Hx0). congruence.
  - intros c Hy. destruct (HexV _ Hy) as [x Hx].
    destruct (Hslot x (Ptr c) Hx Hy) as [Hs1 Hs2].
    destruct (decide (x = NULL)) as [->|Hx0].
    + destruct (Hs2 eq_refl); discriminate.
    + rewrite Hx. f_equal. symmetry. apply Hs1. assumption.
Qed.

Lemma resolved_evolves (V V' : list PathPtr) (k : NodeID) :
  path_evolves V V' -> resolved V k -> resolved V' k.
Proof.
  unfold resolved. intros Hev Hk.
  pose proof (Forall2_length _ _ _ Hev) as Hlen.
  destruct (at_node_is_Some V' k) as [y Hy].
  { rewrite <- Hlen. eapply at_node_range. eassumption. }
  apply at_node_lookup in Hk as [Hk0 Hk]. apply at_node_lookup in Hy as Hy'.
  destruct Hy' as [_ Hy'].
  destruct (Forall2_lookup_lr _ _ _ _ _ _ Hev Hk Hy') as [Hs _].
  rewrite Hy. f_equal. apply Hs. discriminate.
Qed.

Lemma origins_kept_refl (origin_id : NodeID) (h : gmap positive Path) :
  origins_kept origin_id h h.
Proof. intros a pa Ha. exists pa. auto. Qed.

Lemma origins_kept_trans (origin_id : NodeID) (h1 h2 h3 : gmap positive Path) :
  origins_kept origin_id h1 h2 -> origins_kept origin_id h2 h3 ->
  origins_kept origin_id h1 h3.
Proof.
  intros H12 H23 a pa Ha.
  destruct (H12 a pa Ha) as (p2 & Hp2 & Ho2 & Hsame2).
  destruct (H23 a p2 Hp2) as (p3 & Hp3 & Ho3 & Hsame3).
  exists p3. split; [assumption |]. split; [congruence |].
  intros Hne. rewrite <- (Hsame2 Hne). apply Hsame3. congruence.
Qed.

(** The loop over the children of an unvisited node, when no cycle is
    found: every child that carries flow ends up resolved. *)
Lemma children_loop_orders (origin_id : NodeID)
    (rec : State -> list PathPtr -> NodeID -> option (bool * State * list PathPtr))
    (bound : nat) (V0 : list PathPtr) (stk : list (NodeID * positive))
    (next_id : NodeID) (st0 : State) :
  call_orders origin_id rec bound ->
  at_node V0 next_id = Some NULL ->
  search_stack (heap st0) V0 stk next_id ->
  stack_flows st0 stk ->
  fragments_valid st0 (length V0) ->
  fragments_owned st0 ->
  (length V0 - length stk < S bound)%nat ->
  forall (nh : list (NodeID * PathPtr)) (s : State) (P : list PathPtr)
         (rank : NodeID -> nat) (s' : State) (P' : list PathPtr),
    (forall k p, (k, p) ∈ nh ->
       p ∈ fragments_at st0 next_id /\
       exists a pa, p = Ptr a /\ heap st0 !! a = Some pa /\ node pa = k) ->
    same_shape st0 s ->
    path_evolves V0 (<[Z.to_nat next_id := NULL]> P) ->
    ~ resolved P next_id ->
    fragments_owned s ->
    unvisited_only st0 (<[Z.to_nat next_id := invalid_path]> V0) (heap s) ->
    origins_kept origin_id (heap st0) (heap s) ->
    ranked origin_id s P rank ->
    fold_opt (EliminateCycles_child rec next_id) nh (false, s, P)
      = Some (false, s', P') ->
    same_shape st0 s' /\
    path_evolves V0 (<[Z.to_nat next_id := NULL]> P') /\
    ~ resolved P' next_id /\
    fragments_owned s' /\
    unvisited_only st0 (<[Z.to_nat next_id := invalid_path]> V0) (heap s') /\
    origins_kept origin_id (heap st0) (heap s') /\
    (exists rank', ranked origin_id s' P' rank') /\
    (forall k, resolved P k -> resolved P' k) /\
    (forall k a pa, (k, Ptr a) ∈ nh -> heap st0 !! a = Some pa -> 0 < flow pa ->
       resolved P' k).
Proof.
  intros Hcall Hnull Hss Hsf Hfrag Hown Hfuel.
  pose proof (at_node_range _ _ _ Hnull) as Hrange.
  apply at_node_lookup in Hnull as Hnull'. destruct Hnull' as [_ Hi].
  destruct Hown as (Hnodup & Hdisj & Huint).
  (* the fragments of the node are not those of an unvisited node *)
  assert (Hmine : forall a, Ptr a ∈ fragments_at st0 next_id ->
            forall k, Ptr a ∈ fragments_at st0 k ->
              at_node (<[Z.to_nat next_id := invalid_path]> V0) k <> Some NULL).
  { intros a Ha k Hk. rewrite (Hdisj _ _ _ Hk Ha).
    rewrite at_node_insert_eq by assumption. discriminate. }
  induction nh as [|[k p] nh IH]; intros s P rank s' P' Hval Hshape Hev Hnr
    Howns Hframe Hkept Hrank; cbn [fold_opt].
  { intros [= <- <-]. split; [assumption |]. split; [assumption |].
    split; [assumption |]. split; [assumption |]. split; [assumption |].
    split; [assumption |]. split; [eauto |]. split; [auto |].
    intros k a pa Hin. apply elem_of_nil in Hin. contradiction. }
  destruct (Hval k p ltac:(apply elem_of_cons; left; reflexivity))
    as (Hpl & c' & pa & -> & Hpa & Hnode).
  assert (Hrest : forall k p, (k, p) ∈ nh ->
            p ∈ fragments_at st0 next_id /\
            exists a pa, p = Ptr a /\ heap st0 !! a = Some pa /\ node pa = k).
  { intros k' p' Hin. apply Hval. apply elem_of_cons. right. assumption. }
  assert (Hpa_s : heap s !! c' = Some pa).
  { rewrite (Hframe c' (Hmine c' Hpl)). assumption. }
  unfold EliminateCycles_child at 1. cbn [snd deref]. rewrite Hpa_s. simpl.
  destruct (Z.ltb_spec 0 (flow pa)) as [Hflow|Hflow].
  2:{ intros Hfold.
      destruct (IH s P rank s' P' Hrest Hshape Hev Hnr Howns Hframe Hkept Hrank
                  Hfold)
        as (C1 & C2 & C3 & C4 & C5 & C5' & C6 & C7 & C8).
      repeat (split; [assumption |]).
      intros k2 a pa2 Hin Hpa2 Hf2.
      apply elem_of_cons in Hin as [[= -> ->]|Hin]; [| eapply C8; eassumption].
      rewrite Hpa in Hpa2. injection Hpa2 as <-. lia. }
  rewrite Hnode.
  set (V := <[Z.to_nat next_id := Ptr c']> P).
  destruct (rec s V k) as [[[r s1] V1]|] eqn:Hrec; [| discriminate]. simpl.
  destruct r.
  { intros Hfold. apply children_found_stays in Hfold. discriminate. }
  intros Hfold.
  assert (Hk : node_at (heap s) c' = Some k).
  { unfold node_at. rewrite Hpa_s. simpl. congruence. }
  destruct (search_stack_push st0 s V0 P stk next_id k c' Hnull Hss Hshape Hev Hk)
    as (Hss' & Hroom & HlenV).
  fold V in Hss', HlenV.
  assert (Hkr : 0 <= k < Z.of_nat (length V0)).
  { destruct (fragments_at_valid _ _ _ _ Hfrag Hpl) as (a & m & [= <-] & Ha & Hm).
    unfold node_at in Ha. rewrite Hpa in Ha. simpl in Ha.
    injection Ha as <-. congruence. }
  assert (Hslots : forall k2, k2 <> next_id -> at_node V k2 = at_node P k2).
  { intros k2 Hk2. unfold V. apply at_node_insert_ne; [lia | congruence]. }
  assert (HVnext : at_node V next_id = Some (Ptr c')).
  { unfold V. apply at_node_insert_eq. pose proof HlenV as HlenV'.
    unfold V in HlenV'. rewrite length_insert in HlenV'. lia. }
  destruct (Hcall s V (stk ++ [(next_id, c')]) k rank s1 V1)
    as (Hshape1 & Hev1 & Hown1 & Hres1 & Hframe1 & Hkept1 & rank1 & Hrank1).
  - rewrite HlenV. eapply fragments_valid_shape; eassumption.
  - assumption.
  - assumption.
  - intros k2 c2 Hin. apply elem_of_app in Hin as [Hin|Hin].
    + destruct (Hsf k2 c2 Hin) as (Hc2 & pc & Hpc & Hfl).
      rewrite (fragments_at_shape _ _ _ Hshape).
      split; [assumption |]. exists pc. split; [| assumption].
      rewrite <- Hpc. apply Hframe. intros k3 Hk3.
      rewrite (Hdisj _ _ _ Hk3 Hc2).
      destruct Hss as (Hstack & _).
      pose proof (on_stack_elem _ _ _ _ _ _ Hstack Hin) as Hat.
      assert (next_id <> k2) by (intros ->; rewrite Hnull in Hat; discriminate).
      rewrite at_node_insert_ne by lia. rewrite Hat. discriminate.
    + apply list_elem_of_singleton in Hin. injection Hin as -> ->.
      rewrite (fragments_at_shape _ _ _ Hshape).
      split; [assumption |]. exists pa. split; assumption.
  - rewrite HlenV. assumption.
  - rewrite HlenV, length_app. simpl. lia.
  - intros n m Hn Hedge.
    assert (n <> next_id) as Hne.
    { intros ->. unfold resolved in Hn. rewrite HVnext in Hn. discriminate. }
    unfold resolved in Hn. rewrite (Hslots n Hne) in Hn.
    destruct (Hrank n m Hn Hedge) as [Hm Hlt]. split; [| assumption].
    assert (m <> next_id) as Hme by (intros ->; contradiction).
    unfold resolved. rewrite (Hslots m Hme). assumption.
  - assumption.
  - destruct (evolves_after_child V0 P V1 (Z.to_nat next_id) (Ptr c')
                Hi Hev Hev1 ltac:(discriminate)) as (Hev3 & HV1).
    assert (Hnr1 : ~ resolved V1 next_id).
    { unfold resolved. intros Hr. apply at_node_lookup in Hr as [_ Hr].
      rewrite HV1 in Hr. discriminate. }
    assert (Hframe' :
      unvisited_only st0 (<[Z.to_nat next_id := invalid_path]> V0) (heap s1)).
    { intros a Hprem. rewrite <- (Hframe a Hprem). apply Hframe1.
      intros k2 Hk2. rewrite (fragments_at_shape _ _ _ Hshape) in Hk2.
      specialize (Hprem k2 Hk2).
      destruct (decide (k2 = next_id)) as [->|Hne]; [rewrite HVnext; discriminate |].
      rewrite at_node_insert_ne in Hprem by lia.
      rewrite (Hslots k2 Hne). intros HP. apply Hprem.
      destruct (evolved_slot V0 P next_id k2 Hev ltac:(lia) Hne) as (_ & Hnul & _).
      apply Hnul. assumption. }
    destruct (IH s1 V1 rank1 s' P' Hrest
                (same_shape_trans _ _ _ Hshape Hshape1) Hev3 Hnr1 Hown1 Hframe'
                (origins_kept_trans _ _ _ _ Hkept Hkept1) Hrank1 Hfold)
      as (C1 & C2 & C3 & C4 & C5 & C5' & C6 & C7 & C8).
    repeat (split; [assumption |]).
    assert (Hpers : forall k2, resolved P k2 -> resolved P' k2).
    { intros k2 Hk2. apply C7. apply (resolved_evolves V V1); [assumption |].
      assert (k2 <> next_id) as Hne by (intros ->; contradiction).
      unfold resolved. rewrite (Hslots k2 Hne). assumption. }
    split; [exact Hpers |].
    intros k2 a pa2 Hin Hpa2 Hf2.
    apply elem_of_cons in Hin as [[= -> ->]|Hin]; [| eapply C8; eassumption].
    apply C7. assumption.
Qed.

(** The search that reports no cycle resolves the node it was called for
    and keeps the resolved nodes ranked. *)
Lemma EliminateCycles_rec_orders (origin_id : NodeID) :
  forall fuel : nat,
    call_orders origin_id (EliminateCycles_rec fuel origin_id) fuel.
Proof.
  induction fuel as [|n IH];
    intros st V stk nx rank st' V' Hfrag Hown Hss Hsf Hrange Hfuel Hrank Hrun;
    [lia |].
  destruct (EliminateCycles_rec_returns origin_id (S n) st V stk nx
              Hfrag Hss Hrange Hfuel) as (found & st'' & V'' & Hret & Hshape & Hev).
  rewrite Hret in Hrun. injection Hrun as -> -> ->.
  split; [assumption |]. split; [assumption |].
  cbn [EliminateCycles_rec] in Hret.
  destruct (at_node_is_Some V nx Hrange) as [p Hp]. rewrite Hp in Hret.
  simpl in Hret.
  destruct p as [| |c].
  - (* an unvisited node *)
    change (default [] (Paths (job st) !! nx)) with (fragments_at st nx) in Hret.
    set (l := fragments_at st nx) in *.
    destruct (summarize origin_id (heap st) l) as [[h1 nh]|] eqn:Hsum;
      [| discriminate].
    simpl in Hret.
    destruct (fold_opt _ nh _) as [[[f2 st2] V2]|] eqn:Hfold; [| discriminate].
    simpl in Hret. injection Hret as Hf2 Hst2 HV2. subst f2 st2.
    pose proof Hown as (Hnodup & Hdisj & Huint).
    assert (Hheap : forall k a, Ptr a ∈ fragments_at st k ->
              exists pa, heap st !! a = Some pa /\
                         0 <= node pa < Z.of_nat (length V)).
    { intros k a Ha.
      destruct (fragments_at_valid _ _ _ _ Hfrag Ha) as (a' & m & [= <-] & Hm & Hr).
      unfold node_at in Hm. destruct (heap st !! a) as [pa|]; [| discriminate].
      injection Hm as <-. eauto. }
    assert (Hl : forall p, p ∈ l ->
              exists a pa, p = Ptr a /\ heap st !! a = Some pa /\ is_uint (flow pa)).
    { intros p Hin.
      destruct (fragments_at_valid _ _ _ _ Hfrag Hin) as (a & m & -> & _).
      destruct (Hheap nx a Hin) as (pa & Hpa & _).
      exists a, pa. split; [reflexivity |]. split; [assumption |].
      eapply Huint; eassumption. }
    destruct (summarize_result origin_id (heap st) l h1 nh (Hnodup nx) Hl Hsum)
      as (S1 & S2 & S3).
    assert (Hnodes : forall x, node_at h1 x = node_at (heap st) x).
    { destruct (summarize_ok origin_id l l (heap st) []) as (h1' & nh' & Hsum' & Hs & _).
      - intros p Hin. split; [assumption |].
        destruct (Hl p Hin) as (a & pa & -> & Hpa & _). eauto.
      - intros k p Hin. apply elem_of_nil in Hin. contradiction.
      - unfold summarize in Hsum. rewrite Hsum in Hsum'.
        injection Hsum' as <- _. exact Hs. }
    (* the objects that are not fragments of the origin at this node *)
    assert (Hother : forall a, Ptr a ∉ l -> h1 !! a = heap st !! a).
    { intros a Ha. destruct (heap st !! a) as [pa|] eqn:Hpa.
      - apply S3; [assumption | left; assumption].
      - specialize (Hnodes a). unfold node_at in Hnodes. rewrite Hpa in Hnodes.
        destruct (h1 !! a); [discriminate | reflexivity]. }
    assert (Helse : forall k a, Ptr a ∈ fragments_at st k -> k <> nx -> Ptr a ∉ l).
    { intros k a Ha Hk Hin. apply Hk. eapply Hdisj; eassumption. }
    (* a fragment of this node after the merge *)
    assert (Hmerged : forall a p1, Ptr a ∈ l -> h1 !! a = Some p1 ->
              exists pa, heap st !! a = Some pa /\ node p1 = node pa /\
                origin p1 = origin pa /\ is_uint (flow p1) /\
                (origin pa = origin_id -> 0 < flow p1 -> (node pa, Ptr a) ∈ nh)).
    { intros a p1 Ha Hp1. destruct (Hheap nx a Ha) as (pa & Hpa & _).
      exists pa. split; [assumption |].
      destruct (decide (origin pa = origin_id)) as [Ho|Ho].
      - destruct (S2 a pa Ha Hpa Ho) as [Hrep|Hzero].
        + destruct (S1 _ _ Hrep) as (r & pr & [= <-] & _ & Hr & _ & _ & Hr1).
          rewrite Hpa in Hr. injection Hr as <-.
          rewrite Hp1 in Hr1. injection Hr1 as ->. simpl.
          split; [reflexivity |]. split; [reflexivity |].
          split; [apply u32_range | auto].
        + rewrite Hp1 in Hzero. injection Hzero as ->. simpl.
          split; [reflexivity |]. split; [reflexivity |].
          split; [unfold is_uint, UINT_MAX; lia | lia].
      - rewrite (S3 a pa Hpa (or_intror Ho)) in Hp1. injection Hp1 as <-.
        split; [reflexivity |]. split; [reflexivity |].
        split; [eapply Huint; eassumption | contradiction]. }
    set (st0 := set_heap h1 st).
    assert (Hshape0 : same_shape st st0) by (split; [exact Hnodes | reflexivity]).
    assert (Hown0 : fragments_owned st0).
    { split; [exact Hnodup |]. split; [exact Hdisj |].
      intros k a p1 Ha Hp1. simpl in Hp1.
      destruct (decide (k = nx)) as [->|Hk].
      - destruct (Hmerged a p1 Ha Hp1) as (pa & _ & _ & _ & Hu & _). exact Hu.
      - rewrite (Hother a (Helse k a Ha Hk)) in Hp1. eapply Huint; eassumption. }
    destruct Hss as (Hstack & Hnd & Hall).
    assert (Hss0 : search_stack (heap st0) V stk nx).
    { split; [| split; assumption].
      apply (on_stack_same_nodes (heap st)); assumption. }
    assert (Hnotnx : forall k c, (k, c) ∈ stk -> k <> nx).
    { intros k c Hin ->.
      pose proof (on_stack_elem _ _ _ _ _ _ Hstack Hin) as Hat.
      rewrite Hp in Hat. discriminate. }
    assert (Hsf0 : stack_flows st0 stk).
    { intros k c Hin. destruct (Hsf k c Hin) as (Hc & pc & Hpc & Hfl).
      split; [assumption |]. exists pc. split; [| assumption].
      simpl. rewrite (Hother c (Helse k c Hc (Hnotnx k c Hin))). assumption. }
    assert (Hrank0 : ranked origin_id st0 V rank).
    { intros k m Hk (a & p1 & Ha & Hp1 & Ho & Hm & Hfl).
      apply (Hrank k m Hk). exists a, p1.
      split; [assumption |]. split; [| auto].
      assert (k <> nx) as Hne.
      { intros ->. unfold resolved in Hk. rewrite Hp in Hk. discriminate. }
      simpl in Hp1. rewrite (Hother a (Helse k a Ha Hne)) in Hp1. assumption. }
    assert (Hval : forall k p, (k, p) ∈ nh ->
              p ∈ fragments_at st0 nx /\
              exists a pa, p = Ptr a /\ heap st0 !! a = Some pa /\ node pa = k).
    { intros k p Hin.
      destruct (S1 k p Hin) as (r & pr & -> & Hrl & _ & Hn & _ & Hr1).
      split; [assumption |]. eexists _, _. split; [reflexivity |].
      split; [exact Hr1 | exact Hn]. }
    apply at_node_lookup in Hp as Hp'. destruct Hp' as [_ Hi].
    destruct (children_loop_orders origin_id (EliminateCycles_rec n origin_id) n
                V stk nx st0 IH Hp Hss0 Hsf0
                (fragments_valid_shape _ _ _ Hshape0 Hfrag) Hown0 Hfuel
                nh st0 V rank st' V2 Hval)
      as (C1 & C2 & C3 & C4 & C5 & C5' & (rank2 & C6) & C7 & C8).
    { split; reflexivity. }
    { rewrite list_insert_id by assumption. apply path_evolves_refl. }
    { unfold resolved. rewrite Hp. discriminate. }
    { assumption. }
    { intros a _. reflexivity. }
    { apply origins_kept_refl. }
    { assumption. }
    { exact Hfold. }
    pose proof (Forall2_length _ _ _ C2) as HlenV2. rewrite length_insert in HlenV2.
    subst V'.
    assert (Hmark : forall k, k <> nx ->
              at_node (<[Z.to_nat nx := invalid_path]> V2) k = at_node V2 k).
    { intros k Hk. apply at_node_insert_ne; [lia | congruence]. }
    split; [assumption |].
    split; [unfold resolved; apply at_node_insert_eq; lia |].
    split.
    { (* only fragments of unvisited nodes have changed *)
      intros a Hprem.
      assert (Ptr a ∉ l) as Hal.
      { intros Hin. apply (Hprem nx Hin). assumption. }
      rewrite <- (Hother a Hal). apply C5. intros k Hk.
      destruct (decide (k = nx)) as [->|Hne].
      - rewrite at_node_insert_eq by assumption. discriminate.
      - rewrite at_node_insert_ne by lia. apply Hprem. assumption. }
    split.
    { (* the objects of other origins *)
      apply (origins_kept_trans origin_id (heap st) h1); [| exact C5'].
      intros a pa Hpa.
      destruct (decide (Ptr a ∈ l)) as [Hin|Hout].
      - destruct (decide (origin pa = origin_id)) as [Ho|Ho].
        + destruct (S2 a pa Hin Hpa Ho) as [Hrep|Hzero].
          * destruct (S1 _ _ Hrep) as (r & pr & [= <-] & _ & Hr & _ & _ & Hr1).
            rewrite Hpa in Hr. injection Hr as <-.
            eexists. split; [exact Hr1 |]. split; [reflexivity | contradiction].
          * eexists. split; [exact Hzero |]. split; [reflexivity | contradiction].
        + exists pa. split; [apply S3; auto | auto].
      - exists pa. split; [apply S3; auto | auto]. }
    (* the ranking, with the node above all others *)
    set (fresh := S (max_list (rank2 <$> seqZ 0 (Z.of_nat (length V))))).
    assert (Hfresh : forall m, 0 <= m < Z.of_nat (length V) ->
              (rank2 m < fresh)%nat).
    { intros m Hm. unfold fresh. apply Nat.lt_succ_r.
      apply max_list_elem_of_le. apply list_elem_of_fmap.
      exists m. split; [reflexivity |]. apply elem_of_seqZ. lia. }
    exists (fun k => if decide (k = nx) then fresh else rank2 k).
    intros k m Hk (a & p1 & Ha & Hp1 & Ho & Hm & Hfl).
    rewrite (fragments_at_shape _ _ _ (same_shape_trans _ _ _ Hshape0 C1)) in Ha.
    assert (Hm2 : resolved V2 m /\ (k <> nx -> (rank2 m < rank2 k)%nat) /\
                  0 <= m < Z.of_nat (length V)).
    { destruct (decide (k = nx)) as [->|Hne].
      - (* a fragment of the node itself *)
        assert (Hst0 : h1 !! a = Some p1).
        { rewrite <- Hp1. symmetry. apply C5. intros k2 Hk2.
          rewrite (Hdisj _ _ _ Hk2 Ha).
          rewrite at_node_insert_eq by assumption. discriminate. }
        destruct (Hmerged a p1 Ha Hst0) as (pa & Hpa & Hn1 & Ho1 & _ & Hrep).
        destruct (Hheap nx a Ha) as (pa' & Hpa' & Hr).
        rewrite Hpa in Hpa'. injection Hpa' as <-.
        split; [| split; [contradiction | congruence]].
        apply (C8 m a p1); [| exact Hst0 | assumption].
        rewrite <- Hm, Hn1. apply Hrep; [congruence | assumption].
      - assert (resolved V2 k) as Hk2.
        { unfold resolved in *. rewrite <- (Hmark k Hne). assumption. }
        destruct (C6 k m Hk2) as [Hrm Hlt].
        { exists a, p1.
          rewrite (fragments_at_shape _ _ _ (same_shape_trans _ _ _ Hshape0 C1)).
          auto 10. }
        split; [assumption |]. split; [auto |].
        rewrite HlenV2. eapply at_node_range. exact Hrm. }
    destruct Hm2 as (Hrm & Hlt & Hmr).
    assert (m <> nx) as Hmn by (intros ->; contradiction).
    split; [unfold resolved; rewrite (Hmark m Hmn); exact Hrm |].
    rewrite (decide_False (P := m = nx)) by assumption.
    destruct (decide (k = nx)) as [->|Hne]; [apply Hfresh; assumption | auto].
  - (* a resolved node *)
    injection Hret as <- <-.
    split; [assumption |]. split; [exact Hp |].
    split; [intros a _; reflexivity |].
    split; [apply origins_kept_refl | eauto].
  - (* a node in progress: its cycle carries flow *)
    exfalso.
    destruct (FindCycleFlow _ _ _ _) as [fl|] eqn:Hfl; [| discriminate].
    simpl in Hret.
    assert (0 < fl) as Hpos.
    { destruct Hss as (Hstack & Hnd & Hall).
      apply (FindCycleFlow_loop_positive (heap st) V (Ptr c)
               (fun c0 => exists k, (k, c0) ∈ stk)) with
        (fuel := S (length V)) (fl := UINT_MAX) (c := c).
      - intros c0 [k Hin].
        destruct (Hsf k c0 Hin) as (_ & pc & Hpc & Hflow).
        exists pc. split; [assumption |]. split; [assumption |].
        destruct (on_stack_next _ _ _ _ _ _ Hstack Hin) as (m & Hm & Hcase).
        unfold node_at in Hm. rewrite Hpc in Hm. injection Hm as ->.
        destruct Hcase as [->|(c' & Hc')].
        + exists c. split; [assumption |]. exists nx. apply Hall. assumption.
        + exists c'. split; [| eauto].
          eapply on_stack_elem; eassumption.
      - unfold UINT_MAX. lia.
      - exists nx. apply Hall. assumption.
      - exact Hfl. }
    destruct (Z.ltb_spec 0 fl); [| lia].
    destruct (EliminateCycle _ _ _ _ _); discriminate.
Qed.

(** Along the flow of the origin the rank falls, from a resolved node. *)
Lemma ranked_walk (origin_id : NodeID) (st : State) (path : list PathPtr)
    (rank : NodeID -> nat) (n m : NodeID) :
  ranked origin_id st path rank ->
  tc (flow_edge origin_id st) n m -> resolved path n ->
  resolved path m /\ (rank m < rank n)%nat.
Proof.
  intros Hrank Hwalk. induction Hwalk as [n m Hedge|n k m Hedge _ IH]; intros Hn.
  - apply Hrank; assumption.
  - destruct (Hrank n k Hn Hedge) as [Hk Hlt].
    destruct (IH Hk) as [Hm Hlt']. split; [assumption | lia].
Qed.

(** X15: a search that reports no cycle has shown that there is none.
    When the search of the flow of an origin from a node, started on an
    empty path vector, returns false, the job is unchanged, the node is
    marked as resolved, and the resolved nodes can be ranked so that every
    fragment of the origin that is attached to a resolved node and carries
    flow leads to a resolved node of lower rank.  So no flow of the origin
    that can be reached from the node runs in a circle.  (The fragments
    are heap objects ending at nodes of the job, each attached to one
    node, once, with an [unsigned int] as flow.) *)
Theorem X15_search_without_cycle (origin_id : NodeID) (fuel : nat) (st : State)
    (len : nat) (next_id : NodeID) (st' : State) (path' : list PathPtr) :
  fragments_valid st len -> fragments_owned st ->
  0 <= next_id < Z.of_nat len -> (len < fuel)%nat ->
  EliminateCycles_rec fuel origin_id st (replicate len NULL) next_id
    = Some (false, st', path') ->
  job st' = job st /\
  resolved path' next_id /\
  (exists rank : NodeID -> nat,
     forall n m, resolved path' n -> flow_edge origin_id st' n m ->
       resolved path' m /\ (rank m < rank n)%nat) /\
  (forall n, resolved path' n -> ~ tc (flow_edge origin_id st') n n).
Proof.
  intros Hfrag Hown Hrange Hfuel Hrun.
  destruct (EliminateCycles_rec_job _ _ _ _ _ _ _ _ Hrun) as (_ & _ & Hjob).
  destruct (EliminateCycles_rec_orders origin_id fuel st (replicate len NULL) []
              next_id (fun _ => O) st' path')
    as (_ & _ & _ & Hres & _ & _ & rank & Hrank).
  - rewrite length_replicate. assumption.
  - assumption.
  - apply search_stack_start.
  - intros k c Hin. apply elem_of_nil in Hin. contradiction.
  - rewrite length_replicate. assumption.
  - rewrite length_replicate. simpl. lia.
  - intros n m Hn. unfold resolved in Hn.
    apply at_node_lookup in Hn as [_ Hn].
    apply lookup_replicate in Hn as [Hn _]. discriminate.
  - assumption.
  - split; [auto |]. split; [assumption |]. split; [exists rank; exact Hrank |].
    intros n Hn Hwalk.
    destruct (ranked_walk _ _ _ _ _ _ Hrank Hwalk Hn) as [_ Hlt]. lia.
Qed.

Lemma line_state_owned : fragments_owned line_state.
Proof.
  assert (Hat : forall k,
            fragments_at line_state k
            = if decide (k = 0) then [Ptr 1; Ptr 4]
              else if decide (k = 1) then [Ptr 2] else []).
  { intros k. unfold fragments_at, line_state, line_job. cbn [job Paths].
    rewrite lookup_insert, lookup_singleton.
    destruct (decide (k = 0)) as [->|H0]; [reflexivity |].
    rewrite decide_False by congruence.
    destruct (decide (k = 1)) as [->|H1]; [reflexivity |].
    rewrite decide_False by congruence. reflexivity. }
  split; [| split].
  - intros k. rewrite Hat.
    destruct (decide (k = 0)); [| destruct (decide (k = 1))];
      repeat (constructor; [rewrite ?elem_of_cons, ?elem_of_nil; intuition discriminate |]);
      constructor.
  - intros k1 k2 p. rewrite !Hat.
    destruct (decide (k1 = 0)); [| destruct (decide (k1 = 1))];
      (destruct (decide (k2 = 0)); [| destruct (decide (k2 = 1))]);
      rewrite ?elem_of_cons, ?elem_of_nil; intros H1 H2;
      try congruence; intuition congruence.
  - intros k a pa. rewrite Hat.
    destruct (decide (k = 0)); [| destruct (decide (k = 1))];
      rewrite ?elem_of_cons, ?elem_of_nil; intros Ha Hpa;
      repeat (destruct Ha as [[= ->]|Ha]); try contradiction;
      vm_compute in Hpa; injection Hpa as <-; vm_compute; split; discriminate.
Qed.

(** The flow of origin 0 along the line has no cycle. *)
Lemma X15_search_without_cycle_witness :
  fragments_valid line_state 3 /\ fragments_owned line_state /\
  0 <= 0 < Z.of_nat 3 /\ (3 < 4)%nat /\
  exists st' path',
    EliminateCycles_rec 4 0 line_state (replicate 3 NULL) 0
      = Some (false, st', path') /\
    resolved path' 0.
Proof.
  assert (H1 : fragments_valid line_state 3).
  { apply fragments_validb_sound. vm_compute. reflexivity. }
  assert (H3 : 0 <= 0 < Z.of_nat 3) by (simpl; lia).
  assert (H4 : (3 < 4)%nat) by lia.
  split; [exact H1 |]. split; [exact line_state_owned |].
  split; [exact H3 |]. split; [exact H4 |].
  destruct (EliminateCycles_rec 4 0 line_state (replicate 3 NULL) 0)
    as [[[found st'] path']|] eqn:E; [| vm_compute in E; discriminate].
  assert (found = false) as ->.
  { vm_compute in E. injection E as <- _ _. reflexivity. }
  exists st', path'. split; [reflexivity |].
  exact (proj1 (proj2 (X15_search_without_cycle 0 4 line_state 3 0 st' path'
                         H1 line_state_owned H3 H4 E))).
Defined.

Lemma searches_found_stays (fuel : nat) (len : nat) :
  forall (l : list NodeID) (st : State) (cycles : bool) (st' : State),
    fold_opt
      (fun (a : bool * State) (n : NodeID) =>
         let '(cycles_found, st1) := a in
         '(r, st2, _) ← EliminateCycles_rec fuel n st1 (replicate len NULL) n;
         Some (cycles_found || r, st2))
      l (true, st) = Some (cycles, st') -> cycles = true.
Proof.
  induction l as [|n l IH]; intros st cycles st'; cbn [fold_opt].
  - intros [= <- _]. reflexivity.
  - destruct (EliminateCycles_rec fuel n st _ n) as [[[r s1] V1]|]; [| discriminate].
    simpl. apply IH.
Qed.

(** The searches from the nodes [l], each for the flow of its own node as
    origin, when none of them finds a cycle. *)
Lemma searches_order (fuel : nat) (len : nat) :
  (len < fuel)%nat ->
  forall (l : list NodeID) (cycles : bool) (st st' : State),
    NoDup l -> Forall (fun n => 0 <= n < Z.of_nat len) l ->
    fragments_valid st len -> fragments_owned st ->
    fold_opt
      (fun (a : bool * State) (n : NodeID) =>
         let '(cycles_found, st1) := a in
         '(r, st2, _) ← EliminateCycles_rec fuel n st1 (replicate len NULL) n;
         Some (cycles_found || r, st2))
      l (cycles, st) = Some (false, st') ->
    same_shape st st' /\
    (forall a pa, heap st !! a = Some pa ->
       exists p', heap st' !! a = Some p' /\ origin p' = origin pa /\
                  (origin pa ∉ l -> p' = pa)) /\
    forall n, n ∈ l ->
      exists V rank, resolved V n /\ ranked n st' V rank.
Proof.
  intros Hfuel.
  induction l as [|n l IH]; intros cycles st st' Hnd Hl Hfrag Hown;
    cbn [fold_opt].
  - intros [= _ <-]. split; [split; reflexivity |]. split.
    + intros a pa Ha. exists pa. auto.
    + intros n Hn. apply elem_of_nil in Hn. contradiction.
  - apply NoDup_cons in Hnd as [Hn Hnd]. apply Forall_cons in Hl as [Hr Hl].
    destruct (EliminateCycles_rec fuel n st _ n) as [[[r st1] V1]|] eqn:Hrec;
      [| discriminate].
    simpl. intros Hfold.
    assert (cycles = false /\ r = false) as [-> ->].
    { destruct cycles; [apply searches_found_stays in Hfold; discriminate |].
      destruct r; [apply searches_found_stays in Hfold; discriminate |]. auto. }
    simpl in Hfold.
    destruct (EliminateCycles_rec_orders n fuel st (replicate len NULL) [] n
                (fun _ => O) st1 V1)
      as (Hshape1 & _ & Hown1 & Hres1 & _ & Hkept1 & rank1 & Hrank1).
    { rewrite length_replicate. assumption. }
    { assumption. }
    { apply search_stack_start. }
    { intros k c Hin. apply elem_of_nil in Hin. contradiction. }
    { rewrite length_replicate. assumption. }
    { rewrite length_replicate. simpl. lia. }
    { intros k m Hk. unfold resolved in Hk.
      apply at_node_lookup in Hk as [_ Hk].
      apply lookup_replicate in Hk as [Hk _]. discriminate. }
    { assumption. }
    pose proof (fragments_valid_shape _ _ _ Hshape1 Hfrag) as Hfrag1.
    destruct (IH false st1 st' Hnd Hl Hfrag1 Hown1 Hfold)
      as (Hshape2 & Hkept2 & Hranks).
    split; [eapply same_shape_trans; eassumption |]. split.
    + intros a pa Ha.
      destruct (Hkept1 a pa Ha) as (p1 & Hp1 & Ho1 & Hsame1).
      destruct (Hkept2 a p1 Hp1) as (p2 & Hp2 & Ho2 & Hsame2).
      exists p2. split; [assumption |]. split; [congruence |].
      intros Hout. rewrite not_elem_of_cons in Hout. destruct Hout as [Hne Hout].
      rewrite <- (Hsame1 Hne). apply Hsame2. rewrite Ho1. assumption.
    + intros k Hk. apply elem_of_cons in Hk as [->|Hk]; [| apply Hranks; assumption].
      exists V1, rank1. split; [assumption |].
      intros i m Hi (a & p & Ha & Hp & Ho & Hm & Hfl).
      apply (Hrank1 i m Hi).
      rewrite (fragments_at_shape _ _ _ Hshape2) in Ha.
      destruct (fragments_at_valid _ _ _ _ Hfrag1 Ha) as (a' & m' & [= <-] & Hm' & _).
      unfold node_at in Hm'.
      destruct (heap st1 !! a) as [p1|] eqn:Hp1; [| discriminate].
      destruct (Hkept2 a p1 Hp1) as (p2 & Hp2 & Ho2 & Hsame2).
      rewrite Hp in Hp2. injection Hp2 as <-.
      assert (p = p1) as -> by (apply Hsame2; congruence).
      exists a, p1. auto.
Qed.

(** X16: when [EliminateCycles()] reports no cycle, there is none.  The
    job is then unchanged, and for every node of the job the nodes its
    search has resolved, the node among them, are ranked so that the flow
    of that node as origin only leads from a resolved node to a resolved
    node of lower rank: no flow leaves a node and comes back to it.  (The
    fragments are heap objects ending at nodes of the job, each attached
    to one node, once, with an [unsigned int] as flow.) *)
Theorem X16_no_cycle_reported_no_cycle (fuel : nat) (st st' : State) :
  fragments_valid st (Z.to_nat (Size (job st))) -> fragments_owned st ->
  (Z.to_nat (Size (job st)) < fuel)%nat ->
  EliminateCycles fuel st = Some (false, st') ->
  job st' = job st /\
  forall n, 0 <= n < Size (job st) ->
    (exists (path : list PathPtr) (rank : NodeID -> nat),
       resolved path n /\
       forall k m, resolved path k -> flow_edge n st' k m ->
         resolved path m /\ (rank m < rank k)%nat) /\
    ~ tc (flow_edge n st') n n.
Proof.
  intros Hfrag Hown Hfuel Hrun.
  destruct (EliminateCycles_job _ _ _ _ Hrun) as (_ & _ & Hjob).
  split; [auto |].
  unfold EliminateCycles in Hrun.
  destruct (searches_order fuel (Z.to_nat (Size (job st))) Hfuel
              (seqZ 0 (Size (job st))) false st st') as (_ & _ & Hranks).
  - apply NoDup_seqZ.
  - apply Forall_forall. intros n Hn. apply elem_of_seqZ in Hn. lia.
  - assumption.
  - assumption.
  - exact Hrun.
  - intros n Hn.
    destruct (Hranks n) as (V & rank & Hres & Hrank).
    { apply elem_of_seqZ. lia. }
    split; [exists V, rank; split; [assumption | exact Hrank] |].
    intros Hwalk.
    destruct (ranked_walk _ _ _ _ _ _ Hrank Hwalk Hres) as [_ Hlt]. lia.
Qed.

(** The flow along the line comes back to none of its three nodes. *)
Lemma X16_no_cycle_reported_no_cycle_witness :
  fragments_valid line_state (Z.to_nat (Size (job line_state))) /\
  fragments_owned line_state /\
  (Z.to_nat (Size (job line_state)) < 4)%nat /\
  exists st',
    EliminateCycles 4 line_state = Some (false, st') /\
    ~ tc (flow_edge 0 st') 0 0.
Proof.
  assert (H1 : fragments_valid line_state (Z.to_nat (Size (job line_state)))).
  { apply fragments_validb_sound. vm_compute. reflexivity. }
  assert (H3 : (Z.to_nat (Size (job line_state)) < 4)%nat) by (vm_compute; lia).
  split; [exact H1 |]. split; [exact line_state_owned |]. split; [exact H3 |].
  destruct (EliminateCycles 4 line_state) as [[cycles st']|] eqn:E;
    [| vm_compute in E; discriminate].
  assert (cycles = false) as ->.
  { vm_compute in E. injection E as <- _. reflexivity. }
  exists st'. split; [reflexivity |].
  assert (H0 : 0 <= 0 < Size (job line_state)) by (vm_compute; split; [discriminate | reflexivity]).
  exact (proj2 (proj2 (X16_no_cycle_reported_no_cycle 4 line_state st'
                         H1 line_state_owned H3 E) 0 H0)).
Defined.
